(** * TinyLisp toolchain: lexer, reader, compiler and stack VM

    A shallow embedding of [tinylisp_v0.py] (lexer, reader, compiler) and
    [vm.py] (bytecode loader and stack machine), with the properties of the
    toolchain stated and proved over it.

    Conventions of the embedding.
    - A Python [str] is a [string] whose characters are the code points
      below 256.  Where Python would produce a code point above 255 (the
      [\u], [\U], [\N] escapes and large octal escapes) or a value that is
      not an int, str, Sym or list (a JSON document other than a string
      literal), the embedding answers [Raise Unmodelled].
    - A Python exception is a [Raise e]; the exception classes the two
      programs can raise are the constructors of [exn].  Messages are kept
      for the exceptions the programs raise themselves.
    - Python objects that are mutated and shared (the frame dictionaries of
      the VM) live in an object store and are referred to by their index.
    - Limits of the interpreter (recursion depth, the digit limit of
      int/str conversions, memory) are not modelled. *)

From stdpp Require Import base option list strings gmap pretty.
From Stdlib Require Import ZArith Ascii String.

Set Warnings "-register-all,-clear-no-such-hyp".
Open Scope string_scope.
Open Scope list_scope.
Open Scope Z_scope.

(** ** Python values, exceptions and results *)

Module Py.

(** The objects the two programs manipulate: int, str, the [Sym] dataclass
    (its [name] field may hold any object) and list. *)
Inductive value :=
  | VInt (n : Z)
  | VStr (s : string)
  | VSym (name : value)
  | VList (items : list value).

Inductive exn :=
  | SyntaxError (msg : string)
  | RuntimeError (msg : string)
  | TypeError
  | IndexError
  | KeyError (key : string)
  | ValueError
  | ZeroDivisionError
  | AttributeError
  | UnicodeDecodeError
  | JSONDecodeError
  | Unmodelled.

Inductive result (A : Type) :=
  | Ok (a : A)
  | Raise (e : exn).
Global Arguments Ok {A} a.
Global Arguments Raise {A} e.

Global Instance result_ret : MRet result := λ A a, Ok a.
Global Instance result_bind : MBind result := λ A B f m,
  match m with
  | Ok a => f a
  | Raise e => Raise e
  end.

(** *** Characters *)

Definition dquote : ascii := "034"%char.
Definition backslash : ascii := "092"%char.
Definition newline : ascii := "010"%char.
Definition nl : string := String newline EmptyString.

Definition code (c : ascii) : N := N_of_ascii c.

Definition in_range (lo hi : N) (c : ascii) : bool :=
  ((lo <=? code c) && (code c <=? hi))%N.

(** [str.isspace] on one character, also the class [\s] of [re]. *)
Definition isspace (c : ascii) : bool :=
  in_range 9 13 c || in_range 28 32 c ||
  (code c =? 133)%N || (code c =? 160)%N.

(** The class [\d] of [re]: below 256 only the ASCII digits are decimal. *)
Definition isdigit (c : ascii) : bool := in_range 48 57 c.

Definition isalpha_ascii (c : ascii) : bool :=
  in_range 65 90 c || in_range 97 122 c.

Definition chars (s : string) : list ascii := list_ascii_of_string s.
Definition str (l : list ascii) : string := string_of_list_ascii l.

Definition char_in (c : ascii) (s : string) : bool :=
  bool_decide (c ∈ chars s).

(** *** Decimal and hexadecimal numerals *)

Definition digit_val (c : ascii) : Z := Z.of_N (code c) - 48.

Definition hex_val (c : ascii) : option N :=
  if isdigit c then Some (code c - 48)%N
  else if in_range 97 102 c then Some (code c - 87)%N
  else if in_range 65 70 c then Some (code c - 55)%N
  else None.

Fixpoint hex_digits_val (acc : N) (l : list ascii) : option N :=
  match l with
  | [] => Some acc
  | c :: l' =>
      match hex_val c with
      | Some d => hex_digits_val (16 * acc + d)%N l'
      | None => None
      end
  end.

Definition hex_char (d : N) : ascii :=
  if (d <? 10)%N then ascii_of_N (48 + d) else ascii_of_N (87 + d).

(** Two lower-case hexadecimal digits, as in [\x0b] and [\u000b]. *)
Definition hex2 (c : ascii) : list ascii :=
  [hex_char (code c / 16)%N; hex_char (code c mod 16)%N].

(** [int(s)] on a str: surrounding whitespace is dropped, then an optional
    sign and decimal digits, single underscores allowed between digits.
    The whitespace of [int] is that of C, and the whitespace above
    code point 127. *)
Definition int_space (c : ascii) : bool :=
  in_range 9 13 c || (code c =? 32)%N || (code c =? 133)%N || (code c =? 160)%N.

Fixpoint int_digits (prev_digit : bool) (acc : Z) (l : list ascii) : option Z :=
  match l with
  | [] => if prev_digit then Some acc else None
  | c :: l' =>
      if isdigit c then int_digits true (10 * acc + digit_val c) l'
      else if (code c =? 95)%N && prev_digit then int_digits false acc l'
      else None
  end.

Fixpoint drop_while (p : ascii → bool) (l : list ascii) : list ascii :=
  match l with
  | c :: l' => if p c then drop_while p l' else l
  | [] => []
  end.

Fixpoint take_while (p : ascii → bool) (l : list ascii) : list ascii :=
  match l with
  | c :: l' => if p c then c :: take_while p l' else []
  | [] => []
  end.

(** [s.strip()] *)
Definition strip_chars (l : list ascii) : list ascii :=
  reverse (drop_while isspace (reverse (drop_while isspace l))).

Definition int_of_str (s : string) : result Z :=
  let body :=
    reverse (drop_while int_space (reverse (drop_while int_space (chars s)))) in
  let r :=
    match body with
    | "-"%char :: l => Z.opp <$> int_digits false 0 l
    | "+"%char :: l => int_digits false 0 l
    | l => int_digits false 0 l
    end in
  match r with
  | Some n => Ok n
  | None => Raise ValueError
  end.

(** *** [repr] and [str] *)

(** Characters that [repr] of a str writes as they are: the printable ones
    ([str.isprintable]); the others below 256 are the C0 and C1 controls,
    DEL, the no-break space and the soft hyphen. *)
Definition isprintable (c : ascii) : bool :=
  in_range 32 126 c || (in_range 161 255 c && negb (code c =? 173)%N).

Definition repr_char (quote : ascii) (c : ascii) : list ascii :=
  if bool_decide (c = quote) || bool_decide (c = backslash) then [backslash; c]
  else if (code c =? 9)%N then chars "\t"
  else if (code c =? 10)%N then chars "\n"
  else if (code c =? 13)%N then chars "\r"
  else if isprintable c then [c]
  else chars "\x" ++ hex2 c.

(** [repr(s)] for a str: single quotes, unless the text has a single quote
    and no double quote. *)
Definition repr_str (s : string) : string :=
  let l := chars s in
  let quote :=
    if char_in "'"%char s && negb (char_in dquote s)
    then dquote else "'"%char in
  str ([quote] ++ mjoin (repr_char quote <$> l) ++ [quote]).

(** [", ".join(l)] and friends. *)
Definition join (sep : string) (l : list string) : string :=
  String.concat sep l.

(** [repr(v)] when [r] is true, [str(v)] otherwise.  They differ on str
    only; the items of a list are always shown with [repr]; [Sym] has the
    [__repr__] of vm.py, an f-string over its name. *)
Fixpoint show (r : bool) (v : value) : string :=
  match v with
  | VInt n => pretty n
  | VStr s => if r then repr_str s else s
  | VSym name => "Sym(" +:+ show false name +:+ ")"
  | VList items => "[" +:+ join ", " (show true <$> items) +:+ "]"
  end.

Definition py_str (v : value) : string := show false v.
Definition py_repr (v : value) : string := show true v.

(** *** Comparison and arithmetic *)

(** [a == b]: by value inside one class, false across classes. *)
Fixpoint py_eq (a b : value) : bool :=
  match a, b with
  | VInt m, VInt n => bool_decide (m = n)
  | VStr s, VStr t => bool_decide (s = t)
  | VSym m, VSym n => py_eq m n
  | VList l, VList k =>
      (fix go (l k : list value) : bool :=
         match l, k with
         | [], [] => true
         | x :: l', y :: k' => py_eq x y && go l' k'
         | _, _ => false
         end) l k
  | _, _ => false
  end.

(** [s < t] on str: by code points, a proper prefix is smaller. *)
Fixpoint str_lt (s t : list ascii) : bool :=
  match s, t with
  | _, [] => false
  | [], _ :: _ => true
  | c :: s', d :: t' =>
      if (code c <? code d)%N then true
      else if (code d <? code c)%N then false
      else str_lt s' t'
  end.

(** [a < b]: ints, strs, and lists by their first differing items; [Sym]
    has no order and mixed classes have none. *)
Fixpoint py_lt (a b : value) : result bool :=
  match a, b with
  | VInt m, VInt n => Ok (bool_decide (m < n))
  | VStr s, VStr t => Ok (str_lt (chars s) (chars t))
  | VList l, VList k =>
      (fix go (l k : list value) : result bool :=
         match l, k with
         | _, [] => Ok false
         | [], _ :: _ => Ok true
         | x :: l', y :: k' => if py_eq x y then go l' k' else py_lt x y
         end) l k
  | _, _ => Raise TypeError
  end.

Fixpoint repeat_str (n : nat) (s : string) : string :=
  match n with
  | O => EmptyString
  | S n' => s +:+ repeat_str n' s
  end.

Definition py_add (a b : value) : result value :=
  match a, b with
  | VInt m, VInt n => Ok (VInt (m + n))
  | VStr s, VStr t => Ok (VStr (s +:+ t))
  | VList l, VList k => Ok (VList (l ++ k))
  | _, _ => Raise TypeError
  end.

Definition py_sub (a b : value) : result value :=
  match a, b with
  | VInt m, VInt n => Ok (VInt (m - n))
  | _, _ => Raise TypeError
  end.

Definition py_mul (a b : value) : result value :=
  match a, b with
  | VInt m, VInt n => Ok (VInt (m * n))
  | VStr s, VInt n | VInt n, VStr s => Ok (VStr (repeat_str (Z.to_nat n) s))
  | VList l, VInt n | VInt n, VList l =>
      Ok (VList (mjoin (replicate (Z.to_nat n) l)))
  | _, _ => Raise TypeError
  end.

(** [a // b]: floor division, the quotient whose remainder has the sign of
    the divisor. *)
Definition py_floordiv (a b : value) : result value :=
  match a, b with
  | VInt m, VInt n =>
      if bool_decide (n = 0) then Raise ZeroDivisionError else Ok (VInt (m `div` n))
  | _, _ => Raise TypeError
  end.

(** *** [json.dumps] and [json.loads] *)

(** One character of a JSON string with [ensure_ascii]: the quote, the
    backslash and everything outside space..tilde are escaped. *)
Definition json_char (c : ascii) : list ascii :=
  if bool_decide (c = dquote) then [backslash; dquote]
  else if bool_decide (c = backslash) then [backslash; backslash]
  else if (code c =? 10)%N then chars "\n"
  else if (code c =? 13)%N then chars "\r"
  else if (code c =? 9)%N then chars "\t"
  else if (code c =? 8)%N then chars "\b"
  else if (code c =? 12)%N then chars "\f"
  else if in_range 32 126 c then [c]
  else chars "\u00" ++ hex2 c.

Definition json_dumps_str (s : string) : string :=
  str ([dquote] ++ mjoin (json_char <$> chars s) ++ [dquote]).

(** [json.dumps(v)]: a [Sym] is not serializable. *)
Fixpoint json_dumps (v : value) : result string :=
  match v with
  | VInt n => Ok (pretty n)
  | VStr s => Ok (json_dumps_str s)
  | VSym _ => Raise TypeError
  | VList items =>
      parts ← (fix go (l : list value) : result (list string) :=
                 match l with
                 | [] => Ok []
                 | x :: l' => s ← json_dumps x; ss ← go l'; Ok (s :: ss)
                 end) items;
      Ok ("[" +:+ join ", " parts +:+ "]")
  end.

Definition json_ws (c : ascii) : bool :=
  (code c =? 32)%N || (code c =? 9)%N || (code c =? 10)%N || (code c =? 13)%N.

Definition chr_below_256 (n : N) : result ascii :=
  if (n <? 256)%N then Ok (ascii_of_N n) else Raise Unmodelled.

(** The body of a JSON string literal after its opening quote, up to the
    closing quote: the decoded text and what follows the literal. *)
Fixpoint json_scanstring (l : list ascii) : result (list ascii * list ascii) :=
  match l with
  | [] => Raise JSONDecodeError
  | c :: r =>
      if bool_decide (c = dquote) then Ok ([], r)
      else if bool_decide (c = backslash) then
        match r with
        | [] => Raise JSONDecodeError
        | e :: r1 =>
            let simple (d : ascii) :=
              '(t, rest) ← json_scanstring r1; Ok (d :: t, rest) in
            if bool_decide (e = dquote) then simple dquote
            else if bool_decide (e = backslash) then simple backslash
            else if bool_decide (e = "/"%char) then simple "/"%char
            else if bool_decide (e = "b"%char) then simple "008"%char
            else if bool_decide (e = "f"%char) then simple "012"%char
            else if bool_decide (e = "n"%char) then simple "010"%char
            else if bool_decide (e = "r"%char) then simple "013"%char
            else if bool_decide (e = "t"%char) then simple "009"%char
            else if bool_decide (e = "u"%char) then
              match r1 with
              | h1 :: h2 :: h3 :: h4 :: r2 =>
                  match hex_digits_val 0 [h1; h2; h3; h4] with
                  | Some n =>
                      d ← chr_below_256 n;
                      '(t, rest) ← json_scanstring r2; Ok (d :: t, rest)
                  | None => Raise JSONDecodeError
                  end
              | _ => Raise JSONDecodeError
              end
            else Raise JSONDecodeError
        end
      else if (code c <? 32)%N then Raise JSONDecodeError
      else '(t, rest) ← json_scanstring r; Ok (c :: t, rest)
  end.

(** [json.loads(s)] on a document that is a string literal, with JSON
    whitespace around it.  Other documents are outside the embedding. *)
Definition json_loads (s : string) : result value :=
  match drop_while json_ws (chars s) with
  | c :: r =>
      if bool_decide (c = dquote) then
        '(t, rest) ← json_scanstring r;
        match drop_while json_ws rest with
        | [] => Ok (VStr (str t))
        | _ :: _ => Raise JSONDecodeError
        end
      else Raise Unmodelled
  | [] => Raise JSONDecodeError
  end.

(** *** [bytes(body, "utf-8").decode("unicode_escape")] *)

Definition utf8_encode (l : list ascii) : list ascii :=
  mjoin ((λ c, if (code c <? 128)%N then [c]
               else [ascii_of_N (192 + code c / 64); ascii_of_N (128 + code c mod 64)])
         <$> l).

Definition isoctal (c : ascii) : bool := in_range 48 55 c.
Definition octal_val (c : ascii) : N := (code c - 48)%N.

(** The escapes of the [unicode_escape] codec over bytes; a byte that is
    not part of an escape is the character of the same code. *)
Fixpoint unicode_escape (l : list ascii) : result (list ascii) :=
  match l with
  | [] => Ok []
  | c :: r =>
      if negb (bool_decide (c = backslash)) then t ← unicode_escape r; Ok (c :: t)
      else
        match r with
        | [] => Raise UnicodeDecodeError
        | e :: r1 =>
            let simple (d : ascii) := t ← unicode_escape r1; Ok (d :: t) in
            if bool_decide (e = newline) then unicode_escape r1
            else if bool_decide (e = backslash) then simple backslash
            else if bool_decide (e = "'"%char) then simple "'"%char
            else if bool_decide (e = dquote) then simple dquote
            else if bool_decide (e = "a"%char) then simple "007"%char
            else if bool_decide (e = "b"%char) then simple "008"%char
            else if bool_decide (e = "f"%char) then simple "012"%char
            else if bool_decide (e = "n"%char) then simple "010"%char
            else if bool_decide (e = "r"%char) then simple "013"%char
            else if bool_decide (e = "t"%char) then simple "009"%char
            else if bool_decide (e = "v"%char) then simple "011"%char
            else if isoctal e then
              match r1 with
              | o2 :: r2 =>
                  if isoctal o2 then
                    match r2 with
                    | o3 :: r3 =>
                        if isoctal o3 then
                          d ← chr_below_256
                                (64 * octal_val e + 8 * octal_val o2 + octal_val o3);
                          t ← unicode_escape r3; Ok (d :: t)
                        else
                          t ← unicode_escape r2;
                          Ok (ascii_of_N (8 * octal_val e + octal_val o2) :: t)
                    | [] => Ok [ascii_of_N (8 * octal_val e + octal_val o2)]
                    end
                  else simple (ascii_of_N (octal_val e))
              | [] => Ok [ascii_of_N (octal_val e)]
              end
            else if bool_decide (e = "x"%char) then
              match r1 with
              | h1 :: h2 :: r2 =>
                  match hex_digits_val 0 [h1; h2] with
                  | Some n => t ← unicode_escape r2; Ok (ascii_of_N n :: t)
                  | None => Raise UnicodeDecodeError
                  end
              | _ => Raise UnicodeDecodeError
              end
            else if bool_decide (e = "u"%char) then
              match r1 with
              | h1 :: h2 :: h3 :: h4 :: r2 =>
                  match hex_digits_val 0 [h1; h2; h3; h4] with
                  | Some n =>
                      d ← chr_below_256 n;
                      t ← unicode_escape r2; Ok (d :: t)
                  | None => Raise UnicodeDecodeError
                  end
              | _ => Raise UnicodeDecodeError
              end
            else if bool_decide (e = "U"%char) then
              match r1 with
              | h1 :: h2 :: h3 :: h4 :: h5 :: h6 :: h7 :: h8 :: r2 =>
                  match hex_digits_val 0 [h1; h2; h3; h4; h5; h6; h7; h8] with
                  | Some n =>
                      if (1114111 <? n)%N then Raise UnicodeDecodeError
                      else
                        d ← chr_below_256 n;
                        t ← unicode_escape r2; Ok (d :: t)
                  | None => Raise UnicodeDecodeError
                  end
              | _ => Raise UnicodeDecodeError
              end
            else if bool_decide (e = "N"%char) then Raise Unmodelled
            else t ← unicode_escape r1; Ok (backslash :: e :: t)
        end
  end.

End Py.

(** ** tinylisp_v0.py: lexer, reader and compiler *)

Module TinyLisp.
Import Py.

(** *** Lexer *)

(** Tokens are the pairs [(kind, payload)] of the source; the payload of
    ["LP"] and ["RP"] is the parenthesis and that of ["EOF"] is [None]. *)
Inductive token :=
  | LP
  | RP
  | STR (s : string)
  | INT (n : Z)
  | SYM (s : string)
  | EOF.

(** The named groups of [_tok_re]. *)
Inductive group := COMMENT | GLP | GRP | GSTR | GINT | GSYM.

(** A successful match: [lastgroup], the text of that group, and the
    input from [m.end()] on. *)
Definition re_match : Type := group * list ascii * list ascii.

Definition first_of {A} (alts : list (option A)) : option A :=
  foldr (λ a rest, match a with Some x => Some x | None => rest end) None alts.

Definition not_newline (c : ascii) : bool := negb (bool_decide (c = newline)).

(** [;[^\n]*] *)
Definition m_comment (s : list ascii) : option re_match :=
  match s with
  | ";"%char :: r =>
      Some (COMMENT, ";"%char :: take_while not_newline r, drop_while not_newline r)
  | _ => None
  end.

(** [\(] and [\)] *)
Definition m_lp (s : list ascii) : option re_match :=
  match s with
  | "("%char :: r => Some (GLP, ["("%char], r)
  | _ => None
  end.

Definition m_rp (s : list ascii) : option re_match :=
  match s with
  | ")"%char :: r => Some (GRP, [")"%char], r)
  | _ => None
  end.

(** The STR group after its opening quote, a starred choice and the
    closing quote: each round takes one character that is neither quote
    nor backslash, or a backslash and one character other than a newline;
    when no further round leads to a match, the closing quote is tried.
    The result is the text before the closing quote and the input after
    it. *)
Fixpoint str_body (s : list ascii) : option (list ascii * list ascii) :=
  match s with
  | [] => None
  | c :: r =>
      let round :=
        if negb (bool_decide (c = dquote)) && negb (bool_decide (c = backslash)) then
          '(b, rest) ← str_body r; Some (c :: b, rest)
        else if bool_decide (c = backslash) then
          match r with
          | d :: r' =>
              if not_newline d then '(b, rest) ← str_body r'; Some (c :: d :: b, rest)
              else None
          | [] => None
          end
        else None in
      match round with
      | Some m => Some m
      | None => if bool_decide (c = dquote) then Some ([], r) else None
      end
  end.

(** The STR group: a quote, the body, a quote. *)
Definition m_str (s : list ascii) : option re_match :=
  match s with
  | c :: r =>
      if bool_decide (c = dquote) then
        '(b, rest) ← str_body r; Some (GSTR, ([dquote] ++ b ++ [dquote])%list, rest)
      else None
  | [] => None
  end.

(** [\d+] *)
Definition m_digits (s : list ascii) : option (list ascii * list ascii) :=
  match take_while isdigit s with
  | [] => None
  | ds => Some (ds, drop_while isdigit s)
  end.

(** [-?\d+]: the sign is taken when present; without digits after it the
    match is retried without the sign, where it fails on the sign. *)
Definition m_int (s : list ascii) : option re_match :=
  match s with
  | "-"%char :: r =>
      match m_digits r with
      | Some (ds, rest) => Some (GINT, "-"%char :: ds, rest)
      | None => '(ds, rest) ← m_digits s; Some (GINT, ds, rest)
      end
  | _ => '(ds, rest) ← m_digits s; Some (GINT, ds, rest)
  end.

(** [[A-Za-z_+\-*/<>=!?]] and [[A-Za-z0-9_+\-*/<>=!?]] *)
Definition sym_start (c : ascii) : bool :=
  isalpha_ascii c || char_in c "_+-*/<>=!?".

Definition sym_char (c : ascii) : bool :=
  isalpha_ascii c || isdigit c || char_in c "_+-*/<>=!?".

Definition m_sym (s : list ascii) : option re_match :=
  match s with
  | c :: r =>
      if sym_start c then Some (GSYM, c :: take_while sym_char r, drop_while sym_char r)
      else None
  | [] => None
  end.

(** The alternation of [_tok_re], in the order it is written. *)
Definition alternatives (s : list ascii) : option re_match :=
  first_of [m_comment s; m_lp s; m_rp s; m_str s; m_int s; m_sym s].

(** [_tok_re.match(src, i)] on the input from [i] on: [\s*] takes as much
    whitespace as it can and gives characters back when the alternation
    fails after it. *)
Fixpoint tok_re_match (s : list ascii) : option re_match :=
  match s with
  | c :: r =>
      if isspace c then
        match tok_re_match r with
        | Some m => Some m
        | None => alternatives s
        end
      else alternatives s
  | [] => alternatives []
  end.

(** [_unescape_string(s)]: [s] is the literal with its quotes. *)
Definition _unescape_string (s : list ascii) : result string :=
  let body := removelast (tail s) in
  t ← unicode_escape (utf8_encode body); Ok (str t).

(** The loop of [tokenize]: [i] is the position in [src], [s] the input
    from [i] on.  Every match takes at least one character, so [fuel]
    above the length of the input is never used up. *)
Fixpoint tokenize_loop (fuel : nat) (i : nat) (s : list ascii) (out : list token)
    : result (list token) :=
  match s with
  | [] => Ok (out ++ [EOF])
  | _ :: _ =>
      match fuel with
      | O => Raise Unmodelled
      | S fuel' =>
          match tok_re_match s with
          | None =>
              Raise (SyntaxError ("Unexpected character at " +:+ pretty i +:+ ": "
                                  +:+ repr_str (str (take 30 s))))
          | Some (kind, text, rest) =>
              let i' := (i + (List.length s - List.length rest))%nat in
              match kind with
              | COMMENT => tokenize_loop fuel' i' rest out
              | GLP => tokenize_loop fuel' i' rest (out ++ [LP])
              | GRP => tokenize_loop fuel' i' rest (out ++ [RP])
              | GSTR =>
                  v ← _unescape_string text;
                  tokenize_loop fuel' i' rest (out ++ [STR v])
              | GINT =>
                  n ← int_of_str (str text);
                  tokenize_loop fuel' i' rest (out ++ [INT n])
              | GSYM => tokenize_loop fuel' i' rest (out ++ [SYM (str text)])
              end
          end
      end
  end.

Definition tokenize (src : string) : result (list token) :=
  tokenize_loop (S (String.length src)) 0 (chars src) [].

(** *** Reader *)

(** The forms [parse_sexprs] builds: int, str, [Sym] and list. *)
Inductive form :=
  | FInt (n : Z)
  | FStr (s : string)
  | FSym (name : string)
  | FList (items : list form).

(** [f"{t}"] for a token, the [str] of a pair. *)
Definition token_str (t : token) : string :=
  match t with
  | LP => "('LP', '(')"
  | RP => "('RP', ')')"
  | STR s => "('STR', " +:+ repr_str s +:+ ")"
  | INT n => "('INT', " +:+ pretty n +:+ ")"
  | SYM s => "('SYM', " +:+ repr_str s +:+ ")"
  | EOF => "('EOF', None)"
  end.

(** [parse_one] on the tokens from position [k] on; it returns the form
    and the tokens left.  [parse_items] is its [while] loop, which
    collects forms up to the closing parenthesis.  [eat(tt)] always
    follows a test of the same kind, so its own check never fails.
    A call either takes a token or is followed by one that does, so
    [fuel] of twice the number of tokens is never used up. *)
Fixpoint parse_one (fuel : nat) (toks : list token) : result (form * list token) :=
  match toks with
  | [] => Raise IndexError
  | INT n :: rest => Ok (FInt n, rest)
  | STR s :: rest => Ok (FStr s, rest)
  | SYM s :: rest => Ok (FSym s, rest)
  | LP :: rest =>
      match fuel with
      | O => Raise Unmodelled
      | S fuel' => parse_items fuel' rest []
      end
  | t :: _ => Raise (SyntaxError ("Bad token: " +:+ token_str t))
  end
with parse_items (fuel : nat) (toks : list token) (lst : list form)
    : result (form * list token) :=
  match toks with
  | [] => Raise IndexError
  | RP :: rest => Ok (FList lst, rest)
  | EOF :: _ => Raise (SyntaxError "Unclosed '('")
  | _ :: _ =>
      match fuel with
      | O => Raise Unmodelled
      | S fuel' =>
          '(x, rest) ← parse_one fuel' toks;
          parse_items fuel' rest (lst ++ [x])
      end
  end.

(** The top-level loop of [parse_sexprs]. *)
Fixpoint parse_forms (fuel : nat) (toks : list token) (forms : list form)
    : result (list form) :=
  match toks with
  | [] => Raise IndexError
  | EOF :: _ => Ok forms
  | _ :: _ =>
      match fuel with
      | O => Raise Unmodelled
      | S fuel' =>
          '(x, rest) ← parse_one (2 * List.length toks) toks;
          parse_forms fuel' rest (forms ++ [x])
      end
  end.

Definition parse_sexprs (src : string) : result (list form) :=
  toks ← tokenize src;
  parse_forms (List.length toks) toks [].

(** *** Compiler *)

(** The instance attributes of class [C]. *)
Record C := mkC {
  bc : list string;
  label_id : nat;
  prim_set : gset string;
}.

(** [C()] *)
Definition C_init : C := {|
  bc := [];
  label_id := 0;
  prim_set := list_to_set
    ["read-all"; "parse-sexprs"; "emit"; "gensym";
     "str-cat"; "to-str";
     "sym"; "sym-name"; "sym-eq?";
     "int?"; "sym?"; "pair?"; "null?"; "str?"; "json-dumps";
     "car"; "cdr"; "error"];
|}.

Definition gensym (p : string) (c : C) : string * C :=
  let n := S (label_id c) in
  (p +:+ pretty n, {| bc := bc c; label_id := n; prim_set := prim_set c |}).

Definition emit (s : string) (c : C) : C :=
  {| bc := bc c ++ [s]; label_id := label_id c; prim_set := prim_set c |}.

(** [repr(x)] for a form; [Sym] has the [repr] of a dataclass. *)
Fixpoint form_repr (x : form) : string :=
  match x with
  | FInt n => pretty n
  | FStr s => repr_str s
  | FSym name => "Sym(name=" +:+ repr_str name +:+ ")"
  | FList items => "[" +:+ join ", " (form_repr <$> items) +:+ "]"
  end.

Definition symname (x : form) : result string :=
  match x with
  | FSym name => Ok name
  | _ => Raise (SyntaxError ("Expected symbol, got " +:+ form_repr x))
  end.

(** A [for] loop over forms whose body is [f]. *)
Definition for_each (f : form → C → result C) : list form → C → result C :=
  fix go (l : list form) (c : C) : result C :=
    match l with
    | [] => Ok c
    | a :: l' => c' ← f a c; go l' c'
    end.

(** [isinstance(op, Sym) and op.name == name] *)
Definition is_sym (op : form) (name : string) : bool :=
  match op with
  | FSym n => String.eqb n name
  | _ => false
  end.

(** The table of the built-in operators. *)
Definition arith_op (name : string) : option string :=
  if String.eqb name "+" then Some "ADD"
  else if String.eqb name "-" then Some "SUB"
  else if String.eqb name "*" then Some "MUL"
  else if String.eqb name "/" then Some "DIV"
  else if String.eqb name "<" then Some "LT"
  else if String.eqb name "==" then Some "EQ"
  else None.

(** Every special form of [compile_form] tests [isinstance(op, Sym)]
    before the name, and an operator that is not a [Sym] reaches the last
    [raise]; the case analysis on [op] is therefore done once, the tests
    on the name follow in the order of the source. *)
Fixpoint compile_form (x : form) (c : C) : result C :=
  match x with
  | FInt n => Ok (emit ("PUSH " +:+ pretty n) c)
  | FStr s => Ok (emit ("PUSHSTR " +:+ json_dumps_str s) c)
  | FSym name => Ok (emit ("LOAD " +:+ name) c)
  | FList [] => Ok (emit "PUSH 0" c)
  | FList (FSym opname :: args) =>
      if String.eqb opname "begin" then
        for_each compile_form args c
      else if String.eqb opname "if" then
        match args with
        | [cond; thn; els] =>
            let '(l_else, c) := gensym "ELSE" c in
            let '(l_end, c) := gensym "END" c in
            c ← compile_form cond c;
            let c := emit ("JZ " +:+ l_else) c in
            c ← compile_form thn c;
            let c := emit ("JMP " +:+ l_end) c in
            let c := emit ("LABEL " +:+ l_else) c in
            c ← compile_form els c;
            Ok (emit ("LABEL " +:+ l_end) c)
        | _ => Raise (SyntaxError "if: expected (if cond then else)")
        end
      else if String.eqb opname "let" || String.eqb opname "set" then
        match args with
        | [FSym name; e] =>
            c ← compile_form e c;
            Ok (emit ("STORE " +:+ name) c)
        | _ =>
            Raise (SyntaxError (opname +:+ ": expected (" +:+ opname +:+ " x expr)"))
        end
      else if String.eqb opname "while" then
        match args with
        | cond :: ((_ :: _) as body) =>
            let '(top, c) := gensym "TOP" c in
            let '(end_, c) := gensym "END" c in
            let c := emit ("LABEL " +:+ top) c in
            c ← compile_form cond c;
            let c := emit ("JZ " +:+ end_) c in
            c ← for_each compile_form body c;
            let c := emit ("JMP " +:+ top) c in
            let c := emit ("LABEL " +:+ end_) c in
            Ok (emit "PUSH 0" c)
        | _ => Raise (SyntaxError "while: expected (while cond body...)")
        end
      else
        match arith_op opname with
        | Some instr =>
            match args with
            | [a; b] =>
                c ← compile_form a c;
                c ← compile_form b c;
                Ok (emit instr c)
            | _ => Raise (SyntaxError (opname +:+ ": expected 2 args"))
            end
        | None =>
            if String.eqb opname "print" then
              match args with
              | [a] =>
                  c ← compile_form a c;
                  let c := emit "PRINT" c in
                  Ok (emit "PUSH 0" c)
              | _ => Raise (SyntaxError "print: expected 1 arg")
              end
            else
              c ← for_each compile_form args c;
              if bool_decide (opname ∈ prim_set c) then
                Ok (emit ("CALLPRIM " +:+ opname +:+ " " +:+ pretty (List.length args)) c)
              else
                Ok (emit ("CALL " +:+ opname +:+ " " +:+ pretty (List.length args)) c)
        end
  | FList (_ :: _) => Raise (SyntaxError "call: operator must be a symbol")
  end.

(** [[self.symname(p) for p in sig[1:]]] *)
Fixpoint symnames (l : list form) : result (list string) :=
  match l with
  | [] => Ok []
  | p :: l' => n ← symname p; ns ← symnames l'; Ok (n :: ns)
  end.

Definition compile_define (form : form) (c : C) : result C :=
  match form with
  | FList [_; sig; body] =>
      match sig with
      | FList (FSym fname :: ps) =>
          params ← symnames ps;
          let c := emit ("DEFUN " +:+ join " " (fname :: params)) c in
          c ← compile_form body c;
          Ok (emit "RET" c)
      | _ => Raise (SyntaxError "define: function form only, e.g. (define (f x) body)")
      end
  | _ => Raise (SyntaxError "define: expected (define (f args..) body)")
  end.

(** The test that sorts the top-level forms into [defines] and [rest]. *)
Definition is_define (f : form) : bool :=
  match f with
  | FList (op :: _) => is_sym op "define"
  | _ => false
  end.

Definition compile_program (forms : list form) (c : C) : result (string * C) :=
  let start := "__START__" in
  let c := emit ("JMP " +:+ start) c in
  let defines := List.filter is_define forms in
  let rest := List.filter (λ f, negb (is_define f)) forms in
  c ← for_each compile_define defines c;
  let c := emit ("LABEL " +:+ start) c in
  c ← for_each compile_form rest c;
  let c := emit "PUSH 0" c in
  let c := emit "RET" c in
  Ok (join nl (bc c), c).

(** [main]: the text written to stdout for the source read from stdin. *)
Definition main (src : string) : result string :=
  forms ← parse_sexprs src;
  '(text, _) ← compile_program forms C_init;
  Ok (text +:+ nl).

(** [main] started from a compiler instance [c] in place of [C()]. *)
Definition main_from (c : C) (src : string) : result string :=
  forms ← parse_sexprs src;
  '(text, _) ← compile_program forms c;
  Ok (text +:+ nl).

(** *** Reading the emitted lines *)

(** The text after the prefix [p] of [s], when [s] starts with [p]. *)
Fixpoint strip_prefix (p s : string) : option string :=
  match p, s with
  | EmptyString, _ => Some s
  | String a p', String b s' => if Ascii.eqb a b then strip_prefix p' s' else None
  | String _ _, EmptyString => None
  end.

(** The names of the [LABEL] lines, and the targets of the [JMP] and
    [JZ] lines, in the order of the lines. *)
Definition label_of (line : string) : option string := strip_prefix "LABEL " line.

Definition target_of (line : string) : option string :=
  match strip_prefix "JMP " line with
  | Some t => Some t
  | None => strip_prefix "JZ " line
  end.

Definition label_names (lines : list string) : list string := omap label_of lines.
Definition jump_targets (lines : list string) : list string := omap target_of lines.

(** The operator names that [compile_form] lowers itself. *)
Definition special_form (name : string) : bool :=
  bool_decide (name ∈ ["begin"; "if"; "let"; "set"; "while";
                       "+"; "-"; "*"; "/"; "<"; "=="; "print"]).

(** The prefixes given to [gensym]. *)
Definition label_prefix (p : string) : Prop := p = "ELSE" ∨ p = "END" ∨ p = "TOP".

(** Every name of [names] was made by [gensym] with a counter value in
    [I]. *)
Definition names_in (I : nat → Prop) (names : list string) : Prop :=
  ∀ name, name ∈ names → ∃ p k, label_prefix p ∧ name = p +:+ pretty k ∧ I k.

(** The [LABEL] lines of [lines] have pairwise different names, made by
    [gensym] with counter values in [I]. *)
Definition fresh_labels (I : nat → Prop) (lines : list string) : Prop :=
  NoDup (label_names lines) ∧ names_in I (label_names lines).

(** Every [JMP] and [JZ] of [lines] goes to a [LABEL] of [lines]. *)
Definition jumps_closed (lines : list string) : Prop :=
  ∀ t, t ∈ jump_targets lines → t ∈ label_names lines.

(** A line that is neither a [LABEL] nor a jump. *)
Definition plain (line : string) : Prop :=
  label_of line = None ∧ target_of line = None.

(** From [c] to [c'] the compiler appended the lines [seg] and kept its
    primitive set. *)
Record emits (c c' : C) (seg : list string) : Prop := {
  emits_prims : prim_set c' = prim_set c;
  emits_bc : bc c' = bc c ++ seg;
}.

(** What a successful compilation step from [c] to [c'] guarantees: the
    labels of the appended lines are fresh, with counter values above
    that of [c] and up to that of [c'], and the jumps of the appended
    lines stay among them. *)
Definition compiles (c c' : C) : Prop :=
  (label_id c ≤ label_id c')%nat ∧
  ∃ seg, emits c c' seg ∧
         fresh_labels (λ k, label_id c < k ≤ label_id c')%nat seg ∧
         jumps_closed seg.

(** *** Forms as tokens *)

(** The tokens of a form, in the order of its text: an atom is one
    token, a list is its items between parentheses. *)
Fixpoint form_tokens (x : form) : list token :=
  match x with
  | FInt n => [INT n]
  | FStr s => [STR s]
  | FSym name => [SYM name]
  | FList items => LP :: mjoin (form_tokens <$> items) ++ [RP]
  end.

(** The reader takes the tokens of a form back to the form. *)
Definition reads_back (x : form) : Prop :=
  ∀ fuel rest,
    (2 * List.length (form_tokens x ++ rest) ≤ fuel)%nat →
    parse_one fuel (form_tokens x ++ rest) = Ok (x, rest).


(** *** The escapes of [json.dumps] under the STR group *)

(** A character that one round of the STR group takes by itself. *)
Definition plain_char (c : ascii) : bool :=
  negb (bool_decide (c = dquote)) && negb (bool_decide (c = backslash)).

(** What [json.dumps] writes for a character has one of three shapes:
    the character itself, a backslash and a letter, or a backslash, [u]
    and four hexadecimal digits. *)
Definition json_char_shape (c : ascii) : bool :=
  match json_char c with
  | [x] => plain_char x
  | [b; d] => bool_decide (b = backslash) && not_newline d
  | [b; u; z1; z2; h1; h2] =>
      bool_decide (b = backslash) && not_newline u && plain_char z1 && plain_char z2
      && plain_char h1 && plain_char h2
  | _ => false
  end.

End TinyLisp.

(** ** vm.py: bytecode loader and stack machine *)

Module VM.
Import Py.

(** *** The reader of vm.py

    [tokenize_sexpr] and [parse_sexprs] of vm.py have the text of
    [tokenize] and [parse_sexprs] of tinylisp_v0.py; the forms they build
    are values of the machine. *)

Definition tokenize_sexpr : string → result (list TinyLisp.token) :=
  TinyLisp.tokenize.

Fixpoint value_of_form (x : TinyLisp.form) : value :=
  match x with
  | TinyLisp.FInt n => VInt n
  | TinyLisp.FStr s => VStr s
  | TinyLisp.FSym name => VSym (VStr name)
  | TinyLisp.FList items => VList (value_of_form <$> items)
  end.

Definition parse_sexprs (src : string) : result value :=
  forms ← TinyLisp.parse_sexprs src;
  Ok (VList (value_of_form <$> forms)).

(** *** Load phase *)

(** The line boundaries of [str.splitlines] below code point 256. *)
Definition is_linebreak (c : ascii) : bool :=
  in_range 10 13 c || in_range 28 30 c || (code c =? 133)%N.

(** [s.splitlines()]: [cur] is the line being read, last character
    first; a carriage return and the newline after it are one boundary. *)
Fixpoint splitlines_go (cur : list ascii) (l : list ascii) : list (list ascii) :=
  match l with
  | [] => match cur with [] => [] | _ :: _ => [reverse cur] end
  | c :: r =>
      if (code c =? 13)%N then
        match r with
        | d :: r' =>
            if (code d =? 10)%N then reverse cur :: splitlines_go [] r'
            else reverse cur :: splitlines_go [] r
        | [] => reverse cur :: splitlines_go [] r
        end
      else if is_linebreak c then reverse cur :: splitlines_go [] r
      else splitlines_go (c :: cur) r
  end.

Definition splitlines (s : string) : list (list ascii) :=
  splitlines_go [] (chars s).

(** [line.split()]: the maximal runs of characters that are not
    whitespace. *)
Fixpoint split_go (cur : list ascii) (l : list ascii) : list string :=
  match l with
  | [] => match cur with [] => [] | _ :: _ => [str (reverse cur)] end
  | c :: r =>
      if isspace c then
        match cur with
        | [] => split_go [] r
        | _ :: _ => str (reverse cur) :: split_go [] r
        end
      else split_go (c :: cur) r
  end.

Definition split (l : list ascii) : list string := split_go [] l.

(** One line of bytecode text: [None] for a blank line or a comment. *)
Definition decode_line (raw : list ascii) : option (list string) :=
  let line := strip_chars raw in
  match line with
  | [] => None
  | c :: _ =>
      if bool_decide (c = "#"%char) then None
      else if String.prefix "PUSHSTR " (str line) then
        Some ["PUSHSTR"; str (drop 8 line)]
      else Some (split line)
  end.

Definition load_prog (bytecode_text : string) : list (list string) :=
  omap decode_line (splitlines bytecode_text).

(** [inst[k]] *)
Definition operand (inst : list string) (k : nat) : result string :=
  match inst !! k with
  | Some s => Ok s
  | None => Raise IndexError
  end.

(** The label map: a later [LABEL] of the same name replaces an earlier
    one. *)
Fixpoint load_labels (i : nat) (prog : list (list string)) (labels : gmap string nat)
    : result (gmap string nat) :=
  match prog with
  | [] => Ok labels
  | inst :: prog' =>
      op ← operand inst 0;
      if String.eqb op "LABEL" then
        name ← operand inst 1;
        load_labels (S i) prog' (<[name := i]> labels)
      else load_labels (S i) prog' labels
  end.

(** The function tables: entry points and parameter names. *)
Fixpoint load_functions (i : nat) (prog : list (list string))
    (fun_entry : gmap string nat) (fun_params : gmap string (list string))
    : result (gmap string nat * gmap string (list string)) :=
  match prog with
  | [] => Ok (fun_entry, fun_params)
  | inst :: prog' =>
      op ← operand inst 0;
      if String.eqb op "DEFUN" then
        name ← operand inst 1;
        load_functions (S i) prog' (<[name := S i]> fun_entry)
                       (<[name := drop 2 inst]> fun_params)
      else load_functions (S i) prog' fun_entry fun_params
  end.

(** What the load phase leaves for the execution loop. *)
Record program := mkProgram {
  prog : list (list string);
  labels : gmap string nat;
  fun_entry : gmap string nat;
  fun_params : gmap string (list string);
  stdin_text : string;
}.

Definition load (bytecode_text stdin_text : string) : result program :=
  let prog := load_prog bytecode_text in
  labels ← load_labels 0 prog ∅;
  '(fun_entry, fun_params) ← load_functions 0 prog ∅ ∅;
  Ok (mkProgram prog labels fun_entry fun_params stdin_text).

(** *** Runtime state *)

(** A frame is a dict from names to values.  The dicts live in [heap],
    in the order of their creation, and [frames] holds their indices:
    [globals_env] is the first dict created and [frames] starts as
    [[globals_env]].  The lists [stack], [frames] and [callstack] are in
    the order of the Python lists, the top at the end.  [stdout] is the
    text written by [print]. *)
Record state := mkState {
  stack : list value;
  heap : list (gmap string value);
  frames : list nat;
  callstack : list nat;
  ip : nat;
  out_lines : list value;
  gensym_id : nat;
  stdout : string;
}.

Definition globals_env : nat := 0%nat.

Definition init : state := {|
  stack := [];
  heap := [∅];
  frames := [globals_env];
  callstack := [];
  ip := 0;
  out_lines := [];
  gensym_id := 0;
  stdout := EmptyString;
|}.

(** The dict behind a reference.  Every reference held in [frames] is
    the index of a dict of [heap] ([frames_ok] below). *)
Definition deref (h : list (gmap string value)) (r : nat) : gmap string value :=
  default ∅ (h !! r).

(** [l.pop()] and [l[-1]] *)
Definition pop {A} (l : list A) : result (A * list A) :=
  match reverse l with
  | [] => Raise IndexError
  | x :: r => Ok (x, reverse r)
  end.

Definition top {A} (l : list A) : result A :=
  match last l with
  | Some x => Ok x
  | None => Raise IndexError
  end.

(** [[stack.pop() for _ in range(argc)][::-1]]: the values in the order
    they were pushed, and the stack below them. *)
Definition pop_args (argc : Z) (stack : list value) : result (list value * list value) :=
  let n := Z.to_nat argc in
  if bool_decide (n ≤ List.length stack)%nat then
    Ok (drop (List.length stack - n) stack, take (List.length stack - n) stack)
  else Raise IndexError.

Definition set_stack (s : list value) (st : state) : state :=
  mkState s (heap st) (frames st) (callstack st) (ip st)
          (out_lines st) (gensym_id st) (stdout st).

Definition set_ip (i : nat) (st : state) : state :=
  mkState (stack st) (heap st) (frames st) (callstack st) i
          (out_lines st) (gensym_id st) (stdout st).

Definition push (v : value) (st : state) : state :=
  set_stack (stack st ++ [v]) st.

Definition pop_stack (st : state) : result (value * state) :=
  '(v, s) ← pop (stack st); Ok (v, set_stack s st).

Definition load_var (name : string) (st : state) : result value :=
  cur ← top (frames st);
  match deref (heap st) cur !! name with
  | Some v => Ok v
  | None =>
      match deref (heap st) globals_env !! name with
      | Some v => Ok v
      | None => Ok (VInt 0)
      end
  end.

Definition store_var (name : string) (val : value) (st : state) : result state :=
  cur ← top (frames st);
  Ok (mkState (stack st) (<[cur := <[name := val]> (deref (heap st) cur)]> (heap st))
              (frames st) (callstack st) (ip st)
              (out_lines st) (gensym_id st) (stdout st)).

(** *** Primitives *)

(** The keys of the dict [PRIMS]. *)
Inductive prim :=
  | prim_read_all | prim_parse_sexprs | prim_emit | prim_gensym
  | prim_str_cat | prim_to_str | prim_sym | prim_sym_name | prim_sym_eq
  | prim_intp | prim_symp | prim_pairp | prim_nullp | prim_strp
  | prim_json_dumps | prim_car | prim_cdr | prim_error.

Definition PRIMS : list (string * prim) :=
  [("read-all", prim_read_all);
   ("parse-sexprs", prim_parse_sexprs);
   ("emit", prim_emit);
   ("gensym", prim_gensym);
   ("str-cat", prim_str_cat);
   ("to-str", prim_to_str);
   ("sym", prim_sym);
   ("sym-name", prim_sym_name);
   ("sym-eq?", prim_sym_eq);
   ("int?", prim_intp);
   ("sym?", prim_symp);
   ("pair?", prim_pairp);
   ("null?", prim_nullp);
   ("str?", prim_strp);
   ("json-dumps", prim_json_dumps);
   ("car", prim_car);
   ("cdr", prim_cdr);
   ("error", prim_error)].

(** [PRIMS[pname]], [None] when [pname not in PRIMS]. *)
Fixpoint assoc {A} (k : string) (l : list (string * A)) : option A :=
  match l with
  | [] => None
  | (k', v) :: l' => if String.eqb k k' then Some v else assoc k l'
  end.

Definition bool_int (b : bool) : value := VInt (if b then 1 else 0).

(** The argument of [parse_sexprs] when it is not a str: [len] accepts a
    list, and the loop of the tokenizer is not entered for the empty one;
    the regular expression rejects a list, and [len] an int or a [Sym]. *)
Definition prim_parse (s : value) : result value :=
  match s with
  | VStr src => parse_sexprs src
  | VList [] => Ok (VList [])
  | _ => Raise TypeError
  end.

(** [x[0]] and [x[1:]] *)
Definition py_first (x : value) : result value :=
  match x with
  | VList (v :: _) => Ok v
  | VStr (String c _) => Ok (VStr (String c EmptyString))
  | VList [] | VStr EmptyString => Raise IndexError
  | _ => Raise TypeError
  end.

Definition py_rest (x : value) : result value :=
  match x with
  | VList l => Ok (VList (tail l))
  | VStr (String _ s) => Ok (VStr s)
  | VStr EmptyString => Ok (VStr EmptyString)
  | _ => Raise TypeError
  end.

Definition is_int (x : value) : bool := match x with VInt _ => true | _ => false end.
Definition is_str (x : value) : bool := match x with VStr _ => true | _ => false end.
Definition is_Sym (x : value) : bool := match x with VSym _ => true | _ => false end.

(** The call of [PRIMS[pname]] on the unpacked [args]: a call with the
    wrong number of arguments is a [TypeError]. *)
Definition call_prim (P : program) (f : prim) (args : list value) (st : state)
    : result (value * state) :=
  match f, args with
  | prim_read_all, [] => Ok (VStr (stdin_text P), st)
  | prim_parse_sexprs, [s] => v ← prim_parse s; Ok (v, st)
  | prim_emit, [line] =>
      Ok (VInt 0,
          mkState (stack st) (heap st) (frames st) (callstack st) (ip st)
                  (out_lines st ++ [line]) (gensym_id st) (stdout st))
  | prim_gensym, [prefix] =>
      let n := S (gensym_id st) in
      Ok (VStr (py_str prefix +:+ pretty n),
          mkState (stack st) (heap st) (frames st) (callstack st) (ip st)
                  (out_lines st) n (stdout st))
  | prim_str_cat, [a; b] => v ← py_add a b; Ok (v, st)
  | prim_to_str, [x] => Ok (VStr (py_str x), st)
  | prim_sym, [s] => Ok (VSym s, st)
  | prim_sym_name, [x] =>
      match x with
      | VSym name => Ok (name, st)
      | _ => Raise AttributeError
      end
  | prim_sym_eq, [a; b] =>
      match a, b with
      | VSym m, VSym n => Ok (bool_int (py_eq m n), st)
      | _, _ => Ok (VInt 0, st)
      end
  | prim_intp, [x] => Ok (bool_int (is_int x), st)
  | prim_symp, [x] => Ok (bool_int (is_Sym x), st)
  | prim_pairp, [x] =>
      Ok (bool_int (match x with VList (_ :: _) => true | _ => false end), st)
  | prim_nullp, [x] => Ok (bool_int (py_eq x (VList [])), st)
  | prim_strp, [x] => Ok (bool_int (is_str x), st)
  | prim_json_dumps, [s] => t ← json_dumps s; Ok (VStr t, st)
  | prim_car, [x] => v ← py_first x; Ok (v, st)
  | prim_cdr, [x] => v ← py_rest x; Ok (v, st)
  | prim_error, [msg] => Raise (RuntimeError (py_str msg))
  | _, _ => Raise TypeError
  end.

(** *** Execution loop *)

(** How one round of the [while] loop ends: at its end or at a
    [continue] ([Next]), or at the [break] of [RET]. *)
Inductive outcome :=
  | Next (st : state)
  | Break (st : state).

(** [ip += 1] at the end of a round. *)
Definition advance (st : state) : outcome := Next (set_ip (S (ip st)) st).

(** [b, a = stack.pop(), stack.pop()], then [stack.append(f(a, b))]. *)
Definition binop (f : value → value → result value) (st : state) : result outcome :=
  '(b, st) ← pop_stack st;
  '(a, st) ← pop_stack st;
  v ← f a b;
  Ok (advance (push v st)).

(** [labels[name]] *)
Definition label_index (P : program) (name : string) : result nat :=
  match labels P !! name with
  | Some i => Ok i
  | None => Raise (KeyError name)
  end.

(** [for p, v in zip(params, args): new_frame[p] = v] *)
Fixpoint bind_params (params : list string) (args : list value)
    (frame : gmap string value) : gmap string value :=
  match params, args with
  | p :: params', v :: args' => bind_params params' args' (<[p := v]> frame)
  | _, _ => frame
  end.

(** [f"{inst}"] for an instruction, a list of str. *)
Definition inst_str (inst : list string) : string :=
  py_str (VList (VStr <$> inst)).

(** One round of the loop on the instruction [inst = prog[ip]]. *)
Definition exec (P : program) (inst : list string) (st : state) : result outcome :=
  op ← operand inst 0;
  if String.eqb op "PUSH" then
    a ← operand inst 1;
    n ← int_of_str a;
    Ok (advance (push (VInt n) st))
  else if String.eqb op "PUSHSTR" then
    a ← operand inst 1;
    v ← json_loads a;
    Ok (advance (push v st))
  else if String.eqb op "LOAD" then
    a ← operand inst 1;
    v ← load_var a st;
    Ok (advance (push v st))
  else if String.eqb op "STORE" then
    a ← operand inst 1;
    '(v, st) ← pop_stack st;
    st ← store_var a v st;
    Ok (advance st)
  else if String.eqb op "ADD" then binop py_add st
  else if String.eqb op "SUB" then binop py_sub st
  else if String.eqb op "MUL" then binop py_mul st
  else if String.eqb op "DIV" then binop py_floordiv st
  else if String.eqb op "LT" then
    binop (λ a b, lt ← py_lt a b; Ok (bool_int lt)) st
  else if String.eqb op "EQ" then
    binop (λ a b, Ok (bool_int (py_eq a b))) st
  else if String.eqb op "PRINT" then
    '(val, st) ← pop_stack st;
    Ok (advance (mkState (stack st) (heap st) (frames st) (callstack st) (ip st)
                         (out_lines st) (gensym_id st)
                         (stdout st +:+ py_str val +:+ nl)))
  else if String.eqb op "LABEL" then Ok (advance st)
  else if String.eqb op "JMP" then
    a ← operand inst 1;
    i ← label_index P a;
    Ok (Next (set_ip i st))
  else if String.eqb op "JZ" then
    '(cond, st) ← pop_stack st;
    if py_eq cond (VInt 0) then
      a ← operand inst 1;
      i ← label_index P a;
      Ok (Next (set_ip i st))
    else Ok (advance st)
  else if String.eqb op "DEFUN" then Ok (advance st)
  else if String.eqb op "CALL" then
    fname ← operand inst 1;
    a ← operand inst 2;
    argc ← int_of_str a;
    match fun_entry P !! fname with
    | None => Raise (RuntimeError ("CALL unknown function: " +:+ fname))
    | Some entry =>
        let params := default [] (fun_params P !! fname) in
        if negb (bool_decide (Z.of_nat (List.length params) = argc)) then
          Raise (RuntimeError ("CALL arity mismatch for " +:+ fname +:+ ": expected "
                               +:+ pretty (List.length params) +:+ " got " +:+ pretty argc))
        else
          '(args, rest) ← pop_args argc (stack st);
          let new_frame := bind_params params args ∅ in
          Ok (Next (mkState rest (heap st ++ [new_frame])
                            (frames st ++ [List.length (heap st)])
                            (callstack st ++ [S (ip st)]) entry
                            (out_lines st) (gensym_id st) (stdout st)))
    end
  else if String.eqb op "RET" then
    if bool_decide (List.length (frames st) = 1%nat) then Ok (Break st)
    else
      '(_, frames') ← pop (frames st);
      '(i, callstack') ← pop (callstack st);
      Ok (Next (mkState (stack st) (heap st) frames' callstack' i
                        (out_lines st) (gensym_id st) (stdout st)))
  else if String.eqb op "CALLPRIM" then
    pname ← operand inst 1;
    a ← operand inst 2;
    argc ← int_of_str a;
    match assoc pname PRIMS with
    | None => Raise (RuntimeError ("Unknown primitive: " +:+ pname))
    | Some f =>
        '(args, rest) ← pop_args argc (stack st);
        '(res, st) ← call_prim P f args (set_stack rest st);
        Ok (advance (push res st))
    end
  else Raise (RuntimeError ("Unknown instruction: " +:+ inst_str inst)).

(** The [while ip < len(prog)] loop: [None] when [fuel] rounds were not
    enough, otherwise the state in which the loop was left, or the
    exception that ended it. *)
Fixpoint run_loop (P : program) (fuel : nat) (st : state) : option (result state) :=
  match prog P !! ip st with
  | None => Some (Ok st)
  | Some inst =>
      match fuel with
      | O => None
      | S fuel' =>
          match exec P inst st with
          | Ok (Next st') => run_loop P fuel' st'
          | Ok (Break st') => Some (Ok st')
          | Raise e => Some (Raise e)
          end
      end
  end.

(** [sep.join(l)] for a list of objects: every item must be a str. *)
Fixpoint str_items (l : list value) : result (list string) :=
  match l with
  | [] => Ok []
  | VStr s :: l' => ss ← str_items l'; Ok (s :: ss)
  | _ :: _ => Raise TypeError
  end.

Definition join_values (sep : string) (l : list value) : result string :=
  ss ← str_items l; Ok (join sep ss).

(** The [return] of [run] in the state in which the loop was left: the
    text written to stdout and the value returned. *)
Definition finish (st : state) : result (string * string) :=
  emitted ← join_values nl (out_lines st);
  Ok (stdout st, emitted).

(** [run(bytecode_text, stdin_text)] *)
Definition run (fuel : nat) (bytecode_text stdin_text : string)
    : option (result (string * string)) :=
  match load bytecode_text stdin_text with
  | Raise e => Some (Raise e)
  | Ok P =>
      match run_loop P fuel init with
      | None => None
      | Some (Raise e) => Some (Raise e)
      | Some (Ok st) => Some (finish st)
      end
  end.

(** The states of a run: [init] and what the rounds of the loop make of
    it. *)
Inductive reachable (P : program) : state → Prop :=
  | reachable_init : reachable P init
  | reachable_round st inst st' :
      reachable P st →
      prog P !! ip st = Some inst →
      exec P inst st = Ok (Next st') →
      reachable P st'.

(** [s.endswith(nl)] *)
Definition ends_with_newline (s : string) : bool :=
  match last (chars s) with
  | Some c => bool_decide (c = newline)
  | None => false
  end.

(** [main] with the bytecode read from a file and [stdin_text] from
    stdin: everything written to stdout. *)
Definition main (fuel : nat) (bytecode_text stdin_text : string)
    : option (result string) :=
  match run fuel bytecode_text stdin_text with
  | None => None
  | Some (Raise e) => Some (Raise e)
  | Some (Ok (printed, emitted)) =>
      Some (Ok (if bool_decide (emitted = EmptyString) then printed
                else if ends_with_newline emitted then printed +:+ emitted
                else printed +:+ emitted +:+ nl))
  end.

(** The representation invariant of the frame stack: the first frame is
    the dict of the globals, each frame is a dict of its own, and there
    is one return address for each frame above the first. *)
Record frames_ok (st : state) : Prop := {
  frames_bottom : frames st !! 0%nat = Some globals_env;
  frames_callstack : List.length (frames st) = S (List.length (callstack st));
  frames_nodup : NoDup (frames st);
  frames_alloc : Forall (λ r, r < List.length (heap st))%nat (frames st);
}.

(** The dict of the current frame and the dict of the globals. *)
Definition current_frame (st : state) : gmap string value :=
  match last (frames st) with
  | Some cur => deref (heap st) cur
  | None => ∅
  end.

Definition global_frame (st : state) : gmap string value :=
  deref (heap st) globals_env.

(** *** Reading the tables of the load phase *)

(** The instruction [inst] is [op name ...]. *)
Definition is_inst (op name : string) (inst : list string) : Prop :=
  inst !! 0%nat = Some op ∧ inst !! 1%nat = Some name.

(** No instruction of [prog] is [op name ...]. *)
Definition no_inst (op name : string) (prog : list (list string)) : Prop :=
  ∀ k inst, prog !! k = Some inst → ¬ is_inst op name inst.

(** The instruction at index [j] of [prog] is the last [op name ...]. *)
Definition last_inst (op name : string) (prog : list (list string)) (j : nat) : Prop :=
  (∃ inst, prog !! j = Some inst ∧ is_inst op name inst) ∧
  ∀ k inst, (j < k)%nat → prog !! k = Some inst → ¬ is_inst op name inst.

(** A table built from index [i] on over the table [m]: a name is bound
    to the index of its last instruction [op name ...], and as in [m]
    when there is none. *)
Definition table_spec (op : string) (i : nat) (prog : list (list string))
    (m table : gmap string nat) : Prop :=
  ∀ name j,
    table !! name = Some j ↔
    (∃ k, j = (i + k)%nat ∧ last_inst op name prog k) ∨
    (m !! name = Some j ∧ no_inst op name prog).

(** *** What the loop keeps *)

(** Text that is empty or ends with a newline. *)
Definition whole_lines (t : string) : Prop :=
  t = EmptyString ∨ ends_with_newline t = true.

(** From the head of one round to the head of the next: no dict is
    dropped, only the dict of the current frame is written, what was
    emitted stays and what is printed is whole lines after what was
    printed before, and the counter of [gensym] does not go down. *)
Record round_keeps (st st' : state) : Prop := {
  keeps_heap_length : (List.length (heap st) ≤ List.length (heap st'))%nat;
  keeps_other_frames :
    ∀ r, (r < List.length (heap st))%nat → last (frames st) ≠ Some r →
         heap st' !! r = heap st !! r;
  keeps_out_lines : out_lines st `prefix_of` out_lines st';
  keeps_stdout : ∃ t, stdout st' = stdout st +:+ t ∧ whole_lines t;
  keeps_gensym_id : (gensym_id st ≤ gensym_id st')%nat;
}.

(** Over any number of rounds. *)
Record run_keeps (st st' : state) : Prop := {
  run_heap_length : (List.length (heap st) ≤ List.length (heap st'))%nat;
  run_out_lines : out_lines st `prefix_of` out_lines st';
  run_stdout : ∃ t, stdout st' = stdout st +:+ t ∧ whole_lines t;
  run_gensym_id : (gensym_id st ≤ gensym_id st')%nat;
}.

End VM.

(** ** Programs and states used in the statements below *)

Module Scenario.
Import Py.

(** The first end-to-end scenario. *)
Definition print_sum_src : string := "(print (+ 1 2))".

(** The other end-to-end scenarios: a loop, two recursive functions and
    a conditional. *)
Definition count_src : string :=
  "(let x 10) (let y 0) (while (< y x) (begin (print y) (let y (+ y 1))))".

Definition fact_src : string :=
  "(define (fact n) (if (== n 0) 1 (* n (fact (- n 1))))) (print (fact 5))".

Definition fib_src : string :=
  "(define (fib n) (if (< n 2) n (+ (fib (- n 1)) (fib (- n 2))))) (print (fib 10))".

Definition if_print_src : string := "(if (== 1 1) (print 42) (print 0))".

(** Compile [src] and run the bytecode with nothing on stdin. *)
Definition compile_and_run (fuel : nat) (src : string) : option (result string) :=
  match TinyLisp.main src with
  | Ok bytecode => VM.main fuel bytecode EmptyString
  | Raise e => Some (Raise e)
  end.

(** A top-level [let], and a function whose body writes the same name. *)
Definition scoping_src : string := "(let x 1) (define (f) (let x 2)) (f)".

(** A program without [RET] whose only effect is to emit an int. *)
Definition emit_int_bytecode : string :=
  "PUSH 1" +:+ nl +:+ "CALLPRIM emit 1".

(** A source that ends with a newline, as a text file does. *)
Definition newline_terminated_src : string := "(print (+ 1 2))" +:+ nl.

(** A loaded program that calls a function which stores into [x]. *)
Definition store_in_call : VM.program := {|
  VM.prog := [["PUSH"; "2"]; ["CALL"; "f"; "0"]; ["DEFUN"; "f"]; ["STORE"; "x"]];
  VM.labels := ∅;
  VM.fun_entry := {["f" := 3%nat]};
  VM.fun_params := {["f" := []]};
  VM.stdin_text := EmptyString;
|}.

(** Its state after the [PUSH]. *)
Definition store_in_call_pushed : VM.state := {|
  VM.stack := [VInt 2];
  VM.heap := [∅];
  VM.frames := [0%nat];
  VM.callstack := [];
  VM.ip := 1;
  VM.out_lines := [];
  VM.gensym_id := 0;
  VM.stdout := EmptyString;
|}.

(** Its state on entry to [f]. *)
Definition store_in_call_entered : VM.state := {|
  VM.stack := [VInt 2];
  VM.heap := [∅; ∅];
  VM.frames := [0%nat; 1%nat];
  VM.callstack := [2%nat];
  VM.ip := 3;
  VM.out_lines := [];
  VM.gensym_id := 0;
  VM.stdout := EmptyString;
|}.

(** Its state after the [STORE]. *)
Definition store_in_call_stored : VM.state := {|
  VM.stack := [];
  VM.heap := [∅; {["x" := VInt 2]}];
  VM.frames := [0%nat; 1%nat];
  VM.callstack := [2%nat];
  VM.ip := 4;
  VM.out_lines := [];
  VM.gensym_id := 0;
  VM.stdout := EmptyString;
|}.

(** A loaded program that calls a function it does not define, and one
    that calls a primitive that does not exist. *)
Definition calls_unknown : VM.program := {|
  VM.prog := [["PUSH"; "1"]; ["CALL"; "foo"; "1"]];
  VM.labels := ∅;
  VM.fun_entry := ∅;
  VM.fun_params := ∅;
  VM.stdin_text := EmptyString;
|}.

Definition calls_unknown_prim : VM.program := {|
  VM.prog := [["PUSH"; "1"]; ["CALLPRIM"; "cons"; "1"]];
  VM.labels := ∅;
  VM.fun_entry := ∅;
  VM.fun_params := ∅;
  VM.stdin_text := EmptyString;
|}.

Definition calls_unknown_pushed : VM.state := {|
  VM.stack := [VInt 1];
  VM.heap := [∅];
  VM.frames := [0%nat];
  VM.callstack := [];
  VM.ip := 1;
  VM.out_lines := [];
  VM.gensym_id := 0;
  VM.stdout := EmptyString;
|}.

(** A compiler instance that has already handed out five labels. *)
Definition used_compiler : TinyLisp.C := {|
  TinyLisp.bc := [];
  TinyLisp.label_id := 5;
  TinyLisp.prim_set := TinyLisp.prim_set TinyLisp.C_init;
|}.

Definition if_src : string := "(if 1 2 3)".

(** What the compiler makes of it. *)
Definition if_forms : list TinyLisp.form :=
  [TinyLisp.FList [TinyLisp.FSym "if"; TinyLisp.FInt 1; TinyLisp.FInt 2; TinyLisp.FInt 3]].

Definition if_compiled : TinyLisp.C := {|
  TinyLisp.bc :=
    ["JMP __START__"; "LABEL __START__"; "PUSH 1"; "JZ ELSE1"; "PUSH 2";
     "JMP END2"; "LABEL ELSE1"; "PUSH 3"; "LABEL END2"; "PUSH 0"; "RET"];
  TinyLisp.label_id := 2;
  TinyLisp.prim_set := TinyLisp.prim_set TinyLisp.C_init;
|}.

(** A call of a function that no [define] introduces. *)
Definition unknown_call_form : TinyLisp.form :=
  TinyLisp.FList [TinyLisp.FSym "foo"; TinyLisp.FInt 1].

(** A [begin] without subforms where a value is needed. *)
Definition print_empty_begin_src : string := "(print (begin))".

(** A comment that runs to the end of the input. *)
Definition comment_at_eof_src : string := "(f 1) ; done".

(** A program that is a single [RET], and the empty program. *)
Definition only_ret : VM.program := {|
  VM.prog := [["RET"]];
  VM.labels := ∅;
  VM.fun_entry := ∅;
  VM.fun_params := ∅;
  VM.stdin_text := EmptyString;
|}.

Definition no_code : VM.program := {|
  VM.prog := [];
  VM.labels := ∅;
  VM.fun_entry := ∅;
  VM.fun_params := ∅;
  VM.stdin_text := EmptyString;
|}.

(** A bytecode text with a label that is defined twice and a function,
    and what the load phase makes of it. *)
Definition tables_bytecode : string :=
  "LABEL a" +:+ nl +:+ "DEFUN f x y" +:+ nl +:+ "LABEL a" +:+ nl +:+ "RET".

Definition tables_loaded : VM.program := {|
  VM.prog := [["LABEL"; "a"]; ["DEFUN"; "f"; "x"; "y"]; ["LABEL"; "a"]; ["RET"]];
  VM.labels := {["a" := 2%nat]};
  VM.fun_entry := {["f" := 2%nat]};
  VM.fun_params := {["f" := ["x"; "y"]]};
  VM.stdin_text := EmptyString;
|}.

(** A loaded program that calls a function of two parameters, and its
    state when the two arguments are on the stack. *)
Definition call_two : VM.program := {|
  VM.prog := [["PUSH"; "1"]; ["PUSH"; "2"]; ["CALL"; "f"; "2"];
              ["DEFUN"; "f"; "x"; "y"]; ["RET"]];
  VM.labels := ∅;
  VM.fun_entry := {["f" := 4%nat]};
  VM.fun_params := {["f" := ["x"; "y"]]};
  VM.stdin_text := EmptyString;
|}.

Definition call_two_pushed : VM.state := {|
  VM.stack := [VInt 1; VInt 2];
  VM.heap := [∅];
  VM.frames := [0%nat];
  VM.callstack := [];
  VM.ip := 2;
  VM.out_lines := [];
  VM.gensym_id := 0;
  VM.stdout := EmptyString;
|}.

(** A program without [RET] that emits one line. *)
Definition emit_line_bytecode : string :=
  "PUSHSTR " +:+ String dquote "1" +:+ String dquote EmptyString +:+ nl
  +:+ "CALLPRIM emit 1".


End Scenario.

(** * Properties *)

Import Py.

(** ** The stack machine *)

Section vm_facts.
Import VM.

Lemma pop_snoc {A} (l : list A) (x : A) : pop (l ++ [x]) = Ok (x, l).
Proof. unfold pop. rewrite reverse_snoc. simpl. by rewrite reverse_involutive. Qed.

Lemma pop_Ok {A} (l r : list A) (x : A) : pop l = Ok (x, r) → l = r ++ [x].
Proof.
  unfold pop. intros H. destruct (reverse l) as [|y k] eqn:E; [done|].
  injection H as -> <-.
  rewrite <- (reverse_involutive l), E, reverse_cons. done.
Qed.

Lemma pop_nil_raise {A} (l : list A) e : pop l = Raise e → l = [].
Proof.
  unfold pop. destruct (reverse l) eqn:E; [|done].
  intros _. rewrite <- (reverse_involutive l), E. done.
Qed.

Lemma top_Ok {A} (l : list A) (x : A) : top l = Ok x ↔ last l = Some x.
Proof. unfold top. destruct (last l); split; congruence. Qed.

Lemma top_nonempty {A} (l : list A) : l ≠ [] → ∃ x, top l = Ok x ∧ last l = Some x.
Proof.
  intros H. unfold top. destruct (last l) as [x|] eqn:E; [by exists x|].
  by apply last_None in E.
Qed.

Lemma frames_ok_init : frames_ok init.
Proof.
  split; simpl; [done|done|apply NoDup_singleton|].
  apply Forall_singleton. unfold globals_env. lia.
Qed.

Lemma frames_ok_nonempty st : frames_ok st → frames st ≠ [].
Proof. intros [H _ _ _] E. by rewrite E in H. Qed.

Lemma pop_stack_frames st v st' :
  pop_stack st = Ok (v, st') →
  heap st' = heap st ∧ frames st' = frames st ∧ callstack st' = callstack st.
Proof.
  unfold pop_stack. destruct (pop (stack st)) as [[x r]|]; simpl; [|done].
  by intros [= <- <-].
Qed.

Lemma store_var_frames name v st st' :
  store_var name v st = Ok st' →
  List.length (heap st') = List.length (heap st) ∧
  frames st' = frames st ∧ callstack st' = callstack st.
Proof.
  unfold store_var. destruct (top (frames st)); simpl; [|done].
  intros [= <-]. simpl. by rewrite length_insert.
Qed.

Lemma call_prim_frames P f args st v st' :
  call_prim P f args st = Ok (v, st') →
  heap st' = heap st ∧ frames st' = frames st ∧ callstack st' = callstack st.
Proof.
  unfold call_prim. intros H.
  repeat (case_match; simplify_eq/=; try done);
    repeat match goal with
    | H : mbind _ ?m = Ok _ |- _ => destruct m eqn:?; simplify_eq/=
    end; done.
Qed.

Lemma frames_ok_same st st' :
  List.length (heap st') = List.length (heap st) →
  frames st' = frames st → callstack st' = callstack st →
  frames_ok st → frames_ok st'.
Proof.
  intros Hh Hf Hc [? ? ? ?]. split; rewrite ?Hh, ?Hf, ?Hc; done.
Qed.

End vm_facts.

Section vm_invariant.
Import VM.

Ltac bind_cases :=
  repeat match goal with
  | H : mbind _ ?m = Ok _ |- _ => destruct m as [[??]|] eqn:?; simplify_eq/=
  | H : mbind _ ?m = Ok _ |- _ => destruct m eqn:?; simplify_eq/=
  | H : (if ?b then _ else _) = Ok _ |- _ => destruct b eqn:?; simplify_eq/=
  | H : match ?m with _ => _ end = Ok _ |- _ => destruct m eqn:?; simplify_eq/=
  end.

Lemma binop_frames f st o :
  binop f st = Ok o →
  ∃ st', o = Next st' ∧ heap st' = heap st ∧ frames st' = frames st
         ∧ callstack st' = callstack st.
Proof.
  unfold binop. intros H. bind_cases.
  repeat match goal with
  | H : pop_stack _ = Ok _ |- _ => apply pop_stack_frames in H as (? & ? & ?)
  end.
  eexists. split; [done|]. simpl. split_and!; congruence.
Qed.

Lemma frames_ok_call st rest new entry :
  frames_ok st →
  frames_ok (mkState rest (heap st ++ [new]) (frames st ++ [List.length (heap st)])
                     (callstack st ++ [S (ip st)]) entry
                     (out_lines st) (gensym_id st) (stdout st)).
Proof.
  intros [Hb Hc Hn Ha]. split; simpl.
  - by apply lookup_app_l_Some.
  - rewrite !length_app. simpl. lia.
  - apply NoDup_app. split_and!; [done| |apply NoDup_singleton].
    intros x Hx ->%list_elem_of_singleton.
    rewrite Forall_forall in Ha. apply Ha in Hx. lia.
  - rewrite length_app. simpl. apply Forall_app. split.
    + eapply Forall_impl; [done|]. simpl. lia.
    + apply Forall_singleton. lia.
Qed.

Lemma frames_ok_ret st frames' callstack' x i j :
  frames_ok st →
  List.length (frames st) ≠ 1%nat →
  frames st = frames' ++ [x] → callstack st = callstack' ++ [i] →
  frames_ok (mkState (stack st) (heap st) frames' callstack' j
                     (out_lines st) (gensym_id st) (stdout st)).
Proof.
  intros [Hb Hc Hn Ha] Hlen Hf Hcs. rewrite Hf, Hcs in *.
  rewrite !length_app in *. simpl in *.
  apply NoDup_app in Hn as (Hn & _ & _). apply Forall_app in Ha as [Ha _].
  split; simpl; [|lia|done|done].
  destruct frames'; [simpl in *; lia|done].
Qed.

(** A round of the loop keeps the invariant. *)
Lemma exec_frames_ok P inst st st' :
  frames_ok st → exec P inst st = Ok (Next st') → frames_ok st'.
Proof.
  intros Hok H. unfold exec in H.
  destruct (operand inst 0) as [op|] eqn:Hop; simplify_eq/=.
  repeat match type of H with
  | (if ?b then _ else _) = _ => destruct b eqn:?
  end;
  try match type of H with
  | binop _ _ = _ =>
      apply binop_frames in H as (? & [= <-] & ? & ? & ?);
      by eapply frames_ok_same; [..|done]; try congruence
  end.
  all: bind_cases; unfold advance in *; simplify_eq/=.
  all: repeat match goal with
    | H : pop_stack _ = Ok _ |- _ => apply pop_stack_frames in H as (? & ? & ?)
    | H : store_var _ _ _ = Ok _ |- _ => apply store_var_frames in H as (? & ? & ?)
    | H : call_prim _ _ _ _ = Ok _ |- _ => apply call_prim_frames in H as (? & ? & ?)
    end; simpl in *.
  all: try by (eapply frames_ok_same; [..|done]; simpl; congruence).
  - by apply frames_ok_call.
  - repeat match goal with
    | H : pop _ = Ok _ |- _ => apply pop_Ok in H
    | H : bool_decide _ = false |- _ => apply bool_decide_eq_false in H
    end.
    by eapply frames_ok_ret.
Qed.

Lemma reachable_frames_ok P st : reachable P st → frames_ok st.
Proof.
  induction 1 as [|st inst st' _ IH _ Hexec].
  - apply frames_ok_init.
  - by eapply exec_frames_ok.
Qed.

End vm_invariant.

Section vm_claims.
Import VM.

Lemma run_loop_past_end P fuel st :
  (List.length (prog P) ≤ ip st)%nat → run_loop P fuel st = Some (Ok st).
Proof.
  intros H. apply (lookup_ge_None_2 (prog P)) in H.
  destruct fuel; simpl; by rewrite H.
Qed.


Lemma str_items_fmap (lines : list string) : str_items (VStr <$> lines) = Ok lines.
Proof. induction lines as [|s l IH]; csimpl; [done|]. by rewrite IH. Qed.

Lemma load_var_cases st x cur :
  last (frames st) = Some cur →
  load_var x st =
    Ok (match current_frame st !! x with
        | Some v => v
        | None => match global_frame st !! x with
                  | Some v => v
                  | None => VInt 0
                  end
        end).
Proof.
  intros H. unfold load_var, current_frame, global_frame, top. rewrite H. simpl.
  destruct (deref (heap st) cur !! x); [done|].
  by destruct (deref (heap st) globals_env !! x).
Qed.

(** C4: in every state of a run, [LOAD x] pushes the value bound to [x]
    in the current (top) frame if there is one, otherwise the value bound
    to [x] in the global frame if there is one, otherwise the integer 0,
    and goes on to the next instruction; it never raises. *)
Theorem load_pushes_frame_then_global_then_zero P st x :
  reachable P st →
  (∀ v, current_frame st !! x = Some v →
        exec P ["LOAD"; x] st = Ok (advance (push v st))) ∧
  (∀ v, current_frame st !! x = None → global_frame st !! x = Some v →
        exec P ["LOAD"; x] st = Ok (advance (push v st))) ∧
  (current_frame st !! x = None → global_frame st !! x = None →
        exec P ["LOAD"; x] st = Ok (advance (push (VInt 0) st))) ∧
  (∃ v, exec P ["LOAD"; x] st = Ok (advance (push v st))).
Proof.
  intros Hr. apply reachable_frames_ok in Hr.
  destruct (top_nonempty (frames st) (frames_ok_nonempty _ Hr)) as (cur & _ & Hlast).
  assert (Hexec : ∀ v, load_var x st = Ok v →
                       exec P ["LOAD"; x] st = Ok (advance (push v st))).
  { intros v Hv. unfold exec. simpl. by rewrite Hv. }
  pose proof (load_var_cases st x cur Hlast) as Hl.
  split_and!.
  - intros v Hc. apply Hexec. by rewrite Hl, Hc.
  - intros v Hc Hg. apply Hexec. by rewrite Hl, Hc, Hg.
  - intros Hc Hg. apply Hexec. by rewrite Hl, Hc, Hg.
  - eexists. apply Hexec. exact Hl.
Qed.

Lemma load_pushes_frame_then_global_then_zero_witness :
  exec Scenario.no_code ["LOAD"; "x"] init = Ok (advance (push (VInt 0) init)).
Proof.
  apply (load_pushes_frame_then_global_then_zero Scenario.no_code init "x").
  - apply reachable_init.
  - reflexivity.
  - reflexivity.
Defined.

Lemma last_lookup_ne_first (l : list nat) (x y : nat) :
  NoDup l → l !! 0%nat = Some x → last l = Some y → (1 < List.length l)%nat → x ≠ y.
Proof.
  intros Hn H0 Hl Hlen ->. rewrite last_lookup in Hl.
  eapply NoDup_lookup in Hn; [|exact H0|exact Hl]. lia.
Qed.

Lemma store_in_call_keeps_globals P st name st' :
  frames_ok st → (1 < List.length (frames st))%nat →
  exec P ["STORE"; name] st = Ok (Next st') →
  global_frame st' = global_frame st ∧
  ∃ v, current_frame st' = <[name := v]> (current_frame st).
Proof.
  intros Hok Hlen H. unfold exec in H. simpl in H.
  destruct (pop_stack st) as [[v st1]|] eqn:Hpop; simplify_eq/=.
  apply pop_stack_frames in Hpop as (Hh & Hf & Hc).
  unfold store_var in H.
  destruct (top_nonempty (frames st) (frames_ok_nonempty _ Hok)) as (cur & Htop & Hlast).
  rewrite Hf, Htop in H. simplify_eq/=.
  assert (globals_env ≠ cur).
  { destruct Hok. by eapply last_lookup_ne_first. }
  unfold global_frame, current_frame, deref. simpl. rewrite Hlast, Hh. split.
  - by rewrite list_lookup_insert_ne.
  - exists v. rewrite list_lookup_insert_eq; [done|].
    destruct Hok as [_ _ _ Ha]. rewrite Forall_forall in Ha. apply Ha.
    rewrite last_lookup in Hlast. by eapply list_elem_of_lookup_2.
Qed.

Lemma store_in_call_reachable :
  reachable Scenario.store_in_call Scenario.store_in_call_entered.
Proof.
  apply (reachable_round _ Scenario.store_in_call_pushed ["CALL"; "f"; "0"]);
    [|reflexivity|vm_compute; reflexivity].
  apply (reachable_round _ init ["PUSH"; "2"]);
    [apply reachable_init|reflexivity|vm_compute; reflexivity].
Qed.

(** C5: [STORE] writes only to the current frame.  The program that
    performs [(let x 1)] at top level and then calls a function whose
    body performs [(let x 2)] ends with [x] bound to 1 in the global
    frame (the 2 is in the frame of the call); and in every state of a
    run that is inside a user call, a [STORE] leaves the global frame as
    it was and binds the name in the current frame. *)
Theorem store_writes_current_frame_only :
  (∃ bytecode P fuel st,
      TinyLisp.main Scenario.scoping_src = Ok bytecode ∧
      load bytecode EmptyString = Ok P ∧
      run_loop P fuel init = Some (Ok st) ∧
      List.length (frames st) = 1%nat ∧
      global_frame st !! "x" = Some (VInt 1) ∧
      heap st = [{["x" := VInt 1]}; {["x" := VInt 2]}]) ∧
  (∀ P st name st',
      reachable P st →
      (1 < List.length (frames st))%nat →
      exec P ["STORE"; name] st = Ok (Next st') →
      global_frame st' = global_frame st ∧
      ∃ v, current_frame st' = <[name := v]> (current_frame st)).
Proof.
  split.
  - eexists _, _, 20%nat, _. split_and!.
    + vm_compute. reflexivity.
    + vm_compute. reflexivity.
    + vm_compute. reflexivity.
    + reflexivity.
    + vm_compute. reflexivity.
    + vm_compute. reflexivity.
  - intros P st name st' Hr. apply store_in_call_keeps_globals.
    by apply reachable_frames_ok in Hr.
Qed.

Lemma store_writes_current_frame_only_witness :
  global_frame Scenario.store_in_call_stored
  = global_frame Scenario.store_in_call_entered.
Proof.
  apply (proj2 store_writes_current_frame_only Scenario.store_in_call
           Scenario.store_in_call_entered "x" Scenario.store_in_call_stored).
  - apply store_in_call_reachable.
  - simpl. lia.
  - vm_compute. reflexivity.
Defined.

(** C6: in every state of a run the frame stack is not empty and has the
    global frame at the bottom, and it has one frame more than the return
    stack has addresses (at the head of every round of the loop, so
    before the dispatch of any instruction that is not CALL or RET); a
    [RET] executed when only the global frame remains ends the loop. *)
Theorem frame_stack_invariant P st :
  reachable P st →
  frames st ≠ [] ∧
  frames st !! 0%nat = Some globals_env ∧
  List.length (frames st) = (1 + List.length (callstack st))%nat ∧
  (∀ operands fuel,
      prog P !! ip st = Some ("RET" :: operands) →
      List.length (frames st) = 1%nat →
      exec P ("RET" :: operands) st = Ok (Break st) ∧
      run_loop P (S fuel) st = Some (Ok st)).
Proof.
  intros Hr. apply reachable_frames_ok in Hr.
  split_and!.
  - by apply frames_ok_nonempty.
  - by destruct Hr.
  - by destruct Hr.
  - intros operands fuel Hinst Hlen.
    assert (Hexec : exec P ("RET" :: operands) st = Ok (Break st)).
    { unfold exec. simpl. by rewrite bool_decide_eq_true_2. }
    split; [done|]. simpl. by rewrite Hinst, Hexec.
Qed.

Lemma frame_stack_invariant_witness :
  frames init ≠ [] ∧
  frames init !! 0%nat = Some globals_env ∧
  List.length (frames init) = (1 + List.length (callstack init))%nat ∧
  exec Scenario.only_ret ["RET"] init = Ok (Break init) ∧
  run_loop Scenario.only_ret 1 init = Some (Ok init).
Proof.
  destruct (frame_stack_invariant Scenario.only_ret init (reachable_init _))
    as (H1 & H2 & H3 & H4).
  split_and!; [exact H1|exact H2|exact H3| |].
  - apply (H4 [] 0%nat); reflexivity.
  - apply (H4 [] 0%nat); reflexivity.
Defined.

(** C2: compiling [(print (+ 1 2))] and running the bytecode on the VM
    writes the line [3] to stdout, and nothing else, and the run ends
    normally. *)
Theorem print_sum_prints_3 :
  ∃ bytecode fuel,
    TinyLisp.main Scenario.print_sum_src = Ok bytecode ∧
    VM.main fuel bytecode EmptyString = Some (Ok ("3" +:+ nl)).
Proof.
  eexists _, 20%nat. split.
  - vm_compute. reflexivity.
  - vm_compute. reflexivity.
Qed.

(** The other scenarios run as well. *)
Example count_prints_0_to_9 :
  Scenario.compile_and_run 200 Scenario.count_src
  = Some (Ok (join nl ["0"; "1"; "2"; "3"; "4"; "5"; "6"; "7"; "8"; "9"] +:+ nl)).
Proof. vm_compute. reflexivity. Qed.

Example fact_prints_120 :
  Scenario.compile_and_run 200 Scenario.fact_src = Some (Ok ("120" +:+ nl)).
Proof. vm_compute. reflexivity. Qed.

Example fib_prints_55 :
  Scenario.compile_and_run 4000 Scenario.fib_src = Some (Ok ("55" +:+ nl)).
Proof. vm_compute. reflexivity. Qed.

Example if_prints_42 :
  Scenario.compile_and_run 50 Scenario.if_print_src = Some (Ok ("42" +:+ nl)).
Proof. vm_compute. reflexivity. Qed.

(** C10, as amended: when the instruction pointer is past the last
    instruction, the loop ends without an error, whatever the fuel, and
    the state is left as it is; [run] then returns the emit buffer joined
    by newlines when every emitted value is a str. *)
Theorem halt_past_last_instruction P st fuel :
  (List.length (prog P) ≤ ip st)%nat →
  run_loop P fuel st = Some (Ok st) ∧
  ∀ lines, out_lines st = VStr <$> lines →
           finish st = Ok (stdout st, join nl lines).
Proof.
  intros H. split; [by apply run_loop_past_end|].
  intros lines Hl. unfold finish, join_values. by rewrite Hl, str_items_fmap.
Qed.

Lemma halt_past_last_instruction_witness :
  run_loop Scenario.no_code 0 init = Some (Ok init) ∧
  finish init = Ok (EmptyString, EmptyString).
Proof.
  destruct (halt_past_last_instruction Scenario.no_code init 0%nat) as [H1 H2].
  - simpl. lia.
  - split; [exact H1|]. apply (H2 []). reflexivity.
Defined.

(** C10, as stated, fails: after [PUSH 1] and [CALLPRIM emit 1] the
    instruction pointer is past the last instruction and the loop ends,
    but the emit buffer holds an int, the join raises [TypeError], and so
    does [run]. *)
Lemma halt_past_last_instruction_may_raise :
  ∃ P st,
    load Scenario.emit_int_bytecode EmptyString = Ok P ∧
    run_loop P 2 init = Some (Ok st) ∧
    ip st = List.length (prog P) ∧
    out_lines st = [VInt 1] ∧
    finish st = Raise TypeError ∧
    run 2 Scenario.emit_int_bytecode EmptyString = Some (Raise TypeError).
Proof.
  eexists _, _. split_and!.
  - vm_compute. reflexivity.
  - vm_compute. reflexivity.
  - reflexivity.
  - reflexivity.
  - reflexivity.
  - vm_compute. reflexivity.
Qed.

(** What the dispatch of [CALL] and [CALLPRIM] does with a name that is
    not in its table. *)
Lemma unknown_call_raises P st f a argc :
  int_of_str a = Ok argc →
  fun_entry P !! f = None →
  exec P ["CALL"; f; a] st = Raise (RuntimeError ("CALL unknown function: " +:+ f)).
Proof. intros Ha Hf. unfold exec. simpl. by rewrite Ha, Hf. Qed.

Lemma unknown_prim_raises P st p a argc :
  int_of_str a = Ok argc →
  assoc p PRIMS = None →
  exec P ["CALLPRIM"; p; a] st = Raise (RuntimeError ("Unknown primitive: " +:+ p)).
Proof.
  intros Ha Hp. unfold exec. cbn -[assoc int_of_str].
  rewrite Ha. cbn -[assoc]. by rewrite Hp.
Qed.

Lemma run_loop_raise P fuel st inst e :
  prog P !! ip st = Some inst → exec P inst st = Raise e →
  run_loop P (S fuel) st = Some (Raise e).
Proof. intros Hi He. simpl. by rewrite Hi, He. Qed.

End vm_claims.

(** ** The compiler *)

Section compiler_claims.
Import TinyLisp.



(** The counter is what a fresh instance is needed for: an instance that
    has handed out labels before writes other label names. *)
Example compile_from_used_instance :
  main Scenario.if_src ≠ main_from Scenario.used_compiler Scenario.if_src.
Proof. vm_compute. discriminate. Qed.

Lemma for_each_single f e c : for_each f [e] c = f e c.
Proof. simpl. by destruct (f e c). Qed.

(** [(begin e)] compiles to the code of [e], from every compiler state
    and also when [e] is rejected. *)
Lemma begin_single e c :
  compile_form (FList [FSym "begin"; e]) c = compile_form e c.
Proof. apply (for_each_single compile_form). Qed.

Lemma begin_empty c : compile_form (FList [FSym "begin"]) c = Ok c.
Proof. reflexivity. Qed.

End compiler_claims.

(** ** Labels of the emitted bytecode *)

Section label_facts.
Import TinyLisp.

Lemma form_ind' (P : form → Prop) :
  (∀ n, P (FInt n)) → (∀ s, P (FStr s)) → (∀ name, P (FSym name)) →
  (∀ items, Forall P items → P (FList items)) →
  ∀ x, P x.
Proof.
  intros Hint Hstr Hsym Hlist. fix IH 1.
  intros [n|s|name|items]; [apply Hint|apply Hstr|apply Hsym|].
  apply Hlist. induction items as [|x l IHl]; constructor; [apply IH|exact IHl].
Qed.

Lemma label_names_app l k : label_names (l ++ k) = label_names l ++ label_names k.
Proof. apply omap_app. Qed.

Lemma jump_targets_app l k : jump_targets (l ++ k) = jump_targets l ++ jump_targets k.
Proof. apply omap_app. Qed.

Lemma label_names_plain line : plain line → label_names [line] = [].
Proof. intros [H _]. unfold label_names. simpl. by rewrite H. Qed.

Lemma jump_targets_plain line : plain line → jump_targets [line] = [].
Proof. intros [_ H]. unfold jump_targets. simpl. by rewrite H. Qed.

(** The name made by [gensym] determines the counter value. *)
Lemma gensym_name_inj p q (j k : nat) :
  label_prefix p → label_prefix q → p +:+ pretty j = q +:+ pretty k → j = k.
Proof.
  intros [->|[->| ->]] [->|[->| ->]] H; cbv [String.append] in H;
    simplify_eq; by apply (inj pretty).
Qed.

Lemma names_in_disjoint I J N1 N2 :
  names_in I N1 → names_in J N2 → (∀ k, I k → J k → False) →
  ∀ x, x ∈ N1 → x ∉ N2.
Proof.
  intros H1 H2 Hdis x Hx1 Hx2.
  destruct (H1 x Hx1) as (p & j & Hp & -> & Hj).
  destruct (H2 _ Hx2) as (q & k & Hq & Heq & Hk).
  apply gensym_name_inj in Heq as ->; eauto.
Qed.

Lemma fresh_app I J s1 s2 :
  fresh_labels I s1 → fresh_labels J s2 → (∀ k, I k → J k → False) →
  fresh_labels (λ k, I k ∨ J k) (s1 ++ s2).
Proof.
  intros [Hn1 Hi1] [Hn2 Hi2] Hdis. unfold fresh_labels. rewrite label_names_app. split.
  - apply NoDup_app. split_and!; [done| |done]. by eapply names_in_disjoint.
  - intros x [Hx|Hx]%elem_of_app.
    + destruct (Hi1 x Hx) as (p & k & ? & ? & ?). exists p, k. auto.
    + destruct (Hi2 x Hx) as (p & k & ? & ? & ?). exists p, k. auto.
Qed.

Lemma fresh_weaken I J s :
  (∀ k, I k → J k) → fresh_labels I s → fresh_labels J s.
Proof.
  intros HIJ [Hn Hi]. split; [done|]. intros x Hx.
  destruct (Hi x Hx) as (p & k & ? & ? & ?). exists p, k. auto.
Qed.

Lemma fresh_nil I : fresh_labels I [].
Proof. split; [apply NoDup_nil_2|]. intros x Hx. by apply elem_of_nil in Hx. Qed.

Lemma fresh_plain line : plain line → fresh_labels (λ _, False) [line].
Proof.
  intros H. unfold fresh_labels. rewrite (label_names_plain _ H).
  split; [apply NoDup_nil_2|]. intros x Hx. by apply elem_of_nil in Hx.
Qed.

Lemma fresh_label p (k : nat) :
  label_prefix p → fresh_labels (λ j, j = k) ["LABEL " +:+ (p +:+ pretty k)].
Proof.
  intros Hp. split.
  - apply NoDup_singleton.
  - intros x Hx. apply list_elem_of_singleton in Hx as ->. by exists p, k.
Qed.

Lemma start_not_gensym I names : names_in I names → "__START__" ∉ names.
Proof.
  intros H Hin. destruct (H _ Hin) as (p & k & [->|[->| ->]] & Heq & _);
    cbv [String.append] in Heq; discriminate.
Qed.

Lemma compiles_refl c : compiles c c.
Proof.
  split; [lia|]. exists []. split_and!.
  - split; [done|]. by rewrite app_nil_r.
  - apply fresh_nil.
  - intros t Ht. by apply elem_of_nil in Ht.
Qed.

Lemma jumps_closed_app s1 s2 :
  jumps_closed s1 → jumps_closed s2 → jumps_closed (s1 ++ s2).
Proof.
  unfold jumps_closed. rewrite jump_targets_app, label_names_app.
  intros H1 H2 t [Ht|Ht]%elem_of_app; apply elem_of_app; auto.
Qed.

Lemma compiles_trans c1 c2 c3 : compiles c1 c2 → compiles c2 c3 → compiles c1 c3.
Proof.
  intros (Hle1 & s1 & [Hp1 Hb1] & Hf1 & Hc1) (Hle2 & s2 & [Hp2 Hb2] & Hf2 & Hc2).
  split; [lia|]. exists (s1 ++ s2). split_and!.
  - split; [congruence|]. by rewrite Hb2, Hb1, app_assoc.
  - eapply fresh_weaken; [|apply (fresh_app _ _ _ _ Hf1 Hf2); intros k; simpl; lia].
    intros k; simpl; lia.
  - by apply jumps_closed_app.
Qed.

Lemma compiles_emit line c : plain line → compiles c (emit line c).
Proof.
  intros H. split; [simpl; lia|]. exists [line]. split_and!.
  - by split.
  - eapply fresh_weaken; [|by apply fresh_plain]. done.
  - intros t. by rewrite (jump_targets_plain _ H), elem_of_nil.
Qed.

Lemma for_each_compiles (f : form → C → result C) l :
  Forall (λ x, ∀ c c', f x c = Ok c' → compiles c c') l →
  ∀ c c', for_each f l c = Ok c' → compiles c c'.
Proof.
  induction 1 as [|x l Hx _ IH]; intros c c' H; simpl in H.
  - injection H as <-. apply compiles_refl.
  - destruct (f x c) as [c1|] eqn:E; simplify_eq/=.
    eapply compiles_trans; [by apply Hx|by apply IH].
Qed.

Lemma label_names_label x : label_names ["LABEL " +:+ x] = [x].
Proof. reflexivity. Qed.
Lemma jump_targets_label x : jump_targets ["LABEL " +:+ x] = [].
Proof. reflexivity. Qed.
Lemma label_names_jz x : label_names ["JZ " +:+ x] = [].
Proof. reflexivity. Qed.
Lemma jump_targets_jz x : jump_targets ["JZ " +:+ x] = [x].
Proof. reflexivity. Qed.
Lemma label_names_jmp x : label_names ["JMP " +:+ x] = [].
Proof. reflexivity. Qed.
Lemma jump_targets_jmp x : jump_targets ["JMP " +:+ x] = [x].
Proof. reflexivity. Qed.

Lemma fresh_jz I x : fresh_labels I ["JZ " +:+ x].
Proof. split; [apply NoDup_nil_2|]. intros y Hy. by apply elem_of_nil in Hy. Qed.
Lemma fresh_jmp I x : fresh_labels I ["JMP " +:+ x].
Proof. split; [apply NoDup_nil_2|]. intros y Hy. by apply elem_of_nil in Hy. Qed.

Ltac fresh_tac :=
  lazymatch goal with
  | |- fresh_labels _ (_ ++ _) =>
      eapply fresh_app; [fresh_tac|fresh_tac|intros ?; simpl; lia]
  | |- fresh_labels _ ["JZ " +:+ _] => apply (fresh_jz (λ _, False))
  | |- fresh_labels _ ["JMP " +:+ _] => apply (fresh_jmp (λ _, False))
  | |- fresh_labels _ ["LABEL " +:+ _] =>
      apply fresh_label; unfold label_prefix; tauto
  | |- fresh_labels _ [_] => apply fresh_plain; done
  | |- _ => eassumption
  end.

Ltac closed_tac :=
  unfold jumps_closed in *;
  rewrite ?jump_targets_app, ?label_names_app,
    ?label_names_label, ?jump_targets_label, ?label_names_jz, ?jump_targets_jz,
    ?label_names_jmp, ?jump_targets_jmp;
  intros t; rewrite ?elem_of_app, ?list_elem_of_singleton, ?elem_of_nil;
  naive_solver.

Lemma compiles_if c c1 c2 c3 :
  compiles (mkC (bc c) (S (S (label_id c))) (prim_set c)) c1 →
  compiles (emit ("JZ " +:+ ("ELSE" +:+ pretty (S (label_id c)))) c1) c2 →
  compiles (emit ("LABEL " +:+ ("ELSE" +:+ pretty (S (label_id c))))
              (emit ("JMP " +:+ ("END" +:+ pretty (S (S (label_id c))))) c2)) c3 →
  compiles c (emit ("LABEL " +:+ ("END" +:+ pretty (S (S (label_id c))))) c3).
Proof.
  intros (Hle1 & s1 & [Hp1 Hb1] & Hf1 & Hc1) (Hle2 & s2 & [Hp2 Hb2] & Hf2 & Hc2)
         (Hle3 & s3 & [Hp3 Hb3] & Hf3 & Hc3).
  simpl in *. split; [simpl; lia|].
  exists (s1 ++ ["JZ " +:+ ("ELSE" +:+ pretty (S (label_id c)))] ++ s2
          ++ ["JMP " +:+ ("END" +:+ pretty (S (S (label_id c))))]
          ++ ["LABEL " +:+ ("ELSE" +:+ pretty (S (label_id c)))] ++ s3
          ++ ["LABEL " +:+ ("END" +:+ pretty (S (S (label_id c))))]).
  split_and!.
  - split; simpl; [congruence|]. rewrite Hb3, Hb2, Hb1. by simplify_list_eq.
  - eapply fresh_weaken; [|fresh_tac]. intros k; simpl; lia.
  - clear -Hc1 Hc2 Hc3. closed_tac.
Qed.

Lemma compiles_while c c1 c2 :
  compiles (emit ("LABEL " +:+ ("TOP" +:+ pretty (S (label_id c))))
              (mkC (bc c) (S (S (label_id c))) (prim_set c))) c1 →
  compiles (emit ("JZ " +:+ ("END" +:+ pretty (S (S (label_id c))))) c1) c2 →
  compiles c (emit "PUSH 0"
                (emit ("LABEL " +:+ ("END" +:+ pretty (S (S (label_id c)))))
                   (emit ("JMP " +:+ ("TOP" +:+ pretty (S (label_id c)))) c2))).
Proof.
  intros (Hle1 & s1 & [Hp1 Hb1] & Hf1 & Hc1) (Hle2 & s2 & [Hp2 Hb2] & Hf2 & Hc2).
  simpl in *. split; [simpl; lia|].
  exists (["LABEL " +:+ ("TOP" +:+ pretty (S (label_id c)))] ++ s1
          ++ ["JZ " +:+ ("END" +:+ pretty (S (S (label_id c))))] ++ s2
          ++ ["JMP " +:+ ("TOP" +:+ pretty (S (label_id c)))]
          ++ ["LABEL " +:+ ("END" +:+ pretty (S (S (label_id c))))]
          ++ ["PUSH 0"]).
  split_and!.
  - split; simpl; [congruence|]. rewrite Hb2, Hb1. by simplify_list_eq.
  - eapply fresh_weaken; [|fresh_tac]. intros k; simpl; lia.
  - clear -Hc1 Hc2.
    assert (jumps_closed ["PUSH 0"]) by (intros t Ht; by apply elem_of_nil in Ht).
    assert (label_names ["PUSH 0"] = []) as Hn by reflexivity.
    assert (jump_targets ["PUSH 0"] = []) as Hj by reflexivity.
    unfold jumps_closed in *.
    rewrite ?jump_targets_app, ?label_names_app, Hn, Hj.
    closed_tac.
Qed.

Lemma arith_op_plain name instr : arith_op name = Some instr → plain instr.
Proof.
  unfold arith_op. intros H.
  repeat case_match; simplify_eq; split; reflexivity.
Qed.

Ltac plain_tac := split; reflexivity.

Lemma compile_form_compiles x : ∀ c c', compile_form x c = Ok c' → compiles c c'.
Proof.
  induction x as [n|s|name|items IH] using form_ind'; intros c c' H.
  - injection H as <-. apply compiles_emit. plain_tac.
  - injection H as <-. apply compiles_emit. plain_tac.
  - injection H as <-. apply compiles_emit. plain_tac.
  - destruct items as [|op args].
    { injection H as <-. apply compiles_emit. plain_tac. }
    apply Forall_cons in IH as [_ IH].
    destruct op as [?|?|opname|?]; try discriminate H.
    simpl in H.
    destruct (String.eqb opname "begin").
    { by eapply for_each_compiles. }
    destruct (String.eqb opname "if").
    { destruct args as [|cond [|thn [|els [|]]]]; try discriminate H.
      apply Forall_cons in IH as [IHc IH].
      apply Forall_cons in IH as [IHt IH].
      apply Forall_cons in IH as [IHe _].
      destruct (compile_form cond _) as [c1|] eqn:E1; simplify_eq/=.
      destruct (compile_form thn _) as [c2|] eqn:E2; simplify_eq/=.
      destruct (compile_form els _) as [c3|] eqn:E3; simplify_eq/=.
      apply compiles_if with c1 c2; auto. }
    destruct (String.eqb opname "let" || String.eqb opname "set").
    { destruct args as [|[?|?|name|?] [|e [|]]]; try discriminate H.
      apply Forall_cons in IH as [_ IH].
      apply Forall_cons in IH as [IHe _].
      destruct (compile_form e c) as [c1|] eqn:E1; simplify_eq/=.
      eapply compiles_trans; [by apply IHe|]. apply compiles_emit. plain_tac. }
    destruct (String.eqb opname "while").
    { destruct args as [|cond [|b body]]; try discriminate H.
      apply Forall_cons in IH as [IHc IHb].
      destruct (compile_form cond _) as [c1|] eqn:E1; simplify_eq/=.
      destruct (compile_form b _) as [c2|] eqn:E2; simplify_eq/=.
      destruct (for_each compile_form body c2) as [c3|] eqn:E3; simplify_eq/=.
      apply compiles_while with c1; [by apply IHc|].
      apply (for_each_compiles compile_form (b :: body)); [done|].
      simpl. by rewrite E2. }
    destruct (arith_op opname) as [instr|] eqn:Ea.
    { destruct args as [|a [|b [|]]]; try discriminate H.
      apply Forall_cons in IH as [IHa IH].
      apply Forall_cons in IH as [IHb _].
      destruct (compile_form a c) as [c1|] eqn:E1; simplify_eq/=.
      destruct (compile_form b c1) as [c2|] eqn:E2; simplify_eq/=.
      eapply compiles_trans; [by apply IHa|].
      eapply compiles_trans; [by apply IHb|].
      apply compiles_emit. by eapply arith_op_plain. }
    destruct (String.eqb opname "print").
    { destruct args as [|a [|]]; try discriminate H.
      apply Forall_cons in IH as [IHa _].
      destruct (compile_form a c) as [c1|] eqn:E1; simplify_eq/=.
      eapply compiles_trans; [by apply IHa|].
      eapply compiles_trans; apply compiles_emit; plain_tac. }
    destruct (for_each compile_form args c) as [c1|] eqn:E1; simplify_eq/=.
    eapply compiles_trans; [by eapply for_each_compiles|].
    destruct (bool_decide _); injection H as <-; apply compiles_emit; plain_tac.
Qed.

Lemma compile_define_compiles d c c' : compile_define d c = Ok c' → compiles c c'.
Proof.
  unfold compile_define. intros H.
  destruct d as [?|?|?|[|d0 [|sig [|body [|]]]]]; try discriminate H.
  destruct sig as [?|?|?|[|[?|?|fname|?] ps]]; try discriminate H.
  destruct (symnames ps) as [params|]; simplify_eq/=.
  destruct (compile_form body _) as [c1|] eqn:E; simplify_eq/=.
  apply compile_form_compiles in E.
  refine (compiles_trans _ _ _ (compiles_emit _ c _)
            (compiles_trans _ _ _ E (compiles_emit _ _ _))); plain_tac.
Qed.

Lemma compile_form_prim_set x c c' : compile_form x c = Ok c' → prim_set c' = prim_set c.
Proof. intros H. by apply compile_form_compiles in H as (_ & seg & [? _] & _). Qed.

Lemma for_each_compile_form l c c' :
  for_each compile_form l c = Ok c' → compiles c c'.
Proof.
  apply for_each_compiles, Forall_forall. intros x _. apply compile_form_compiles.
Qed.

Lemma for_each_compile_define l c c' :
  for_each compile_define l c = Ok c' → compiles c c'.
Proof.
  apply for_each_compiles, Forall_forall. intros x _. apply compile_define_compiles.
Qed.

Lemma special_form_false name :
  special_form name = false →
  String.eqb name "begin" = false ∧ String.eqb name "if" = false ∧
  (String.eqb name "let" || String.eqb name "set") = false ∧
  String.eqb name "while" = false ∧ arith_op name = None ∧
  String.eqb name "print" = false.
Proof.
  unfold special_form, arith_op. intros H%bool_decide_eq_false.
  rewrite !not_elem_of_cons in H.
  destruct H as (?&?&?&?&?&?&?&?&?&?&?&?&_).
  repeat match goal with
  | H : name ≠ ?s |- _ => apply String.eqb_neq in H; rewrite H; clear H
  end.
  done.
Qed.

Lemma unknown_operator_compiles_to_call name args c c' :
  special_form name = false → name ∉ prim_set c →
  for_each compile_form args c = Ok c' →
  compile_form (FList (FSym name :: args)) c
  = Ok (emit ("CALL " +:+ name +:+ " " +:+ pretty (List.length args)) c').
Proof.
  intros (E1 & E2 & E3 & E4 & E5 & E6)%special_form_false Hp Hargs.
  simpl. rewrite E1, E2, E3, E4, E5, E6, Hargs. simpl.
  apply for_each_compile_form in Hargs as (_ & seg & [Hps _] & _).
  rewrite bool_decide_eq_false_2; [done|]. by rewrite Hps.
Qed.

(** C7: for every source that compiles, the emitted bytecode (the lines
    whose join is the text returned) has no two [LABEL] lines with the
    same name, and the target of every [JMP] and [JZ] line is the name of
    a [LABEL] line. *)
Theorem labels_unique_and_jumps_resolved src forms text c :
  parse_sexprs src = Ok forms →
  compile_program forms C_init = Ok (text, c) →
  text = join nl (bc c) ∧
  NoDup (label_names (bc c)) ∧
  ∀ t, t ∈ jump_targets (bc c) → t ∈ label_names (bc c).
Proof.
  intros _ H. unfold compile_program in H.
  destruct (for_each compile_define _ _) as [c1|] eqn:E1; simplify_eq/=.
  destruct (for_each compile_form _ _) as [c2|] eqn:E2; simplify_eq/=.
  split; [done|].
  apply for_each_compile_define in E1 as (Hle1 & sd & [_ Hb1] & [Hn1 Hi1] & Hc1).
  apply for_each_compile_form in E2 as (Hle2 & sr & [_ Hb2] & [Hn2 Hi2] & Hc2).
  simpl in *. rewrite Hb2, Hb1.
  change (((((["JMP __START__"] ++ sd) ++ ["LABEL __START__"]) ++ sr) ++ ["PUSH 0"])
          ++ ["RET"])
    with (((((["JMP " +:+ "__START__"] ++ sd) ++ ["LABEL " +:+ "__START__"]) ++ sr)
           ++ ["PUSH 0"]) ++ ["RET"]).
  assert (label_names ["PUSH 0"] = []) as Hp1 by reflexivity.
  assert (jump_targets ["PUSH 0"] = []) as Hp2 by reflexivity.
  assert (label_names ["RET"] = []) as Hr1 by reflexivity.
  assert (jump_targets ["RET"] = []) as Hr2 by reflexivity.
  rewrite !jump_targets_app, !label_names_app, Hp1, Hp2, Hr1, Hr2,
    label_names_label, jump_targets_label.
  change (label_names (("JMP " +:+ "__START__") :: sd)) with (label_names sd).
  change (jump_targets (("JMP " +:+ "__START__") :: sd))
    with ("__START__" :: jump_targets sd).
  rewrite !app_nil_r, <- !app_assoc. simpl. split.
  - apply NoDup_app. split_and!; [done| |].
    + intros x Hx [->|Hx']%elem_of_cons.
      * by apply (start_not_gensym _ _ Hi1).
      * eapply names_in_disjoint; [exact Hi1|exact Hi2| |done..].
        intros k; simpl; lia.
    + apply NoDup_cons. split; [|done]. exact (start_not_gensym _ _ Hi2).
  - unfold jumps_closed in *. intros t.
    rewrite !elem_of_cons, !elem_of_app, !elem_of_cons. naive_solver.
Qed.

Lemma labels_unique_and_jumps_resolved_witness :
  NoDup (label_names (bc Scenario.if_compiled)) ∧
  ∀ t, t ∈ jump_targets (bc Scenario.if_compiled) →
       t ∈ label_names (bc Scenario.if_compiled).
Proof.
  apply (labels_unique_and_jumps_resolved Scenario.if_src Scenario.if_forms
           (join nl (bc Scenario.if_compiled)) Scenario.if_compiled).
  - vm_compute. reflexivity.
  - vm_compute. reflexivity.
Defined.

(** C9: the compiler turns a call of any operator symbol it does not
    know (not a special form, not a primitive) into a [CALL] line,
    without error, once the arguments are compiled; executing a [CALL]
    of a name that is not in the function table raises [RuntimeError],
    executing a [CALLPRIM] of a name that is not in [PRIMS] raises
    [RuntimeError] with the message [Unknown primitive: ...], and in both
    cases the run ends with that error. *)
Theorem unknown_function_and_primitive_raise :
  (∀ name args c c',
      special_form name = false → name ∉ prim_set c →
      for_each compile_form args c = Ok c' →
      compile_form (FList (FSym name :: args)) c
      = Ok (emit ("CALL " +:+ name +:+ " " +:+ pretty (List.length args)) c')) ∧
  (∀ P st f a argc fuel,
      VM.prog P !! VM.ip st = Some ["CALL"; f; a] →
      int_of_str a = Ok argc →
      VM.fun_entry P !! f = None →
      VM.exec P ["CALL"; f; a] st
      = Raise (RuntimeError ("CALL unknown function: " +:+ f)) ∧
      VM.run_loop P (S fuel) st
      = Some (Raise (RuntimeError ("CALL unknown function: " +:+ f)))) ∧
  (∀ P st p a argc fuel,
      VM.prog P !! VM.ip st = Some ["CALLPRIM"; p; a] →
      int_of_str a = Ok argc →
      VM.assoc p VM.PRIMS = None →
      VM.exec P ["CALLPRIM"; p; a] st
      = Raise (RuntimeError ("Unknown primitive: " +:+ p)) ∧
      VM.run_loop P (S fuel) st
      = Some (Raise (RuntimeError ("Unknown primitive: " +:+ p)))).
Proof.
  split_and!.
  - apply unknown_operator_compiles_to_call.
  - intros P st f a argc fuel Hi Ha Hf.
    pose proof (unknown_call_raises P st f a argc Ha Hf) as He.
    split; [done|]. by eapply run_loop_raise.
  - intros P st p a argc fuel Hi Ha Hp.
    pose proof (unknown_prim_raises P st p a argc Ha Hp) as He.
    split; [done|]. by eapply run_loop_raise.
Qed.

Lemma unknown_function_and_primitive_raise_witness :
  compile_form Scenario.unknown_call_form C_init
  = Ok (emit "CALL foo 1" (emit "PUSH 1" C_init)) ∧
  VM.run_loop Scenario.calls_unknown 1 Scenario.calls_unknown_pushed
  = Some (Raise (RuntimeError "CALL unknown function: foo")) ∧
  VM.run_loop Scenario.calls_unknown_prim 1 Scenario.calls_unknown_pushed
  = Some (Raise (RuntimeError "Unknown primitive: cons")).
Proof.
  destruct unknown_function_and_primitive_raise as (H1 & H2 & H3).
  split_and!.
  - apply (H1 "foo" [FInt 1] C_init (emit "PUSH 1" C_init)).
    + reflexivity.
    + vm_compute. intros H. discriminate H.
    + reflexivity.
  - apply (H2 Scenario.calls_unknown Scenario.calls_unknown_pushed "foo" "1" 1 0%nat);
      reflexivity.
  - apply (H3 Scenario.calls_unknown_prim Scenario.calls_unknown_pushed "cons" "1" 1 0%nat);
      reflexivity.
Defined.

(** C8, the failing input: [(begin)] compiles to no instruction at all,
    so its code leaves the operand stack as it is and no 0 on it; the
    [PRINT] compiled for [(print (begin))] finds the stack empty. *)
Theorem empty_begin_pushes_nothing :
  (∀ c, compile_form (FList [FSym "begin"]) c = Ok c) ∧
  ∃ bytecode,
    TinyLisp.main Scenario.print_empty_begin_src = Ok bytecode ∧
    VM.main 20 bytecode EmptyString = Some (Raise IndexError).
Proof.
  split; [apply begin_empty|].
  eexists. split.
  - vm_compute. reflexivity.
  - vm_compute. reflexivity.
Qed.

End label_facts.

(** ** Fuel of the lexer and of the reader *)

Section fuel_facts.
Import TinyLisp.

Lemma take_drop_while_length p l :
  (List.length (take_while p l) + List.length (drop_while p l) = List.length l)%nat.
Proof. induction l as [|c l IH]; simpl; [done|]. destruct (p c); simpl; lia. Qed.

Lemma drop_while_length p l : (List.length (drop_while p l) ≤ List.length l)%nat.
Proof. pose proof (take_drop_while_length p l). lia. Qed.

Lemma str_body_shorter n : ∀ s b rest,
  (List.length s ≤ n)%nat → str_body s = Some (b, rest) →
  (List.length rest < List.length s)%nat.
Proof.
  induction n as [|n IH]; intros [|c r] b rest Hn H; simpl in *; try done; try lia.
  destruct (negb (bool_decide (c = dquote)) && negb (bool_decide (c = backslash))).
  - destruct (str_body r) as [[b' rest']|] eqn:E; simpl in H.
    + injection H as <- <-. apply IH in E; lia.
    + destruct (bool_decide (c = dquote)); simplify_eq. lia.
  - destruct (bool_decide (c = backslash)).
    + destruct r as [|d r'].
      { destruct (bool_decide (c = dquote)); simplify_eq/=. lia. }
      destruct (not_newline d).
      * destruct (str_body r') as [[b' rest']|] eqn:E; simpl in H.
        -- injection H as <- <-. apply IH in E; simpl in *; lia.
        -- destruct (bool_decide (c = dquote)); simplify_eq/=. lia.
      * destruct (bool_decide (c = dquote)); simplify_eq/=. lia.
    + destruct (bool_decide (c = dquote)); simplify_eq/=. lia.
Qed.

Lemma m_digits_shorter s ds rest :
  m_digits s = Some (ds, rest) → (List.length rest < List.length s)%nat.
Proof.
  unfold m_digits. pose proof (take_drop_while_length isdigit s).
  destruct (take_while isdigit s) eqn:E; [done|]. intros [= <- <-]. simpl in *. lia.
Qed.

Lemma alternatives_shorter s k text rest :
  alternatives s = Some (k, text, rest) → (List.length rest < List.length s)%nat.
Proof.
  unfold alternatives, first_of. simpl.
  destruct (m_comment s) as [m|] eqn:E1.
  { intros [= ->]. unfold m_comment in E1. repeat case_match; simplify_eq/=.
    pose proof (drop_while_length not_newline l). lia. }
  destruct (m_lp s) as [m|] eqn:E2.
  { intros [= ->]. unfold m_lp in E2. repeat case_match; simplify_eq/=. lia. }
  destruct (m_rp s) as [m|] eqn:E3.
  { intros [= ->]. unfold m_rp in E3. repeat case_match; simplify_eq/=. lia. }
  destruct (m_str s) as [m|] eqn:E4.
  { intros [= ->]. unfold m_str in E4. destruct s as [|c r]; [done|].
    destruct (bool_decide (c = dquote)); [|done].
    destruct (str_body r) as [[b rest']|] eqn:E; simplify_eq/=.
    eapply str_body_shorter in E; [|done]. lia. }
  destruct (m_int s) as [m|] eqn:E5.
  { intros [= ->]. unfold m_int in E5.
    repeat case_match; simplify_eq/=;
      repeat match goal with
      | H : m_digits _ = Some _ |- _ => apply m_digits_shorter in H; simpl in H
      | H : mbind _ ?m = Some _ |- _ => destruct m as [[??]|] eqn:?; simplify_eq/=
      end; lia. }
  destruct (m_sym s) as [m|] eqn:E6; [|done].
  intros [= ->]. unfold m_sym in E6. repeat case_match; simplify_eq/=.
  pose proof (drop_while_length sym_char l). lia.
Qed.

Lemma tok_re_match_shorter s k text rest :
  tok_re_match s = Some (k, text, rest) → (List.length rest < List.length s)%nat.
Proof.
  induction s as [|c r IH]; simpl.
  - intros H. by apply alternatives_shorter in H.
  - destruct (isspace c).
    + destruct (tok_re_match r) as [[[k' t'] rest']|] eqn:E.
      * intros [= -> -> ->]. specialize (IH eq_refl). lia.
      * intros H. by apply alternatives_shorter in H.
    + intros H. by apply alternatives_shorter in H.
Qed.

(** The fuel of [tokenize] is never used up: the result is the same for
    every fuel that is at least the length of the input. *)
Lemma tokenize_loop_fuel fuel1 : ∀ fuel2 i s out,
  (List.length s ≤ fuel1)%nat → (List.length s ≤ fuel2)%nat →
  tokenize_loop fuel1 i s out = tokenize_loop fuel2 i s out.
Proof.
  induction fuel1 as [|f1 IH]; intros fuel2 i s out H1 H2.
  - destruct s; [|simpl in *; lia]. by destruct fuel2.
  - destruct s as [|c r]; [by destruct fuel2|].
    destruct fuel2 as [|f2]; [simpl in *; lia|].
    cbn [tokenize_loop].
    destruct (tok_re_match (c :: r)) as [[[k t] rest]|] eqn:E; [|done].
    apply tok_re_match_shorter in E.
    assert (List.length rest ≤ f1)%nat by (simpl in *; lia).
    assert (List.length rest ≤ f2)%nat by (simpl in *; lia).
    destruct k; try by apply IH.
    + destruct (_unescape_string t); simpl; [by apply IH|done].
    + destruct (int_of_str (str t)); simpl; [by apply IH|done].
Qed.

Lemma parse_fuel fuel1 :
  (∀ fuel2 toks,
      (2 * List.length toks ≤ fuel1)%nat → (2 * List.length toks ≤ fuel2)%nat →
      parse_one fuel1 toks = parse_one fuel2 toks ∧
      ∀ x rest, parse_one fuel1 toks = Ok (x, rest) →
                (List.length rest < List.length toks)%nat) ∧
  (∀ fuel2 toks lst,
      (2 * List.length toks + 1 ≤ fuel1)%nat → (2 * List.length toks + 1 ≤ fuel2)%nat →
      parse_items fuel1 toks lst = parse_items fuel2 toks lst ∧
      ∀ x rest, parse_items fuel1 toks lst = Ok (x, rest) →
                (List.length rest < List.length toks)%nat).
Proof.
  induction fuel1 as [|f1 [IH1 IH2]].
  - split.
    + intros fuel2 [|t toks] H1 H2; [|simpl in *; lia]. by destruct fuel2.
    + intros fuel2 toks lst H1. lia.
  - split.
    + intros fuel2 [|t toks] H1 H2; [by destruct fuel2|].
      destruct fuel2 as [|f2]; [simpl in *; lia|].
      assert (2 * List.length toks + 1 ≤ f1)%nat as Ha by (simpl in *; lia).
      assert (2 * List.length toks + 1 ≤ f2)%nat as Hb by (simpl in *; lia).
      destruct (IH2 f2 toks [] Ha Hb) as [Heq Hs].
      destruct t; simpl; try (split; [done|]; intros; simplify_eq; lia).
      split; [done|]. intros x rest Hx. apply Hs in Hx. lia.
    + intros fuel2 [|t toks] lst H1 H2; [by destruct fuel2|].
      destruct fuel2 as [|f2]; [lia|].
      remember (t :: toks) as toks' eqn:Et.
      assert (Hstep :
        ('(x, rest) ← parse_one f1 toks'; parse_items f1 rest (lst ++ [x]))
        = ('(x, rest) ← parse_one f2 toks'; parse_items f2 rest (lst ++ [x])) ∧
        ∀ x rest,
          ('(x, rest) ← parse_one f1 toks'; parse_items f1 rest (lst ++ [x])) = Ok (x, rest) →
          (List.length rest < List.length toks')%nat).
      { assert (2 * List.length toks' ≤ f1)%nat as Ha by lia.
        assert (2 * List.length toks' ≤ f2)%nat as Hb by lia.
        destruct (IH1 f2 toks' Ha Hb) as [<- Hs].
        destruct (parse_one f1 toks') as [[x rest]|] eqn:E; simpl; [|done].
        specialize (Hs _ _ eq_refl).
        assert (2 * List.length rest + 1 ≤ f1)%nat as Hc by lia.
        assert (2 * List.length rest + 1 ≤ f2)%nat as Hd by lia.
        destruct (IH2 f2 rest (lst ++ [x]) Hc Hd) as [<- Hs2].
        split; [done|]. intros y rest' Hy. apply Hs2 in Hy. lia. }
      subst toks'. destruct t; simpl; try exact Hstep.
      * split; [done|]. intros; simplify_eq. lia.
      * done.
Qed.

(** The fuel of the reader is never used up either. *)
Lemma parse_forms_fuel fuel1 : ∀ fuel2 toks forms,
  (List.length toks ≤ fuel1)%nat → (List.length toks ≤ fuel2)%nat →
  parse_forms fuel1 toks forms = parse_forms fuel2 toks forms.
Proof.
  induction fuel1 as [|f1 IH]; intros fuel2 [|t toks] forms H1 H2;
    try (simpl in *; lia); try by destruct fuel2.
  destruct fuel2 as [|f2]; [simpl in *; lia|].
  remember (t :: toks) as toks' eqn:Et.
  assert (Hstep :
    ('(x, rest) ← parse_one (2 * List.length toks') toks'; parse_forms f1 rest (forms ++ [x]))
    = ('(x, rest) ← parse_one (2 * List.length toks') toks'; parse_forms f2 rest (forms ++ [x]))).
  { destruct (proj1 (parse_fuel (2 * List.length toks')) (2 * List.length toks')%nat toks')
      as [_ Hs]; [lia..|].
    destruct (parse_one _ toks') as [[x rest]|] eqn:E; simpl; [|done].
    specialize (Hs _ _ eq_refl). apply IH; lia. }
  subst toks'. destruct t; try exact Hstep. done.
Qed.

End fuel_facts.

(** ** The lexer *)

Section lexer_claims.
Import TinyLisp.

(** Whitespace is only taken in front of a token or a comment: on input
    that is whitespace only, the regular expression does not match. *)
Lemma alternatives_space c r : isspace c = true → alternatives (c :: r) = None.
Proof.
  destruct c as [[] [] [] [] [] [] [] []]; intros H; try discriminate H; reflexivity.
Qed.

Lemma tok_re_match_whitespace ws :
  Forall (λ c, isspace c = true) ws → tok_re_match ws = None.
Proof.
  induction 1 as [|c r Hc _ IH]; [reflexivity|].
  simpl. by rewrite Hc, IH, alternatives_space.
Qed.

(** Whitespace in front of a token or a comment is skipped. *)
Lemma tok_re_match_skip_whitespace ws s m :
  Forall (λ c, isspace c = true) ws →
  tok_re_match s = Some m → tok_re_match (ws ++ s) = Some m.
Proof.
  intros Hws Hm. induction Hws as [|c r Hc _ IH]; [done|].
  simpl. by rewrite Hc, IH.
Qed.

Lemma tokenize_whitespace_only src :
  src ≠ EmptyString → Forall (λ c, isspace c = true) (chars src) →
  tokenize src
  = Raise (SyntaxError ("Unexpected character at 0: " +:+ repr_str (str (take 30 (chars src))))).
Proof.
  intros Hne Hws. unfold tokenize.
  destruct src as [|a src']; [done|].
  change (chars (String a src')) with (a :: chars src') in *.
  cbn [String.length tokenize_loop].
  rewrite (tok_re_match_whitespace _ Hws). reflexivity.
Qed.

(** The parts of the lexer's contract that hold: a comment that runs to
    the end of the input, with no newline after it, is skipped. *)
Example tokenize_comment_at_eof :
  tokenize Scenario.comment_at_eof_src = Ok [LP; SYM "f"; INT 1; RP; EOF].
Proof. vm_compute. reflexivity. Qed.

(** C1, the failing input: the source of the first scenario tokenizes,
    and the same source followed by a newline is rejected at the
    newline. *)
Theorem tokenize_rejects_trailing_newline :
  tokenize Scenario.print_sum_src
  = Ok [LP; SYM "print"; LP; SYM "+"; INT 1; INT 2; RP; RP; EOF] ∧
  tokenize Scenario.newline_terminated_src
  = Raise (SyntaxError "Unexpected character at 15: '\n'").
Proof. split; vm_compute; reflexivity. Qed.

End lexer_claims.


(** ** Numerals and string literals *)

Section text_facts.


Lemma str_chars s : str (chars s) = s.
Proof. apply string_of_list_ascii_of_string. Qed.

Lemma chars_str l : chars (str l) = l.
Proof. apply list_ascii_of_string_of_list_ascii. Qed.

Lemma chars_app s t : chars (s +:+ t) = chars s ++ chars t.
Proof.
  induction s as [|c s IH]; [done|].
  change (chars (String c s +:+ t)) with (c :: chars (s +:+ t)). by rewrite IH.
Qed.

Lemma length_chars s : List.length (chars s) = String.length s.
Proof. induction s as [|c s IH]; simpl; [done|]. by rewrite IH. Qed.

Lemma str_app l k : str (l ++ k) = str l +:+ str k.
Proof.
  induction l as [|c l IH]; [done|].
  change (str ((c :: l) ++ k)) with (String c (str (l ++ k))). by rewrite IH.
Qed.

Lemma string_app_nil_r s : s +:+ EmptyString = s.
Proof.
  induction s as [|c s IH]; [done|].
  change (String c s +:+ EmptyString) with (String c (s +:+ EmptyString)).
  by rewrite IH.
Qed.

Lemma string_app_assoc s t u : (s +:+ t) +:+ u = s +:+ (t +:+ u).
Proof.
  induction s as [|c s IH]; [done|].
  change ((String c s +:+ t) +:+ u) with (String c ((s +:+ t) +:+ u)).
  by rewrite IH.
Qed.

Lemma drop_while_false p c l : p c = false → drop_while p (c :: l) = c :: l.
Proof. intros H. simpl. by rewrite H. Qed.

Lemma drop_while_none p l : Forall (λ c, p c = false) l → drop_while p l = l.
Proof. destruct 1; [done|]. by apply drop_while_false. Qed.


(** *** Decimal numerals *)







Lemma pretty_nat_chars (n : nat) : chars (pretty n) = chars (pretty (N.of_nat n)).
Proof. reflexivity. Qed.

Lemma isdigit_not_space c : isdigit c = true → int_space c = false ∧ isspace c = false.
Proof. destruct c as [[] [] [] [] [] [] [] []]; intros H; try discriminate H; done. Qed.

Lemma int_strip_id l :
  Forall (λ c, int_space c = false) l →
  reverse (drop_while int_space (reverse (drop_while int_space l))) = l.
Proof.
  intros H. rewrite (drop_while_none _ l H).
  rewrite drop_while_none by by apply Forall_reverse.
  apply reverse_involutive.
Qed.

Lemma int_of_digits l n :
  l ≠ [] → Forall (λ c, isdigit c = true) l → int_digits false 0 l = Some n →
  int_of_str (str l) = Ok n ∧ int_of_str (str ("-"%char :: l)) = Ok (- n).
Proof.
  intros Hne Hd Hn. unfold int_of_str. rewrite !chars_str.
  assert (Forall (λ c, int_space c = false) l) as Hs.
  { eapply Forall_impl; [done|]. intros c Hc. by apply isdigit_not_space. }
  rewrite !int_strip_id by (try constructor; done).
  split; [|by rewrite Hn].
  destruct l as [|c l]; [done|]. apply Forall_cons in Hd as [Hc _].
  assert ((match c :: l with
           | "-"%char :: l0 => Z.opp <$> int_digits false 0 l0
           | "+"%char :: l0 => int_digits false 0 l0
           | _ => int_digits false 0 (c :: l)
           end) = int_digits false 0 (c :: l)) as ->.
  { destruct c as [[] [] [] [] [] [] [] []]; try discriminate Hc; done. }
  by rewrite Hn.
Qed.


(** *** [json.dumps] and [json.loads] *)

Lemma json_scanstring_char c rest :
  json_scanstring (json_char c ++ rest)
  = '(t, r) ← json_scanstring rest; Ok (c :: t, r).
Proof. destruct c as [[] [] [] [] [] [] [] []]; reflexivity. Qed.

Lemma mjoin_cons {A} (l : list A) (ls : list (list A)) : mjoin (l :: ls) = l ++ mjoin ls.
Proof. reflexivity. Qed.

Lemma json_scanstring_dumps l rest :
  json_scanstring (mjoin (json_char <$> l) ++ dquote :: rest) = Ok (l, rest).
Proof.
  induction l as [|c l IH]; [reflexivity|].
  rewrite fmap_cons, mjoin_cons.
  rewrite <- app_assoc, json_scanstring_char, IH. reflexivity.
Qed.

(** [json.loads(json.dumps(s))] is [s]. *)
Lemma json_loads_dumps s : json_loads (json_dumps_str s) = Ok (VStr s).
Proof.
  unfold json_loads, json_dumps_str. rewrite chars_str.
  change ([dquote] ++ mjoin (json_char <$> chars s) ++ [dquote])
    with (dquote :: (mjoin (json_char <$> chars s) ++ dquote :: [])).
  cbn [drop_while]. change (json_ws dquote) with false. cbn iota.
  rewrite bool_decide_eq_true_2 by done.
  rewrite json_scanstring_dumps. simpl. by rewrite str_chars.
Qed.

End text_facts.


(** ** The lexer on numerals and string literals *)

Section lexer_literals.
Import TinyLisp.

Lemma str_body_plain c tl :
  plain_char c = true →
  str_body (c :: tl) = '(b, r) ← str_body tl; Some (c :: b, r).
Proof.
  unfold plain_char. intros H. cbn [str_body]. rewrite H.
  destruct (str_body tl) as [[b r]|]; [done|]. cbn.
  apply andb_true_iff in H as [H _]. by destruct (bool_decide (c = dquote)).
Qed.

Lemma str_body_escape d tl :
  not_newline d = true →
  str_body (backslash :: d :: tl) = '(b, r) ← str_body tl; Some (backslash :: d :: b, r).
Proof.
  intros H. cbn [str_body].
  change (negb (bool_decide (backslash = dquote)) && negb (bool_decide (backslash = backslash)))
    with false.
  change (bool_decide (backslash = backslash)) with true. cbn iota. rewrite H.
  by destruct (str_body tl) as [[b r]|].
Qed.

Lemma json_char_shape_ok c : json_char_shape c = true.
Proof. destruct c as [[] [] [] [] [] [] [] []]; reflexivity. Qed.

Lemma str_body_json_char c tl :
  str_body (json_char c ++ tl) = '(b, r) ← str_body tl; Some (json_char c ++ b, r).
Proof.
  pose proof (json_char_shape_ok c) as H. unfold json_char_shape in H.
  destruct (json_char c) as [|x [|d [|z1 [|z2 [|h1 [|h2 [|]]]]]]]; try discriminate H.
  - by apply str_body_plain.
  - apply andb_true_iff in H as [->%bool_decide_eq_true Hd].
    by apply str_body_escape.
  - repeat match type of H with
           | _ && _ = true => apply andb_true_iff in H as [H ?]
           end.
    apply bool_decide_eq_true in H as ->.
    cbn [app]. rewrite str_body_escape by done.
    rewrite !str_body_plain by done.
    by destruct (str_body tl) as [[b r]|].
Qed.

Lemma str_body_json l rest :
  str_body (mjoin (json_char <$> l) ++ dquote :: rest)
  = Some (mjoin (json_char <$> l), rest).
Proof.
  induction l as [|c l IH]; [reflexivity|].
  rewrite fmap_cons, mjoin_cons.
  rewrite <- app_assoc, str_body_json_char, IH. reflexivity.
Qed.

Lemma utf8_encode_app l k : utf8_encode (l ++ k) = utf8_encode l ++ utf8_encode k.
Proof. unfold utf8_encode. by rewrite fmap_app, join_app. Qed.

Lemma utf8_encode_json_char c : utf8_encode (json_char c) = json_char c.
Proof. destruct c as [[] [] [] [] [] [] [] []]; reflexivity. Qed.

Lemma unicode_escape_json_char c tl :
  unicode_escape (json_char c ++ tl) = t ← unicode_escape tl; Ok (c :: t).
Proof. destruct c as [[] [] [] [] [] [] [] []]; reflexivity. Qed.

Lemma unicode_escape_json l :
  unicode_escape (utf8_encode (mjoin (json_char <$> l))) = Ok l.
Proof.
  induction l as [|c l IH]; [reflexivity|].
  rewrite fmap_cons, mjoin_cons.
  rewrite utf8_encode_app, utf8_encode_json_char, unicode_escape_json_char, IH.
  reflexivity.
Qed.

Lemma alternatives_dquote r : alternatives (dquote :: r) = m_str (dquote :: r).
Proof.
  unfold alternatives, first_of. cbn [foldr].
  change (m_comment (dquote :: r)) with (@None re_match).
  change (m_lp (dquote :: r)) with (@None re_match).
  change (m_rp (dquote :: r)) with (@None re_match).
  change (m_int (dquote :: r)) with (@None re_match).
  change (m_sym (dquote :: r)) with (@None re_match).
  by destruct (m_str (dquote :: r)).
Qed.

(** The text [json.dumps] writes for [s], as a list of characters. *)
Lemma json_dumps_chars s :
  chars (json_dumps_str s) = dquote :: mjoin (json_char <$> chars s) ++ [dquote].
Proof. unfold json_dumps_str. by rewrite chars_str. Qed.

(** The match of [_tok_re] at a string literal written by [json.dumps],
    whatever follows it, and the text it stands for. *)
Lemma tok_re_match_json s rest :
  tok_re_match (chars (json_dumps_str s) ++ rest)
  = Some (GSTR, chars (json_dumps_str s), rest).
Proof.
  rewrite json_dumps_chars. cbn [app tok_re_match].
  change (isspace dquote) with false. cbn iota.
  rewrite alternatives_dquote. unfold m_str. rewrite bool_decide_eq_true_2 by done.
  rewrite <- app_assoc. cbn [app]. by rewrite str_body_json.
Qed.

Lemma unescape_json s : _unescape_string (chars (json_dumps_str s)) = Ok s.
Proof.
  rewrite json_dumps_chars. unfold _unescape_string. cbn [tail].
  rewrite removelast_last, unicode_escape_json. cbn. by rewrite str_chars.
Qed.






(** One round of the loop of [tokenize] on a match. *)
Lemma tokenize_loop_step fuel i s out kind text rest :
  tok_re_match s = Some (kind, text, rest) →
  tokenize_loop (S fuel) i s out =
    let i' := (i + (List.length s - List.length rest))%nat in
    match kind with
    | COMMENT => tokenize_loop fuel i' rest out
    | GLP => tokenize_loop fuel i' rest (out ++ [LP])
    | GRP => tokenize_loop fuel i' rest (out ++ [RP])
    | GSTR => v ← _unescape_string text; tokenize_loop fuel i' rest (out ++ [STR v])
    | GINT => n ← int_of_str (str text); tokenize_loop fuel i' rest (out ++ [INT n])
    | GSYM => tokenize_loop fuel i' rest (out ++ [SYM (str text)])
    end.
Proof.
  intros H. destruct s as [|c r]; [done|]. cbn [tokenize_loop]. by rewrite H.
Qed.


Lemma tokenize_loop_json fuel i s ws rest out :
  Forall (λ c, isspace c = true) ws →
  ∃ i', tokenize_loop (S fuel) i (ws ++ chars (json_dumps_str s) ++ rest) out
        = tokenize_loop fuel i' rest (out ++ [STR s]).
Proof.
  intros Hws. eexists.
  rewrite (tokenize_loop_step _ _ _ _ GSTR (chars (json_dumps_str s)) rest).
  2:{ apply tok_re_match_skip_whitespace; [done|]. apply tok_re_match_json. }
  cbn zeta iota. rewrite unescape_json. reflexivity.
Qed.

Lemma tokenize_loop_nil fuel i out : tokenize_loop fuel i [] out = Ok (out ++ [EOF]).
Proof. by destruct fuel. Qed.


(** X2: the lexer reads what [json.dumps] writes: for every str [s],
    [tokenize(json.dumps(s))] is the token [STR s] and [EOF], so the
    escapes of [json.dumps] are undone by [_unescape_string]. *)
Theorem tokenize_reads_json_dumps (s : string) :
  tokenize (json_dumps_str s) = Ok [STR s; EOF].
Proof.
  unfold tokenize.
  destruct (tokenize_loop_json (String.length (json_dumps_str s)) 0 s [] [] [])
    as [i' H]; [constructor|].
  cbn [app] in H. rewrite app_nil_r in H. rewrite H. apply tokenize_loop_nil.
Qed.

End lexer_literals.


(** ** The shape of a match and the errors of the lexer *)

Section lexer_shape.
Import TinyLisp.

Lemma take_drop_while p l : take_while p l ++ drop_while p l = l.
Proof. induction l as [|c l IH]; simpl; [done|]. destruct (p c); simpl; congruence. Qed.

Lemma take_while_Forall p l : Forall (λ c, p c = true) (take_while p l).
Proof.
  induction l as [|c l IH]; simpl; [constructor|].
  destruct (p c) eqn:E; by constructor.
Qed.

Lemma str_body_split n : ∀ s b rest,
  (List.length s ≤ n)%nat → str_body s = Some (b, rest) → s = b ++ dquote :: rest.
Proof.
  induction n as [|n IH]; intros [|c r] b rest Hn H; simpl in *; try done; try lia.
  assert (Hq : (if bool_decide (c = dquote) then Some ([], r) else None) = Some (b, rest)
               → c :: r = b ++ dquote :: rest).
  { destruct (bool_decide_reflect (c = dquote)); [|done]. by intros [= <- <-]; subst. }
  destruct (negb (bool_decide (c = dquote)) && negb (bool_decide (c = backslash))).
  - destruct (str_body r) as [[b' rest']|] eqn:E; simpl in H; [|by apply Hq].
    injection H as <- <-. apply IH in E; [|lia]. by rewrite E.
  - destruct (bool_decide (c = backslash)); [|by apply Hq].
    destruct r as [|d r']; [by apply Hq|].
    destruct (not_newline d); [|by apply Hq].
    destruct (str_body r') as [[b' rest']|] eqn:E; simpl in H; [|by apply Hq].
    injection H as <- <-. apply IH in E; [|simpl in *; lia]. by rewrite E.
Qed.

Lemma m_digits_split s ds rest :
  m_digits s = Some (ds, rest) →
  s = ds ++ rest ∧ ds ≠ [] ∧ Forall (λ c, isdigit c = true) ds.
Proof.
  unfold m_digits. pose proof (take_drop_while isdigit s) as Hs.
  pose proof (take_while_Forall isdigit s) as Hd.
  destruct (take_while isdigit s) eqn:E; [done|]. intros [= <- <-]. done.
Qed.

(** The text of an INT match is digits after an optional minus sign. *)
Lemma m_int_split s k text rest :
  m_int s = Some (k, text, rest) →
  s = text ++ rest ∧
  ∃ ds, ds ≠ [] ∧ Forall (λ c, isdigit c = true) ds ∧
        (text = ds ∨ text = "-"%char :: ds).
Proof.
  unfold m_int. intros H.
  assert (Hplain : ('(ds, rest) ← m_digits s; Some (GINT, ds, rest)) = Some (k, text, rest) →
                   s = text ++ rest ∧
                   ∃ ds, ds ≠ [] ∧ Forall (λ c, isdigit c = true) ds ∧
                         (text = ds ∨ text = "-"%char :: ds)).
  { destruct (m_digits s) as [[ds r]|] eqn:E; simpl; [|done].
    intros [= <- <- <-]. apply m_digits_split in E as (-> & ? & ?). eauto 6. }
  destruct s as [|c r]; [by apply Hplain|].
  destruct (decide (c = "-"%char)) as [->|Hc].
  - destruct (m_digits r) as [[ds r']|] eqn:E; [|by apply Hplain].
    injection H as <- <- <-. apply m_digits_split in E as (-> & ? & ?). eauto 6.
  - apply Hplain. rewrite <- H.
    destruct c as [[] [] [] [] [] [] [] []]; try done.
Qed.

Lemma alternatives_split s k text rest :
  alternatives s = Some (k, text, rest) → s = text ++ rest ∧ text ≠ [].
Proof.
  unfold alternatives, first_of. simpl.
  destruct (m_comment s) as [m|] eqn:E1.
  { intros [= ->]. unfold m_comment in E1. repeat case_match; simplify_eq/=.
    by rewrite take_drop_while. }
  destruct (m_lp s) as [m|] eqn:E2.
  { intros [= ->]. unfold m_lp in E2. repeat case_match; by simplify_eq/=. }
  destruct (m_rp s) as [m|] eqn:E3.
  { intros [= ->]. unfold m_rp in E3. repeat case_match; by simplify_eq/=. }
  destruct (m_str s) as [m|] eqn:E4.
  { intros [= ->]. unfold m_str in E4. destruct s as [|c r]; [done|].
    destruct (bool_decide_reflect (c = dquote)) as [->|]; [|done].
    destruct (str_body r) as [[b rest']|] eqn:E; simplify_eq/=.
    eapply str_body_split in E; [|done]. subst r. split; [|done].
    by rewrite <- app_assoc. }
  destruct (m_int s) as [m|] eqn:E5.
  { intros [= ->]. apply m_int_split in E5 as (-> & ds & Hne & _ & [->| ->]); done. }
  destruct (m_sym s) as [m|] eqn:E6; [|done].
  intros [= ->]. unfold m_sym in E6. repeat case_match; simplify_eq/=.
  by rewrite take_drop_while.
Qed.

Lemma tok_re_match_split s k text rest :
  tok_re_match s = Some (k, text, rest) →
  ∃ ws, s = ws ++ text ++ rest ∧ Forall (λ c, isspace c = true) ws ∧ text ≠ [].
Proof.
  revert k text rest. induction s as [|c r IH]; intros k text rest; simpl.
  - intros H. apply alternatives_split in H as [-> ?]. by exists [].
  - assert (Ha : alternatives (c :: r) = Some (k, text, rest) →
                 ∃ ws, c :: r = ws ++ text ++ rest ∧
                       Forall (λ c, isspace c = true) ws ∧ text ≠ []).
    { intros H. apply alternatives_split in H as [-> ?]. by exists []. }
    destruct (isspace c) eqn:Hc; [|done].
    destruct (tok_re_match r) as [[[k' t'] rest']|] eqn:E; [|done].
    intros [= -> -> ->]. destruct (IH _ _ _ eq_refl) as (ws & -> & Hws & Hne).
    exists (c :: ws). split_and!; [done| |done]. by constructor.
Qed.

(** X3: a match of [_tok_re] is a run of whitespace, then the text of
    the token, which is never empty, then the rest of the input: the
    loop of [tokenize] moves forward by at least one character in every
    round, which is why it ends. *)
Theorem match_takes_whitespace_and_a_token s k text rest :
  tok_re_match s = Some (k, text, rest) →
  ∃ ws, s = ws ++ text ++ rest ∧ Forall (λ c, isspace c = true) ws ∧
        text ≠ [] ∧ (List.length rest < List.length s)%nat.
Proof.
  intros H. destruct (tok_re_match_split _ _ _ _ H) as (ws & -> & Hws & Hne).
  exists ws. split_and!; try done.
  rewrite !length_app. destruct text; [done|]. simpl. lia.
Qed.

Lemma match_takes_whitespace_and_a_token_witness :
  ∃ ws, chars " 12)" = ws ++ chars "12" ++ chars ")" ∧
        Forall (λ c, isspace c = true) ws ∧
        chars "12" ≠ [] ∧ (List.length (chars ")") < List.length (chars " 12)"))%nat.
Proof.
  apply (match_takes_whitespace_and_a_token (chars " 12)") GINT (chars "12") (chars ")")).
  reflexivity.
Defined.

Lemma int_digits_total ds : ∀ b acc,
  Forall (λ c, isdigit c = true) ds → ds ≠ [] ∨ b = true →
  ∃ n, int_digits b acc ds = Some n.
Proof.
  induction ds as [|c ds IH]; intros b acc Hd Hb.
  - destruct Hb as [?| ->]; [done|]. by eexists.
  - apply Forall_cons in Hd as [Hc Hd]. simpl. rewrite Hc. apply IH; auto.
Qed.

(** [int] accepts the text of every INT match. *)
Lemma int_of_str_m_int s k text rest :
  m_int s = Some (k, text, rest) → ∃ n, int_of_str (str text) = Ok n.
Proof.
  intros H. apply m_int_split in H as (_ & ds & Hne & Hd & Ht).
  destruct (int_digits_total ds false 0 Hd) as [n Hn]; [by left|].
  destruct (int_of_digits ds n Hne Hd Hn) as [H1 H2].
  destruct Ht as [->| ->]; eauto.
Qed.

Lemma alternatives_GINT s text rest :
  alternatives s = Some (GINT, text, rest) → m_int s = Some (GINT, text, rest).
Proof.
  unfold alternatives, first_of. simpl.
  destruct (m_comment s) as [m|] eqn:E1.
  { intros [= ->]. unfold m_comment in E1. repeat case_match; simplify_eq/=. }
  destruct (m_lp s) as [m|] eqn:E2.
  { intros [= ->]. unfold m_lp in E2. repeat case_match; simplify_eq/=. }
  destruct (m_rp s) as [m|] eqn:E3.
  { intros [= ->]. unfold m_rp in E3. repeat case_match; simplify_eq/=. }
  destruct (m_str s) as [m|] eqn:E4.
  { intros [= ->]. unfold m_str in E4. repeat case_match; simplify_eq/=.
    destruct (str_body _) as [[??]|]; simplify_eq/=. }
  destruct (m_int s) as [m|] eqn:E5; [congruence|].
  destruct (m_sym s) as [m|] eqn:E6; [|done].
  intros [= ->]. unfold m_sym in E6. repeat case_match; simplify_eq/=.
Qed.

Lemma tok_re_match_GINT s text rest :
  tok_re_match s = Some (GINT, text, rest) → ∃ s', m_int s' = Some (GINT, text, rest).
Proof.
  induction s as [|c r IH]; simpl.
  - intros H. apply alternatives_GINT in H. eauto.
  - destruct (isspace c).
    + destruct (tok_re_match r) as [[[k' t'] rest']|] eqn:E.
      * intros [= -> -> ->]. by apply IH.
      * intros H. apply alternatives_GINT in H. eauto.
    + intros H. apply alternatives_GINT in H. eauto.
Qed.

(** What the loop of [tokenize] returns and raises. *)
Lemma tokenize_loop_cases fuel : ∀ i s out,
  (List.length s ≤ fuel)%nat →
  match tokenize_loop fuel i s out with
  | Ok toks => ∃ new, toks = out ++ new ++ [EOF] ∧ EOF ∉ new
  | Raise e =>
      (∃ msg, e = SyntaxError msg) ∨ (∃ text, _unescape_string text = Raise e)
  end.
Proof.
  induction fuel as [|fuel IH]; intros i s out Hlen.
  - destruct s; [|simpl in Hlen; lia]. simpl. exists []. split; [done|]. set_solver.
  - destruct s as [|c r].
    { simpl. exists []. split; [done|]. set_solver. }
    cbn [tokenize_loop].
    destruct (tok_re_match (c :: r)) as [[[k text] rest]|] eqn:E; [|by eauto].
    pose proof (tok_re_match_shorter _ _ _ _ E) as Hs.
    assert (Hrest : (List.length rest ≤ fuel)%nat) by (simpl in *; lia).
    assert (Hstep : ∀ i' t, t ≠ EOF →
      match tokenize_loop fuel i' rest (out ++ [t]) with
      | Ok toks => ∃ new, toks = out ++ new ++ [EOF] ∧ EOF ∉ new
      | Raise e =>
          (∃ msg, e = SyntaxError msg) ∨ (∃ text, _unescape_string text = Raise e)
      end).
    { intros i' t Ht. specialize (IH i' rest (out ++ [t]) Hrest).
      destruct (tokenize_loop fuel i' rest (out ++ [t])) as [toks|e]; [|done].
      destruct IH as (new & -> & Hnew). exists (t :: new).
      split; [by rewrite <- !app_assoc|]. set_solver. }
    destruct k; try by apply Hstep.
    + by apply IH.
    + destruct (_unescape_string text) as [v|e] eqn:Ev; simpl; [by apply Hstep|].
      right. by exists text.
    + apply tok_re_match_GINT in E as [s' E].
      apply int_of_str_m_int in E as [n ->]. simpl. by apply Hstep.
Qed.

Lemma tokenize_cases src :
  match tokenize src with
  | Ok toks => ∃ body, toks = body ++ [EOF] ∧ EOF ∉ body
  | Raise e =>
      (∃ msg, e = SyntaxError msg) ∨ (∃ text, _unescape_string text = Raise e)
  end.
Proof.
  apply (tokenize_loop_cases (S (String.length src)) 0 (chars src) []).
  rewrite length_chars. lia.
Qed.

(** X4: the token list of a source ends with [EOF] and holds no other
    [EOF], so the reader, which stops at [EOF], never reads past the end
    of the list. *)
Theorem tokens_end_with_one_EOF src toks :
  tokenize src = Ok toks → ∃ body, toks = body ++ [EOF] ∧ EOF ∉ body.
Proof. intros H. pose proof (tokenize_cases src) as Hc. by rewrite H in Hc. Qed.

Lemma tokens_end_with_one_EOF_witness :
  ∃ body, [LP; SYM "f"; INT 1; RP; EOF] = body ++ [EOF] ∧ EOF ∉ body.
Proof.
  apply (tokens_end_with_one_EOF Scenario.comment_at_eof_src). reflexivity.
Defined.



End lexer_shape.


(** ** The reader *)

Section reader_facts.
Import TinyLisp.

Lemma form_tokens_length x : (1 ≤ List.length (form_tokens x))%nat.
Proof. destruct x; simpl; lia. Qed.

Lemma forms_tokens_length forms :
  (List.length forms ≤ List.length (mjoin (form_tokens <$> forms)))%nat.
Proof.
  induction forms as [|x forms IH]; [done|].
  rewrite fmap_cons, mjoin_cons, length_app. pose proof (form_tokens_length x).
  simpl. lia.
Qed.

Lemma form_tokens_no_EOF x : EOF ∉ form_tokens x.
Proof.
  induction x as [n|s|name|items IH] using form_ind'; simpl; try set_solver.
  assert (EOF ∉ mjoin (form_tokens <$> items)).
  { induction IH as [|x l Hx _ IHl]; [set_solver|].
    rewrite fmap_cons, mjoin_cons. set_solver. }
  set_solver.
Qed.

Lemma forms_tokens_no_EOF forms : EOF ∉ mjoin (form_tokens <$> forms).
Proof.
  induction forms as [|x l IH]; [set_solver|].
  rewrite fmap_cons, mjoin_cons. pose proof (form_tokens_no_EOF x). set_solver.
Qed.

(** One round of [parse_items] and of [parse_forms] on a token that
    starts a form. *)
Lemma parse_items_step f x tl lst :
  parse_items (S f) (form_tokens x ++ tl) lst
  = '(y, rest) ← parse_one f (form_tokens x ++ tl); parse_items f rest (lst ++ [y]).
Proof. destruct x; reflexivity. Qed.

Lemma parse_forms_step f x tl done_ :
  parse_forms (S f) (form_tokens x ++ tl) done_
  = '(y, rest) ← parse_one (2 * List.length (form_tokens x ++ tl)) (form_tokens x ++ tl);
    parse_forms f rest (done_ ++ [y]).
Proof. destruct x; reflexivity. Qed.

Lemma parse_items_reads_back items :
  Forall reads_back items →
  ∀ fuel lst rest,
    (2 * List.length (mjoin (form_tokens <$> items) ++ RP :: rest) + 1 ≤ fuel)%nat →
    parse_items fuel (mjoin (form_tokens <$> items) ++ RP :: rest) lst
    = Ok (FList (lst ++ items), rest).
Proof.
  induction 1 as [|x items Hx _ IH]; intros fuel lst rest Hf.
  - destruct fuel; [simpl in Hf; lia|]. simpl. by rewrite app_nil_r.
  - rewrite fmap_cons, mjoin_cons in *. rewrite <- app_assoc in *.
    destruct fuel as [|f]; [lia|].
    rewrite parse_items_step, Hx by lia. cbn [mbind result_bind].
    pose proof (form_tokens_length x). rewrite length_app in Hf.
    rewrite IH by lia. by rewrite <- app_assoc.
Qed.

Lemma parse_one_reads_back x : reads_back x.
Proof.
  induction x as [n|s|name|items IH] using form_ind'; intros fuel rest Hf.
  - by destruct fuel.
  - by destruct fuel.
  - by destruct fuel.
  - cbn [form_tokens app] in *. rewrite <- app_assoc in *. cbn [app] in *.
    destruct fuel as [|f]; [simpl in Hf; lia|].
    cbn [parse_one]. rewrite (parse_items_reads_back items IH); [done|].
    simpl in Hf. lia.
Qed.

Lemma parse_forms_reads_back forms : ∀ fuel done_ junk,
  (List.length forms ≤ fuel)%nat →
  parse_forms fuel (mjoin (form_tokens <$> forms) ++ EOF :: junk) done_
  = Ok (done_ ++ forms).
Proof.
  induction forms as [|x forms IH]; intros fuel done_ junk Hf.
  - destruct fuel; simpl; by rewrite app_nil_r.
  - rewrite fmap_cons, mjoin_cons. rewrite <- app_assoc.
    destruct fuel as [|f]; [simpl in Hf; lia|].
    rewrite parse_forms_step, parse_one_reads_back by lia. cbn [mbind result_bind].
    rewrite IH by (simpl in Hf; lia). by rewrite <- app_assoc.
Qed.

(** What the reader accepts is the tokens of what it returns. *)
Lemma parse_sound fuel :
  (∀ toks x rest, parse_one fuel toks = Ok (x, rest) → toks = form_tokens x ++ rest) ∧
  (∀ toks lst y rest,
      parse_items fuel toks lst = Ok (y, rest) →
      ∃ items, y = FList (lst ++ items) ∧
               toks = mjoin (form_tokens <$> items) ++ RP :: rest).
Proof.
  induction fuel as [|f [IH1 IH2]].
  - split.
    + intros [|[]] x rest H; by simplify_eq/=.
    + intros [|[]] lst y rest H; simplify_eq/=.
      exists []. by rewrite app_nil_r.
  - split.
    + intros [|[] toks] x rest H; simplify_eq/=; try done.
      apply IH2 in H as (items & -> & ->). simpl. by rewrite <- app_assoc.
    + intros [|t toks] lst y rest H; [done|].
      assert (Hstep :
        ('(x, r1) ← parse_one f (t :: toks); parse_items f r1 (lst ++ [x])) = Ok (y, rest) →
        ∃ items, y = FList (lst ++ items) ∧
                 t :: toks = mjoin (form_tokens <$> items) ++ RP :: rest).
      { destruct (parse_one f (t :: toks)) as [[x r1]|] eqn:E; simpl; [|done].
        intros H2. apply IH1 in E. apply IH2 in H2 as (items & -> & ->).
        exists (x :: items). rewrite <- app_assoc. split; [done|].
        by rewrite fmap_cons, mjoin_cons, <- app_assoc. }
      destruct t; try (by apply Hstep); simplify_eq/=.
      exists []. by rewrite app_nil_r.
Qed.

Lemma parse_forms_sound fuel : ∀ toks done_ forms,
  parse_forms fuel toks done_ = Ok forms →
  ∃ new junk, forms = done_ ++ new ∧ toks = mjoin (form_tokens <$> new) ++ EOF :: junk.
Proof.
  induction fuel as [|f IH]; intros [|t toks] done_ forms H; try done.
  - destruct t; simplify_eq/=. exists [], toks. by rewrite app_nil_r.
  - assert (Hstep :
      ('(x, rest) ← parse_one (2 * List.length (t :: toks)) (t :: toks);
       parse_forms f rest (done_ ++ [x])) = Ok forms →
      ∃ new junk, forms = done_ ++ new ∧
                  t :: toks = mjoin (form_tokens <$> new) ++ EOF :: junk).
    { destruct (parse_one _ (t :: toks)) as [[x r1]|] eqn:E; simpl; [|done].
      intros H2. apply (proj1 (parse_sound _)) in E.
      apply IH in H2 as (new & junk & -> & ->).
      exists (x :: new), junk. rewrite <- app_assoc. split; [done|].
      by rewrite fmap_cons, mjoin_cons, <- app_assoc. }
    destruct t; try (by apply Hstep); simplify_eq/=.
    exists [], toks. by rewrite app_nil_r.
Qed.

(** X6: the reader inverts the flattening of forms into tokens, and
    accepts nothing else: on the tokens of a source, [parse_sexprs]
    returns the forms [forms] exactly when the tokens are those of
    [forms], in order, followed by [EOF]. *)
Theorem parse_sexprs_inverts_form_tokens src forms :
  parse_sexprs src = Ok forms ↔
  tokenize src = Ok (mjoin (form_tokens <$> forms) ++ [EOF]).
Proof.
  unfold parse_sexprs. split.
  - pose proof (tokenize_cases src) as Hc.
    destruct (tokenize src) as [toks|e]; simpl; [|done].
    destruct Hc as (body & -> & Hbody). intros H.
    apply parse_forms_sound in H as (new & junk & -> & H). simpl.
    destruct junk as [|t junk _] using rev_ind.
    + apply app_inj_tail in H as [-> _]. done.
    + change (EOF :: junk ++ [t]) with ((EOF :: junk) ++ [t]) in H.
      rewrite app_assoc in H. apply app_inj_tail in H as [-> _].
      destruct Hbody. set_solver.
  - intros ->. simpl. rewrite parse_forms_reads_back; [done|].
    rewrite length_app. pose proof (forms_tokens_length forms). simpl. lia.
Qed.

(** The reader never reads past [EOF]: with an [EOF] among the tokens
    it returns with the [EOF] still ahead, or raises [SyntaxError]. *)
Lemma parse_raises fuel :
  (∀ toks, (2 * List.length toks ≤ fuel)%nat → EOF ∈ toks →
      match parse_one fuel toks with
      | Ok (x, rest) => EOF ∈ rest ∧ (List.length rest < List.length toks)%nat
      | Raise e => ∃ msg, e = SyntaxError msg
      end) ∧
  (∀ toks lst, (2 * List.length toks + 1 ≤ fuel)%nat → EOF ∈ toks →
      match parse_items fuel toks lst with
      | Ok (x, rest) => EOF ∈ rest ∧ (List.length rest < List.length toks)%nat
      | Raise e => ∃ msg, e = SyntaxError msg
      end).
Proof.
  induction fuel as [|f [IH1 IH2]].
  - split.
    + intros [|t toks] Hf Hin; [set_solver|simpl in Hf; lia].
    + intros toks lst Hf. lia.
  - split.
    + intros [|t toks] Hf Hin; [set_solver|].
      assert (2 * List.length toks + 1 ≤ f)%nat as Ha by (simpl in *; lia).
      destruct t; simpl; eauto; try (split; [set_solver|lia]).
      assert (EOF ∈ toks) as Hin' by set_solver.
      specialize (IH2 toks [] Ha Hin').
      destruct (parse_items f toks []) as [[x rest]|e]; [|done].
      destruct IH2. split; [done|]. lia.
    + intros [|t toks] lst Hf Hin; [set_solver|].
      assert (Hstep :
        match '(x, r1) ← parse_one f (t :: toks); parse_items f r1 (lst ++ [x]) with
        | Ok (x, rest) => EOF ∈ rest ∧ (List.length rest < List.length (t :: toks))%nat
        | Raise e => ∃ msg, e = SyntaxError msg
        end).
      { assert (2 * List.length (t :: toks) ≤ f)%nat as Ha by lia.
        specialize (IH1 (t :: toks) Ha Hin).
        destruct (parse_one f (t :: toks)) as [[x r1]|e]; simpl; [|done].
        destruct IH1 as [Hin1 Hlen1].
        assert (2 * List.length r1 + 1 ≤ f)%nat as Hb by lia.
        specialize (IH2 r1 (lst ++ [x]) Hb Hin1).
        destruct (parse_items f r1 (lst ++ [x])) as [[y rest]|e]; [|done].
        destruct IH2. split; [done|]. simpl in *; lia. }
      destruct t; try exact Hstep; simpl; eauto.
      split; [set_solver|lia].
Qed.

Lemma parse_forms_raises fuel : ∀ toks done_ e,
  (List.length toks ≤ fuel)%nat → EOF ∈ toks →
  parse_forms fuel toks done_ = Raise e → ∃ msg, e = SyntaxError msg.
Proof.
  induction fuel as [|f IH]; intros [|t toks] done_ e Hf Hin H;
    try (simpl in Hf; lia); try set_solver.
  assert (Hstep :
    ('(x, rest) ← parse_one (2 * List.length (t :: toks)) (t :: toks);
     parse_forms f rest (done_ ++ [x])) = Raise e → ∃ msg, e = SyntaxError msg).
  { pose proof (proj1 (parse_raises (2 * List.length (t :: toks))) (t :: toks)) as Hp.
    specialize (Hp ltac:(lia) Hin).
    destruct (parse_one _ (t :: toks)) as [[x r1]|e1]; simpl.
    - destruct Hp as [Hin1 Hlen1]. apply IH; [simpl in *; lia|done].
    - intros [= <-]. done. }
  destruct t; by apply Hstep.
Qed.

(** X7: [parse_sexprs] raises what [tokenize] raises, or [SyntaxError]:
    the reader itself never indexes past the end of the token list, and
    its recursion always ends. *)
Theorem parse_sexprs_raises src e :
  parse_sexprs src = Raise e →
  tokenize src = Raise e ∨ ∃ msg, e = SyntaxError msg.
Proof.
  unfold parse_sexprs. pose proof (tokenize_cases src) as Hc.
  destruct (tokenize src) as [toks|e']; simpl; [|intros [= <-]; by left].
  destruct Hc as (body & -> & _). intros H. right.
  eapply parse_forms_raises; [| |exact H]; [done|set_solver].
Qed.

Lemma parse_sexprs_raises_witness :
  tokenize "(f" = Raise (SyntaxError "Unclosed '('") ∨
  ∃ msg, SyntaxError "Unclosed '('" = SyntaxError msg.
Proof. apply (parse_sexprs_raises "(f"). reflexivity. Defined.

End reader_facts.


(** ** The tables of the load phase *)

Section load_tables.
Import VM.

Lemma operand_Ok inst k s : operand inst k = Ok s ↔ inst !! k = Some s.
Proof. unfold operand. destruct (inst !! k); split; congruence. Qed.

Lemma last_inst_here op name inst prog :
  is_inst op name inst → no_inst op name prog → last_inst op name (inst :: prog) 0.
Proof.
  intros Hi Hno. split; [by exists inst|].
  intros [|k] inst' Hk Hl; [lia|]. simpl in Hl. by eapply Hno.
Qed.

Lemma last_inst_later op name inst prog k :
  last_inst op name (inst :: prog) (S k) ↔ last_inst op name prog k.
Proof.
  split; intros [(inst' & Hk & Hi) Hlater].
  - split; [by exists inst'|]. intros k' inst'' Hlt Hk'.
    apply (Hlater (S k')); [lia|done].
  - split; [by exists inst'|]. intros [|k'] inst'' Hlt Hk'; [lia|].
    apply (Hlater k'); [lia|done].
Qed.

Lemma last_inst_zero op name inst prog :
  last_inst op name (inst :: prog) 0 ↔ is_inst op name inst ∧ no_inst op name prog.
Proof.
  split.
  - intros [(inst' & [= <-] & Hi) Hlater]. split; [done|].
    intros k inst' Hk. apply (Hlater (S k)); [lia|done].
  - intros [Hi Hno]. by apply last_inst_here.
Qed.

Lemma no_inst_cons op name inst prog :
  no_inst op name (inst :: prog) ↔ ¬ is_inst op name inst ∧ no_inst op name prog.
Proof.
  split.
  - intros H. split; [by apply (H 0%nat)|]. intros k inst' Hk. by apply (H (S k)).
  - intros [H0 H] [|k] inst' Hk; simplify_eq/=; [done|by eapply H].
Qed.

Lemma no_inst_nil op name : no_inst op name [].
Proof. intros k inst Hk. by rewrite lookup_nil in Hk. Qed.

Lemma last_inst_not_no op name prog k :
  last_inst op name prog k → no_inst op name prog → False.
Proof. intros [(inst & Hk & Hi) _] Hno. by eapply Hno. Qed.

Lemma table_spec_nil op i m : table_spec op i [] m m.
Proof.
  intros name j. split.
  - intros Hm. right. split; [done|]. apply no_inst_nil.
  - intros [(k & _ & (inst & Hk & _) & _)|[Hm _]]; [by rewrite lookup_nil in Hk|done].
Qed.

Lemma table_spec_skip op i inst prog m table :
  (∀ name, ¬ is_inst op name inst) →
  table_spec op (S i) prog m table → table_spec op i (inst :: prog) m table.
Proof.
  intros Hno IH name j. rewrite (IH name j). split.
  - intros [(k & -> & Hl)|[Hm Hn]].
    + left. exists (S k). split; [lia|]. by apply last_inst_later.
    + right. split; [done|]. apply no_inst_cons. split; [apply Hno|done].
  - intros [([|k] & -> & Hl)|[Hm Hn]].
    + apply last_inst_zero in Hl as [Hi _]. by destruct (Hno name).
    + left. exists k. split; [lia|]. by apply last_inst_later in Hl.
    + right. split; [done|]. by apply no_inst_cons in Hn as [_ Hn].
Qed.

Lemma table_spec_bind op i inst prog m table n :
  is_inst op n inst →
  table_spec op (S i) prog (<[n := i]> m) table →
  table_spec op i (inst :: prog) m table.
Proof.
  intros Hi IH name j. rewrite (IH name j). split.
  - intros [(k & -> & Hl)|[Hm Hn]].
    + left. exists (S k). split; [lia|]. by apply last_inst_later.
    + destruct (decide (n = name)) as [->|Hne].
      * rewrite lookup_insert_eq in Hm. injection Hm as <-.
        left. exists 0%nat. split; [lia|]. by apply last_inst_here.
      * rewrite lookup_insert_ne in Hm by done. right. split; [done|].
        apply no_inst_cons. split; [|done]. intros [_ Hi']. destruct Hi. congruence.
  - intros [([|k] & -> & Hl)|[Hm Hn]].
    + apply last_inst_zero in Hl as [Hi' Hn]. right.
      assert (n = name) as -> by (destruct Hi, Hi'; congruence).
      rewrite lookup_insert_eq. split; [f_equal; lia|done].
    + left. exists k. split; [lia|]. by apply last_inst_later in Hl.
    + apply no_inst_cons in Hn as [Hn0 Hn].
      right. split; [|done]. rewrite lookup_insert_ne; [done|].
      intros ->. by apply Hn0.
Qed.

Lemma load_labels_spec prog : ∀ i m labels,
  load_labels i prog m = Ok labels → table_spec "LABEL" i prog m labels.
Proof.
  induction prog as [|inst prog IH]; intros i m labels H; simpl in H.
  - injection H as <-. apply table_spec_nil.
  - destruct (operand inst 0) as [op|] eqn:Hop; simplify_eq/=.
    apply operand_Ok in Hop.
    destruct (String.eqb op "LABEL") eqn:Eop.
    + apply String.eqb_eq in Eop as ->.
      destruct (operand inst 1) as [n|] eqn:Hn; simplify_eq/=.
      apply operand_Ok in Hn.
      eapply table_spec_bind; [by split|]. by apply IH.
    + apply String.eqb_neq in Eop.
      apply table_spec_skip; [|by apply IH].
      intros name [H0 _]. congruence.
Qed.

(** The two function tables are filled together. *)
Lemma load_functions_spec prog : ∀ i e p fun_entry fun_params,
  load_functions i prog e p = Ok (fun_entry, fun_params) →
  table_spec "DEFUN" (S i) prog e fun_entry ∧
  (∀ name ps,
      fun_params !! name = Some ps ↔
      (∃ k inst, last_inst "DEFUN" name prog k ∧ prog !! k = Some inst ∧ ps = drop 2 inst) ∨
      (p !! name = Some ps ∧ no_inst "DEFUN" name prog)).
Proof.
  induction prog as [|inst prog IH]; intros i e p fe fp H; simpl in H.
  - injection H as <- <-. split; [apply table_spec_nil|].
    intros name ps. split.
    + intros Hm. right. split; [done|]. apply no_inst_nil.
    + intros [(k & inst & _ & Hk & _)|[Hm _]]; [by rewrite lookup_nil in Hk|done].
  - destruct (operand inst 0) as [op|] eqn:Hop; simplify_eq/=.
    apply operand_Ok in Hop.
    destruct (String.eqb op "DEFUN") eqn:Eop.
    + apply String.eqb_eq in Eop as ->.
      destruct (operand inst 1) as [n|] eqn:Hn; simplify_eq/=.
      apply operand_Ok in Hn.
      destruct (IH _ _ _ _ _ H) as [IHe IHp]. clear IH H.
      assert (Hi : is_inst "DEFUN" n inst) by by split.
      split.
      * intros name j. rewrite (IHe name j). split.
        -- intros [(k & -> & Hl)|[Hm Hno]].
           ++ left. exists (S k). split; [lia|]. by apply last_inst_later.
           ++ destruct (decide (n = name)) as [->|Hne].
              ** rewrite lookup_insert_eq in Hm. injection Hm as <-.
                 left. exists 0%nat. split; [lia|]. by apply last_inst_here.
              ** rewrite lookup_insert_ne in Hm by done. right. split; [done|].
                 apply no_inst_cons. split; [|done]. intros [_ Hi']. congruence.
        -- intros [([|k] & -> & Hl)|[Hm Hno]].
           ++ apply last_inst_zero in Hl as [Hi' Hno]. right.
              assert (n = name) as -> by (destruct Hi'; congruence).
              rewrite lookup_insert_eq. split; [f_equal; lia|done].
           ++ left. exists k. split; [lia|]. by apply last_inst_later in Hl.
           ++ apply no_inst_cons in Hno as [Hn0 Hno].
              right. split; [|done]. rewrite lookup_insert_ne; [done|].
              intros ->. by apply Hn0.
      * intros name ps. rewrite (IHp name ps). split.
        -- intros [(k & inst' & Hl & Hk & ->)|[Hm Hno]].
           ++ left. exists (S k), inst'. split_and!; [by apply last_inst_later|done|done].
           ++ destruct (decide (n = name)) as [->|Hne].
              ** rewrite lookup_insert_eq in Hm. injection Hm as <-.
                 left. exists 0%nat, inst. split_and!; [by apply last_inst_here|done|done].
              ** rewrite lookup_insert_ne in Hm by done. right. split; [done|].
                 apply no_inst_cons. split; [|done]. intros [_ Hi']. congruence.
        -- intros [([|k] & inst' & Hl & Hk & ->)|[Hm Hno]].
           ++ apply last_inst_zero in Hl as [Hi' Hno]. right. simplify_eq/=.
              assert (n = name) as -> by (destruct Hi'; congruence).
              rewrite lookup_insert_eq. done.
           ++ left. exists k, inst'. split_and!; [by apply last_inst_later in Hl|done|done].
           ++ apply no_inst_cons in Hno as [Hn0 Hno].
              right. split; [|done]. rewrite lookup_insert_ne; [done|].
              intros ->. by apply Hn0.
    + apply String.eqb_neq in Eop.
      destruct (IH _ _ _ _ _ H) as [IHe IHp]. clear IH H.
      assert (Hno : ∀ name, ¬ is_inst "DEFUN" name inst).
      { intros name [H0 _]. congruence. }
      split; [by apply table_spec_skip|].
      intros name ps. rewrite (IHp name ps). split.
      * intros [(k & inst' & Hl & Hk & ->)|[Hm Hn]].
        -- left. exists (S k), inst'. split_and!; [by apply last_inst_later|done|done].
        -- right. split; [done|]. apply no_inst_cons. split; [apply Hno|done].
      * intros [([|k] & inst' & Hl & Hk & ->)|[Hm Hn]].
        -- apply last_inst_zero in Hl as [Hi _]. by destruct (Hno name).
        -- left. exists k, inst'. split_and!; [by apply last_inst_later in Hl|done|done].
        -- right. split; [done|]. by apply no_inst_cons in Hn as [_ Hn].
Qed.

Lemma load_Ok bytecode_text stdin P :
  load bytecode_text stdin = Ok P →
  prog P = load_prog bytecode_text ∧
  load_labels 0 (prog P) ∅ = Ok (labels P) ∧
  load_functions 0 (prog P) ∅ ∅ = Ok (fun_entry P, fun_params P).
Proof.
  unfold load. intros H.
  destruct (load_labels 0 _ ∅) as [l|] eqn:El; simplify_eq/=.
  destruct (load_functions 0 _ ∅ ∅) as [[e p]|] eqn:Ef; simplify_eq/=. done.
Qed.

(** X8: the label map of a loaded program sends a name to the index of
    the last [LABEL] instruction that carries it, and holds no other
    name: a jump to a label that is defined twice goes to the second
    definition, and a jump to a name without [LABEL] finds no entry. *)
Theorem labels_point_to_last_LABEL bytecode_text stdin P name j :
  load bytecode_text stdin = Ok P →
  labels P !! name = Some j ↔ last_inst "LABEL" name (prog P) j.
Proof.
  intros (_ & Hl & _)%load_Ok. apply load_labels_spec in Hl.
  rewrite (Hl name j). split.
  - intros [(k & -> & Hk)|[Hm _]]; [done|by rewrite lookup_empty in Hm].
  - intros H. left. by exists j.
Qed.

Lemma labels_point_to_last_LABEL_witness :
  labels Scenario.tables_loaded !! "a" = Some 2%nat ↔
  last_inst "LABEL" "a" (prog Scenario.tables_loaded) 2.
Proof.
  apply (labels_point_to_last_LABEL Scenario.tables_bytecode EmptyString).
  vm_compute. reflexivity.
Defined.

(** X9: the function tables of a loaded program: the entry point of a
    name is the index after its last [DEFUN] instruction, its parameters
    are the operands of that instruction after the name, and the two
    tables have the same names, so the default of [fun_params.get] in
    [CALL] is never used. *)
Theorem functions_point_after_last_DEFUN bytecode_text stdin P name :
  load bytecode_text stdin = Ok P →
  (∀ j, fun_entry P !! name = Some j ↔
        ∃ k, j = S k ∧ last_inst "DEFUN" name (prog P) k) ∧
  (∀ ps, fun_params P !! name = Some ps ↔
         ∃ k inst, last_inst "DEFUN" name (prog P) k ∧
                   prog P !! k = Some inst ∧ ps = drop 2 inst) ∧
  (fun_entry P !! name = None ↔ fun_params P !! name = None).
Proof.
  intros (_ & _ & Hf)%load_Ok. apply load_functions_spec in Hf as [He Hp].
  assert (H1 : ∀ j, fun_entry P !! name = Some j ↔
                    ∃ k, j = S k ∧ last_inst "DEFUN" name (prog P) k).
  { intros j. rewrite (He name j). split.
    - intros [(k & -> & Hk)|[Hm _]]; [by exists k|by rewrite lookup_empty in Hm].
    - intros (k & -> & Hk). left. by exists k. }
  assert (H2 : ∀ ps, fun_params P !! name = Some ps ↔
                     ∃ k inst, last_inst "DEFUN" name (prog P) k ∧
                               prog P !! k = Some inst ∧ ps = drop 2 inst).
  { intros ps. rewrite (Hp name ps). split.
    - intros [?|[Hm _]]; [done|by rewrite lookup_empty in Hm].
    - intros H. by left. }
  split_and!; [done..|].
  rewrite !eq_None_not_Some. unfold is_Some.
  split; intros Hn [x Hx]; apply Hn.
  - apply H2 in Hx as (k & inst & Hl & _). exists (S k). apply H1. by exists k.
  - apply H1 in Hx as (k & -> & Hl). pose proof Hl as [(inst & Hk & _) _].
    exists (drop 2 inst). apply H2. by exists k, inst.
Qed.

Lemma functions_point_after_last_DEFUN_witness :
  (∀ j, fun_entry Scenario.tables_loaded !! "f" = Some j ↔
        ∃ k, j = S k ∧ last_inst "DEFUN" "f" (prog Scenario.tables_loaded) k) ∧
  (∀ ps, fun_params Scenario.tables_loaded !! "f" = Some ps ↔
         ∃ k inst, last_inst "DEFUN" "f" (prog Scenario.tables_loaded) k ∧
                   prog Scenario.tables_loaded !! k = Some inst ∧ ps = drop 2 inst) ∧
  (fun_entry Scenario.tables_loaded !! "f" = None ↔
   fun_params Scenario.tables_loaded !! "f" = None).
Proof.
  apply (functions_point_after_last_DEFUN Scenario.tables_bytecode EmptyString).
  vm_compute. reflexivity.
Defined.

End load_tables.


(** ** Variables, calls and what a run keeps *)

Section vm_runtime.
Import VM.

Lemma pop_stack_snoc st rest v :
  stack st = rest ++ [v] → pop_stack st = Ok (v, set_stack rest st).
Proof. intros H. unfold pop_stack. by rewrite H, pop_snoc. Qed.

Lemma pop_stack_Ok st v st' :
  pop_stack st = Ok (v, st') → ∃ rest, stack st = rest ++ [v] ∧ st' = set_stack rest st.
Proof.
  unfold pop_stack. destruct (pop (stack st)) as [[x r]|] eqn:E; simpl; [|done].
  intros [= <- <-]. apply pop_Ok in E. by exists r.
Qed.

Lemma pop_stack_same st v st' :
  pop_stack st = Ok (v, st') →
  heap st' = heap st ∧ frames st' = frames st ∧ out_lines st' = out_lines st ∧
  stdout st' = stdout st ∧ gensym_id st' = gensym_id st.
Proof. intros (rest & _ & ->)%pop_stack_Ok. done. Qed.

(** X10: [STORE x] followed by [LOAD x] puts the operand stack back as
    it was: the value popped by [STORE] is the one [LOAD] finds in the
    current frame and pushes, at top level and inside a call alike. *)
Theorem store_then_load P st x st1 :
  reachable P st →
  exec P ["STORE"; x] st = Ok (Next st1) →
  ∃ v st2, stack st = stack st1 ++ [v] ∧
           current_frame st1 !! x = Some v ∧
           exec P ["LOAD"; x] st1 = Ok (Next st2) ∧
           stack st2 = stack st.
Proof.
  intros Hr H. apply reachable_frames_ok in Hr as Hok.
  unfold exec in H. simpl in H.
  destruct (pop_stack st) as [[v st0]|] eqn:Hpop; simplify_eq/=.
  apply pop_stack_Ok in Hpop as (rest & Hst & ->).
  destruct (top_nonempty (frames st) (frames_ok_nonempty _ Hok)) as (cur & Htop & Hlast).
  unfold store_var in H. simpl in H. rewrite Htop in H. simplify_eq/=.
  assert (cur < List.length (heap st))%nat as Hcur.
  { destruct Hok as [_ _ _ Ha]. rewrite Forall_forall in Ha. apply Ha.
    rewrite last_lookup in Hlast. by eapply list_elem_of_lookup_2. }
  set (st1 := mkState rest (<[cur := <[x := v]> (deref (heap st) cur)]> (heap st))
                (frames st) (callstack st) (S (ip st)) (out_lines st)
                (gensym_id st) (stdout st)).
  assert (Hc : current_frame st1 !! x = Some v).
  { unfold current_frame, deref. simpl. rewrite Hlast.
    rewrite list_lookup_insert_eq by done. simpl. by rewrite lookup_insert_eq. }
  exists v, (set_ip (S (ip st1)) (push v st1)). split_and!; try done.
  unfold exec. simpl. unfold load_var, top. simpl. rewrite Hlast. simpl.
  unfold current_frame in Hc. simpl in Hc. rewrite Hlast in Hc. by rewrite Hc.
Qed.

Lemma store_then_load_witness :
  ∃ v st2, stack Scenario.store_in_call_entered
           = stack Scenario.store_in_call_stored ++ [v] ∧
           current_frame Scenario.store_in_call_stored !! "x" = Some v ∧
           exec Scenario.store_in_call ["LOAD"; "x"] Scenario.store_in_call_stored
           = Ok (Next st2) ∧
           stack st2 = stack Scenario.store_in_call_entered.
Proof.
  apply (store_then_load Scenario.store_in_call Scenario.store_in_call_entered "x"
           Scenario.store_in_call_stored).
  - apply store_in_call_reachable.
  - vm_compute. reflexivity.
Defined.

(** [for p, v in zip(params, args)] *)
Lemma bind_params_other params : ∀ args m x,
  x ∉ params → bind_params params args m !! x = m !! x.
Proof.
  induction params as [|p params IH]; intros [|v args] m x Hx; simpl; try done.
  apply not_elem_of_cons in Hx as [Hne Hx].
  rewrite IH by done. by rewrite lookup_insert_ne.
Qed.

Lemma bind_params_lookup params : ∀ args m i p v,
  NoDup params → params !! i = Some p → args !! i = Some v →
  bind_params params args m !! p = Some v.
Proof.
  induction params as [|q params IH]; intros [|w args] m i p v Hnd Hp Hv;
    try done; destruct i as [|i]; simplify_eq/=.
  - apply NoDup_cons in Hnd as [Hq _].
    rewrite bind_params_other by done. by rewrite lookup_insert_eq.
  - apply NoDup_cons in Hnd as [_ Hnd]. by eapply IH.
Qed.

Lemma pop_args_app n rest args :
  List.length args = n → pop_args (Z.of_nat n) (rest ++ args) = Ok (args, rest).
Proof.
  intros <-. unfold pop_args. rewrite Nat2Z.id, length_app.
  rewrite bool_decide_eq_true_2 by lia.
  replace (List.length rest + List.length args - List.length args)%nat
    with (List.length rest) by lia.
  by rewrite drop_app_length, take_app_length.
Qed.

(** What a [CALL] with the right number of arguments does. *)
Lemma exec_call P st f a params args rest entry :
  int_of_str a = Ok (Z.of_nat (List.length params)) →
  fun_entry P !! f = Some entry →
  fun_params P !! f = Some params →
  stack st = rest ++ args → List.length args = List.length params →
  exec P ["CALL"; f; a] st
  = Ok (Next (mkState rest (heap st ++ [bind_params params args ∅])
                (frames st ++ [List.length (heap st)]) (callstack st ++ [S (ip st)]) entry
                (out_lines st) (gensym_id st) (stdout st))).
Proof.
  intros Ha He Hp Hst Hlen.
  unfold exec. cbn -[int_of_str]. rewrite Ha. cbn. rewrite He, Hp. cbn.
  rewrite bool_decide_eq_true_2 by done. cbn.
  rewrite Hst, <- Hlen, pop_args_app by done. reflexivity.
Qed.

(** X11: [CALL] binds the parameters by position.  With as many
    arguments on the stack as the function has parameters, and the
    parameter names pairwise different, the new current frame holds
    each parameter with the argument at its position and no other
    name; the arguments are taken off the stack, execution goes on at
    the entry point, and the global frame is untouched. *)
Theorem call_binds_parameters P st f a params args rest entry :
  reachable P st →
  int_of_str a = Ok (Z.of_nat (List.length params)) →
  fun_entry P !! f = Some entry →
  fun_params P !! f = Some params →
  stack st = rest ++ args → List.length args = List.length params →
  NoDup params →
  ∃ st1,
    exec P ["CALL"; f; a] st = Ok (Next st1) ∧
    ip st1 = entry ∧ stack st1 = rest ∧
    (∀ i p v, params !! i = Some p → args !! i = Some v →
              current_frame st1 !! p = Some v) ∧
    (∀ x, x ∉ params → current_frame st1 !! x = None) ∧
    global_frame st1 = global_frame st.
Proof.
  intros Hr Ha He Hp Hst Hlen Hnd. apply reachable_frames_ok in Hr as Hok.
  eexists. split; [by apply exec_call|].
  assert (Hcur : ∀ s h fs cs i o g out,
            current_frame (mkState s (h ++ [bind_params params args ∅])
                             (fs ++ [List.length h]) cs i o g out)
            = bind_params params args ∅).
  { intros. unfold current_frame, deref. cbn. rewrite last_snoc.
    by rewrite lookup_app_r, Nat.sub_diag by done. }
  cbn [ip stack]. split_and!; try done.
  - intros i p v Hi Hv. rewrite Hcur. by eapply bind_params_lookup.
  - intros x Hx. rewrite Hcur. by rewrite bind_params_other.
  - unfold global_frame, deref. cbn. destruct Hok as [Hb _ _ Ha'].
    rewrite lookup_app_l; [done|].
    rewrite Forall_forall in Ha'. apply Ha'. by eapply list_elem_of_lookup_2.
Qed.

Lemma call_two_reachable : reachable Scenario.call_two Scenario.call_two_pushed.
Proof.
  apply (reachable_round _ (set_ip 1 (push (VInt 1) init)) ["PUSH"; "2"]);
    [|reflexivity|vm_compute; reflexivity].
  apply (reachable_round _ init ["PUSH"; "1"]);
    [apply reachable_init|reflexivity|vm_compute; reflexivity].
Qed.

Lemma call_two_params_NoDup : NoDup ["x"; "y"].
Proof. apply NoDup_cons. split; [set_solver|apply NoDup_singleton]. Qed.

Lemma call_binds_parameters_witness :
  ∃ st1,
    exec Scenario.call_two ["CALL"; "f"; "2"] Scenario.call_two_pushed = Ok (Next st1) ∧
    ip st1 = 4%nat ∧ stack st1 = [] ∧
    (∀ i p v, ["x"; "y"] !! i = Some p → [VInt 1; VInt 2] !! i = Some v →
              current_frame st1 !! p = Some v) ∧
    (∀ x, x ∉ ["x"; "y"] → current_frame st1 !! x = None) ∧
    global_frame st1 = global_frame Scenario.call_two_pushed.
Proof.
  apply (call_binds_parameters Scenario.call_two Scenario.call_two_pushed "f" "2"
           ["x"; "y"] [VInt 1; VInt 2] [] 4%nat).
  - apply call_two_reachable.
  - reflexivity.
  - reflexivity.
  - reflexivity.
  - reflexivity.
  - reflexivity.
  - apply call_two_params_NoDup.
Defined.

(** X12: a [CALL] followed at once by [RET] is a round trip.  The
    [RET] comes back to the instruction after the [CALL] with the frame
    stack and the return stack as they were before the call; the
    arguments are gone from the operand stack, and the dict made for the
    call stays in the store, after the dicts that were there. *)
Theorem call_then_ret P st f a params args rest entry :
  reachable P st →
  int_of_str a = Ok (Z.of_nat (List.length params)) →
  fun_entry P !! f = Some entry →
  fun_params P !! f = Some params →
  stack st = rest ++ args → List.length args = List.length params →
  ∃ st1 st2,
    exec P ["CALL"; f; a] st = Ok (Next st1) ∧
    exec P ["RET"] st1 = Ok (Next st2) ∧
    ip st2 = S (ip st) ∧ stack st2 = rest ∧
    frames st2 = frames st ∧ callstack st2 = callstack st ∧
    heap st2 = heap st ++ [bind_params params args ∅].
Proof.
  intros Hr Ha He Hp Hst Hlen. apply reachable_frames_ok in Hr as Hok.
  pose proof (frames_ok_nonempty _ Hok) as Hne.
  eexists _, (mkState rest (heap st ++ [bind_params params args ∅])
                (frames st) (callstack st) (S (ip st))
                (out_lines st) (gensym_id st) (stdout st)).
  split; [by apply exec_call|]. split_and!; try done.
  unfold exec. cbn. rewrite length_app. cbn.
  rewrite bool_decide_eq_false_2.
  2:{ destruct (frames st); [done|]. simpl. lia. }
  rewrite !pop_snoc. reflexivity.
Qed.

Lemma call_then_ret_witness :
  ∃ st1 st2,
    exec Scenario.call_two ["CALL"; "f"; "2"] Scenario.call_two_pushed = Ok (Next st1) ∧
    exec Scenario.call_two ["RET"] st1 = Ok (Next st2) ∧
    ip st2 = S (ip Scenario.call_two_pushed) ∧ stack st2 = [] ∧
    frames st2 = frames Scenario.call_two_pushed ∧
    callstack st2 = callstack Scenario.call_two_pushed ∧
    heap st2 = heap Scenario.call_two_pushed
               ++ [bind_params ["x"; "y"] [VInt 1; VInt 2] ∅].
Proof.
  apply (call_then_ret Scenario.call_two Scenario.call_two_pushed "f" "2"
           ["x"; "y"] [VInt 1; VInt 2] [] 4%nat).
  - apply call_two_reachable.
  - reflexivity.
  - reflexivity.
  - reflexivity.
  - reflexivity.
  - reflexivity.
Defined.

(** *** What a round and a run keep *)

Lemma ends_with_newline_app t u :
  ends_with_newline u = true → ends_with_newline (t +:+ u) = true.
Proof.
  unfold ends_with_newline. rewrite chars_app, last_app.
  by destruct (last (chars u)).
Qed.

Lemma whole_lines_nil : whole_lines EmptyString.
Proof. by left. Qed.

Lemma whole_lines_app t u : whole_lines t → whole_lines u → whole_lines (t +:+ u).
Proof.
  intros Ht [->|Hu]; [by rewrite string_app_nil_r|].
  right. by apply ends_with_newline_app.
Qed.

Lemma whole_lines_print s : whole_lines (s +:+ nl).
Proof. right. by apply ends_with_newline_app. Qed.

Lemma round_keeps_same st st' :
  heap st' = heap st → out_lines st' = out_lines st → stdout st' = stdout st →
  gensym_id st' = gensym_id st → round_keeps st st'.
Proof.
  intros Hh Ho Hs Hg. split; rewrite ?Hh, ?Ho, ?Hs, ?Hg; try done.
  exists EmptyString. split; [by rewrite string_app_nil_r|by left].
Qed.

Lemma round_keeps_eq s st st' :
  heap s = heap st → frames s = frames st → out_lines s = out_lines st →
  stdout s = stdout st → gensym_id s = gensym_id st →
  round_keeps s st' → round_keeps st st'.
Proof.
  intros Hh Hf Ho Hs Hg [? ? ? ? ?].
  split; rewrite <- ?Hh, <- ?Hf, <- ?Ho, <- ?Hs, <- ?Hg; done.
Qed.

Ltac ok_cases :=
  repeat match goal with
  | H : mbind _ ?m = Ok _ |- _ =>
      let x := fresh "x" in
      destruct m as [x|] eqn:?;
      [lazymatch type of x with
       | (_ * _)%type => destruct x
       | _ => idtac
       end|];
      simplify_eq/=
  | H : (if ?b then _ else _) = Ok _ |- _ => destruct b eqn:?; simplify_eq/=
  | H : match ?m with _ => _ end = Ok _ |- _ => destruct m eqn:?; simplify_eq/=
  end.

Lemma binop_keeps f st o :
  binop f st = Ok o → ∃ st', o = Next st' ∧ round_keeps st st'.
Proof.
  unfold binop. intros H. ok_cases.
  repeat match goal with
  | H : pop_stack _ = Ok _ |- _ => apply pop_stack_same in H as (? & ? & ? & ? & ?)
  end.
  eexists. split; [done|]. apply round_keeps_same; simpl; congruence.
Qed.

Lemma call_prim_keeps P f args st v st' :
  call_prim P f args st = Ok (v, st') →
  heap st' = heap st ∧ frames st' = frames st ∧
  out_lines st `prefix_of` out_lines st' ∧ stdout st' = stdout st ∧
  (gensym_id st ≤ gensym_id st')%nat ∧ stack st' = stack st.
Proof.
  unfold call_prim. intros H.
  repeat (case_match; simplify_eq/=; try done);
    repeat match goal with
    | H : mbind _ ?m = Ok _ |- _ => destruct m eqn:?; simplify_eq/=
    end; split_and!; try done; try lia.
  by apply prefix_app_r.
Qed.

Lemma store_var_keeps name v st st' :
  store_var name v st = Ok st' → round_keeps st (set_ip (S (ip st')) st').
Proof.
  unfold store_var. destruct (top (frames st)) as [cur|] eqn:Ht; simpl; [|done].
  apply top_Ok in Ht. intros [= <-]. split; simpl; rewrite ?length_insert; try done.
  - intros r Hr Hne. rewrite list_lookup_insert_ne; [done|]. congruence.
  - exists EmptyString. split; [by rewrite string_app_nil_r|by left].
Qed.

Lemma exec_round_keeps P inst st o :
  exec P inst st = Ok o →
  ∃ st', (o = Next st' ∨ o = Break st') ∧ round_keeps st st'.
Proof.
  intros H. unfold exec in H.
  destruct (operand inst 0) as [op|] eqn:Hop; simplify_eq/=.
  repeat match type of H with
  | (if ?b then _ else _) = _ => destruct b eqn:?
  end;
  try match type of H with
  | binop _ _ = _ =>
      apply binop_keeps in H as (st' & -> & ?); exists st'; by auto
  end.
  all: ok_cases; unfold advance in *; simplify_eq/=.
  all: repeat match goal with
    | H : pop_stack _ = Ok _ |- _ => apply pop_stack_same in H as (? & ? & ? & ? & ?)
    | H : call_prim _ _ _ _ = Ok _ |- _ =>
        apply call_prim_keeps in H as (? & ? & ? & ? & ? & ?)
    end; simpl in *.
  all: eexists; (split; [by eauto|]).
  all: try by (apply round_keeps_same; simpl; congruence).
  - eapply round_keeps_eq; [..|by eapply store_var_keeps]; congruence.
  - eapply round_keeps_eq; [done..|]. split; simpl; try done.
    eexists. split; [done|]. apply whole_lines_print.
  - split; simpl; try done.
    + rewrite length_app. lia.
    + intros r Hr _. by rewrite lookup_app_l.
    + exists EmptyString. split; [by rewrite string_app_nil_r|by left].
  - repeat match goal with
    | H : heap _ = _ |- _ => revert H
    | H : stdout _ = _ |- _ => revert H
    end. intros Hs Hh.
    split; simpl; rewrite ?Hs, ?Hh; try done.
    exists EmptyString. split; [by rewrite string_app_nil_r|by left].
Qed.

(** X13: frame isolation.  A round of the loop that does not raise
    writes no dict other than that of the current frame: the dicts of
    the frames below it, and those left behind by calls that have
    returned, are after the round what they were before it, whatever
    the instruction.  No dict is dropped, the emitted lines are only
    appended to, and what is printed is whole lines. *)
Theorem round_writes_current_frame_only P inst st o :
  exec P inst st = Ok o →
  ∃ st', (o = Next st' ∨ o = Break st') ∧ round_keeps st st'.
Proof. apply exec_round_keeps. Qed.

Lemma round_writes_current_frame_only_witness :
  ∃ st', (Next Scenario.store_in_call_stored = Next st' ∨
          Next Scenario.store_in_call_stored = Break st') ∧
         round_keeps Scenario.store_in_call_entered st'.
Proof.
  apply (round_writes_current_frame_only Scenario.store_in_call ["STORE"; "x"]
           Scenario.store_in_call_entered (Next Scenario.store_in_call_stored)).
  vm_compute. reflexivity.
Defined.

Lemma run_keeps_refl st : run_keeps st st.
Proof.
  split; try done. exists EmptyString. split; [by rewrite string_app_nil_r|by left].
Qed.

Lemma run_keeps_round st st1 st2 :
  round_keeps st st1 → run_keeps st1 st2 → run_keeps st st2.
Proof.
  intros [H1 _ H2 (t & Ht & Hwt) H3] [G1 G2 (u & Hu & Hwu) G3]. split.
  - lia.
  - by etrans.
  - exists (t +:+ u). split; [by rewrite Hu, Ht, string_app_assoc|].
    by apply whole_lines_app.
  - lia.
Qed.

Lemma run_loop_keeps P fuel : ∀ st st',
  run_loop P fuel st = Some (Ok st') → run_keeps st st'.
Proof.
  induction fuel as [|fuel IH]; intros st st' H; simpl in H.
  - destruct (prog P !! ip st); simplify_eq. apply run_keeps_refl.
  - destruct (prog P !! ip st) as [inst|]; simplify_eq; [|apply run_keeps_refl].
    destruct (exec P inst st) as [o|] eqn:E; simplify_eq.
    apply exec_round_keeps in E as (st1 & [->| ->] & Hk).
    + eapply run_keeps_round; [done|]. by apply IH.
    + simplify_eq. eapply run_keeps_round; [done|]. apply run_keeps_refl.
Qed.

(** X14: a run only adds to its outputs.  From any state to the state
    in which the loop is left, the lines given to [emit] are kept in
    their order with the new ones after them, the text printed is kept
    with whole lines after it, the counter of [gensym] has not gone
    down, and no dict has been dropped. *)
Theorem run_only_appends P fuel st st' :
  run_loop P fuel st = Some (Ok st') → run_keeps st st'.
Proof. apply run_loop_keeps. Qed.

Lemma run_only_appends_witness :
  run_keeps Scenario.store_in_call_entered Scenario.store_in_call_stored.
Proof.
  apply (run_only_appends Scenario.store_in_call 1 Scenario.store_in_call_entered).
  vm_compute. reflexivity.
Defined.

(** X15: what [main] of vm.py writes to stdout is empty or ends with a
    newline, for every bytecode text and every input on which the run
    ends without an exception. *)
Theorem main_writes_whole_lines fuel bytecode_text stdin out :
  main fuel bytecode_text stdin = Some (Ok out) → whole_lines out.
Proof.
  unfold main, run. intros H.
  destruct (load bytecode_text stdin) as [P|]; [|done].
  destruct (run_loop P fuel init) as [[st|]|] eqn:Hrun; try done.
  apply run_loop_keeps in Hrun as [_ _ (t & Ht & Hwt) _].
  change (stdout init) with EmptyString in Ht.
  change (EmptyString +:+ t) with t in Ht.
  destruct (finish st) as [[printed emitted]|] eqn:Hfin; [|done].
  unfold finish in Hfin. destruct (join_values nl (out_lines st)); simplify_eq/=.
  destruct (bool_decide (emitted = EmptyString)); [done|].
  destruct (ends_with_newline emitted) eqn:He; right.
  - by apply ends_with_newline_app.
  - by apply ends_with_newline_app, ends_with_newline_app.
Qed.

Lemma main_writes_whole_lines_witness :
  whole_lines ("1" +:+ nl).
Proof.
  apply (main_writes_whole_lines 3 Scenario.emit_line_bytecode EmptyString).
  vm_compute. reflexivity.
Defined.

(** *** Single instructions and primitives *)

(** X16: the primitive [gensym] never returns the same name twice for
    the same prefix: a later call, in a state whose counter is not below
    the one the earlier call left, returns another name. *)
Theorem gensym_never_repeats P p st1 st2 n1 n2 s1 s2 :
  call_prim P prim_gensym [p] st1 = Ok (n1, s1) →
  (gensym_id s1 ≤ gensym_id st2)%nat →
  call_prim P prim_gensym [p] st2 = Ok (n2, s2) →
  gensym_id s1 = S (gensym_id st1) ∧ n1 ≠ n2.
Proof.
  simpl. intros [= <- <-] Hle [= <- <-]. simpl in *. split; [done|].
  intros [= H]. apply (inj (String.app _)) in H. apply (inj pretty) in H. lia.
Qed.

Lemma gensym_never_repeats_witness :
  gensym_id (set_ip 0 (mkState [] [∅] [0%nat] [] 0 [] 1 EmptyString)) = S (gensym_id init) ∧
  VStr "L1" ≠ VStr "L2".
Proof.
  apply (gensym_never_repeats Scenario.no_code (VStr "L") init
           (mkState [] [∅] [0%nat] [] 0 [] 1 EmptyString) (VStr "L1") (VStr "L2")
           (set_ip 0 (mkState [] [∅] [0%nat] [] 0 [] 1 EmptyString))
           (mkState [] [∅] [0%nat] [] 0 [] 2 EmptyString)).
  - reflexivity.
  - simpl. lia.
  - reflexivity.
Defined.

Lemma py_eq_int_zero v :
  py_eq v (VInt 0) = match v with VInt 0 => true | _ => false end.
Proof. by destruct v as [[| |]| | |]. Qed.

(** X17: [JZ] pops one value and jumps exactly when it is the int 0: any
    other value, the empty str and the empty list included, goes on with
    the next instruction.  The label is looked up only when the jump is
    taken, and a label that is not in the map raises [KeyError] then. *)
Theorem jz_jumps_on_int_zero P st rest v l :
  stack st = rest ++ [v] →
  exec P ["JZ"; l] st =
    match v with
    | VInt 0 =>
        match labels P !! l with
        | Some i => Ok (Next (set_ip i (set_stack rest st)))
        | None => Raise (KeyError l)
        end
    | _ => Ok (advance (set_stack rest st))
    end.
Proof.
  intros Hst. unfold exec. cbn. rewrite (pop_stack_snoc _ _ _ Hst). cbn.
  rewrite py_eq_int_zero. destruct v as [[| |]| | |]; try done.
  cbn. unfold label_index. by destruct (labels P !! l).
Qed.

Lemma jz_jumps_on_int_zero_witness :
  exec Scenario.no_code ["JZ"; "END1"] (push (VStr EmptyString) init)
  = Ok (advance (set_stack [] (push (VStr EmptyString) init))).
Proof.
  apply (jz_jumps_on_int_zero Scenario.no_code (push (VStr EmptyString) init) []
           (VStr EmptyString) "END1").
  reflexivity.
Defined.

(** X18: [DIV] on two ints is floor division: the quotient pushed
    leaves a remainder of the sign of the divisor, and a divisor 0
    raises [ZeroDivisionError]. *)
Theorem div_is_floor_division P st rest (a b : Z) :
  stack st = rest ++ [VInt a; VInt b] →
  (b = 0 → exec P ["DIV"] st = Raise ZeroDivisionError) ∧
  (b ≠ 0 →
     ∃ q r, exec P ["DIV"] st = Ok (advance (push (VInt q) (set_stack rest st))) ∧
            a = b * q + r ∧ (0 ≤ r < b ∨ b < r ≤ 0)).
Proof.
  intros Hst. unfold exec. cbn. unfold binop.
  rewrite (pop_stack_snoc st (rest ++ [VInt a]) (VInt b)) by by rewrite Hst, <- app_assoc.
  cbn. rewrite (pop_stack_snoc _ rest (VInt a)) by done. cbn. split.
  - intros ->. done.
  - intros Hb. rewrite bool_decide_eq_false_2 by done. cbn.
    exists (a `div` b), (a `mod` b). split_and!.
    + done.
    + by apply Z.div_mod.
    + destruct (Z.lt_trichotomy b 0) as [Hn|[?|Hp]]; [|done|].
      * right. by apply Z.mod_neg_bound.
      * left. by apply Z.mod_pos_bound.
Qed.

Lemma div_is_floor_division_witness :
  (2 = 0 → exec Scenario.no_code ["DIV"] (set_stack [VInt (-7); VInt 2] init)
           = Raise ZeroDivisionError) ∧
  (2 ≠ 0 →
     ∃ q r, exec Scenario.no_code ["DIV"] (set_stack [VInt (-7); VInt 2] init)
            = Ok (advance (push (VInt q)
                             (set_stack [] (set_stack [VInt (-7); VInt 2] init)))) ∧
            -7 = 2 * q + r ∧ (0 ≤ r < 2 ∨ 2 < r ≤ 0)).
Proof.
  apply (div_is_floor_division Scenario.no_code (set_stack [VInt (-7); VInt 2] init)
           [] (-7) 2).
  reflexivity.
Defined.

(** X19: the five type predicates sort every value into exactly one
    class: of [int?], [str?], [sym?], [pair?] and [null?] one answers 1
    and the others answer 0, and none of them changes the state. *)
Theorem type_predicates_partition P st x :
  ∃ bi bs by_ bp bn : bool,
    call_prim P prim_intp [x] st = Ok (bool_int bi, st) ∧
    call_prim P prim_strp [x] st = Ok (bool_int bs, st) ∧
    call_prim P prim_symp [x] st = Ok (bool_int by_, st) ∧
    call_prim P prim_pairp [x] st = Ok (bool_int bp, st) ∧
    call_prim P prim_nullp [x] st = Ok (bool_int bn, st) ∧
    (Z.b2z bi + Z.b2z bs + Z.b2z by_ + Z.b2z bp + Z.b2z bn = 1).
Proof.
  eexists _, _, _, _, _. split_and!; try reflexivity.
  destruct x as [| | |[|]]; reflexivity.
Qed.

End vm_runtime.


(** ** From emitted lines to loaded instructions *)

Section loader_facts.
Import VM.

Lemma splitlines_go_plain l : ∀ cur rest,
  Forall (λ c, is_linebreak c = false) l →
  splitlines_go cur (l ++ rest) = splitlines_go (reverse l ++ cur) rest.
Proof.
  induction l as [|c l IH]; intros cur rest Hl; [done|].
  apply Forall_cons in Hl as [Hc Hl]. cbn [app splitlines_go].
  assert ((code c =? 13)%N = false) as ->.
  { destruct c as [[] [] [] [] [] [] [] []]; try discriminate Hc; reflexivity. }
  rewrite Hc, IH by done. by rewrite reverse_cons, <- app_assoc.
Qed.

Lemma splitlines_go_line l rest :
  Forall (λ c, is_linebreak c = false) l →
  splitlines_go [] (l ++ newline :: rest) = l :: splitlines_go [] rest.
Proof.
  intros Hl. rewrite splitlines_go_plain by done. cbn.
  by rewrite app_nil_r, reverse_involutive.
Qed.

Lemma splitlines_go_last l :
  Forall (λ c, is_linebreak c = false) l →
  splitlines_go [] l = match l with [] => [] | _ :: _ => [l] end.
Proof.
  intros Hl. rewrite <- (app_nil_r l) at 1. rewrite splitlines_go_plain by done.
  rewrite app_nil_r. cbn. destruct l as [|c l]; [done|].
  destruct (reverse (c :: l)) as [|d k] eqn:E.
  - apply (f_equal reverse) in E. by rewrite reverse_involutive in E.
  - by rewrite <- E, reverse_involutive.
Qed.

Lemma join_cons sep x y l : join sep (x :: y :: l) = x +:+ sep +:+ join sep (y :: l).
Proof. reflexivity. Qed.

Lemma decode_line_nil : decode_line [] = None.
Proof. reflexivity. Qed.

Lemma load_prog_join lines :
  Forall (λ line, Forall (λ c, is_linebreak c = false) (chars line)) lines →
  load_prog (join nl lines) = omap decode_line (chars <$> lines).
Proof.
  unfold load_prog, splitlines.
  induction 1 as [|x lines Hx Hl IH]; [done|].
  destruct lines as [|y lines].
  - cbn [join String.concat fmap list_fmap omap list_omap].
    rewrite splitlines_go_last by done.
    destruct (chars x) as [|c l] eqn:E; [done|]. reflexivity.
  - rewrite join_cons, !chars_app. change (chars nl) with [newline].
    cbn [app]. rewrite splitlines_go_line by done.
    rewrite fmap_cons. cbn [omap list_omap]. by rewrite IH.
Qed.

Lemma load_prog_join_nl lines :
  Forall (λ line, Forall (λ c, is_linebreak c = false) (chars line)) lines →
  load_prog (join nl lines +:+ nl) = omap decode_line (chars <$> lines).
Proof.
  intros Hl.
  destruct lines as [|x0 lines0]; [reflexivity|].
  remember (x0 :: lines0) as lines eqn:El.
  assert (lines ≠ []) as Hne by by subst.
  clear El.
  assert (join nl lines +:+ nl = join nl (lines ++ [EmptyString])) as ->.
  { clear Hl. induction lines as [|x [|y l] IH]; [done| |].
    - change (join nl ([x] ++ [EmptyString])) with (x +:+ nl +:+ EmptyString).
      change (join nl [x]) with x. by rewrite string_app_nil_r.
    - change ((x :: y :: l) ++ [EmptyString]) with (x :: y :: (l ++ [EmptyString])).
      rewrite !join_cons, !string_app_assoc. do 2 f_equal. by apply IH. }
  rewrite load_prog_join.
  - rewrite fmap_app, omap_app. cbn. by rewrite app_nil_r.
  - apply Forall_app. split; [done|]. by repeat constructor.
Qed.

(** X20: the loader reads joined lines back one by one.  For lines
    without line-break characters, the instructions loaded from the
    lines joined by newlines, as [compile_program] and [run] return
    them, with or without a newline at the end, are the instructions
    of the single lines, in order; a blank line or comment line gives
    none. *)
Theorem loader_reads_joined_lines lines :
  Forall (λ line, Forall (λ c, is_linebreak c = false) (chars line)) lines →
  load_prog (join nl lines) = omap decode_line (chars <$> lines) ∧
  load_prog (join nl lines +:+ nl) = omap decode_line (chars <$> lines).
Proof.
  intros Hl. split; [by apply load_prog_join|by apply load_prog_join_nl].
Qed.

Lemma loader_reads_joined_lines_witness :
  load_prog (join nl ["PUSH 1"; "# note"; "PRINT"])
  = omap decode_line (chars <$> ["PUSH 1"; "# note"; "PRINT"]) ∧
  load_prog (join nl ["PUSH 1"; "# note"; "PRINT"] +:+ nl)
  = omap decode_line (chars <$> ["PUSH 1"; "# note"; "PRINT"]).
Proof.
  apply (loader_reads_joined_lines ["PUSH 1"; "# note"; "PRINT"]).
  apply Forall_forall. intros line Hline. apply Forall_forall. intros c Hc.
  repeat (apply elem_of_cons in Hline as [->|Hline];
          [repeat (apply elem_of_cons in Hc as [->|Hc]; [reflexivity|]);
           by apply elem_of_nil in Hc|]).
  by apply elem_of_nil in Hline.
Defined.

(** *** One line *)

Lemma drop_while_snoc_stop p l c :
  p c = false → ∃ k, drop_while p (l ++ [c]) = k ++ [c].
Proof.
  intros Hc. induction l as [|d l [k IH]]; simpl.
  - rewrite Hc. by exists [].
  - destruct (p d); [by exists k|]. by exists (d :: l).
Qed.

Lemma drop_while_snoc_id p l c : p c = false → ∀ d, p d = false →
  drop_while p (d :: l ++ [c]) = d :: l ++ [c].
Proof. intros _ d Hd. simpl. by rewrite Hd. Qed.

(** [strip] leaves a text alone that neither starts nor ends with
    whitespace. *)
Lemma strip_chars_id l :
  head (isspace <$> l) ≠ Some true → last (isspace <$> l) ≠ Some true →
  strip_chars l = l.
Proof.
  intros Hh Hl. unfold strip_chars.
  assert (drop_while isspace l = l) as ->.
  { destruct l as [|c l]; [done|]. simpl in *. by destruct (isspace c). }
  assert (drop_while isspace (reverse l) = reverse l) as ->.
  { destruct l as [|c l _] using rev_ind; [done|].
    rewrite reverse_snoc. rewrite fmap_app in Hl.
    change (isspace <$> [c]) with [isspace c] in Hl. rewrite last_snoc in Hl. simpl.
    by destruct (isspace c). }
  apply reverse_involutive.
Qed.

(** What [strip] returns does not start with whitespace. *)
Lemma strip_chars_head raw c l : strip_chars raw = c :: l → isspace c = false.
Proof.
  unfold strip_chars.
  assert (Hd : drop_while isspace raw = [] ∨
               ∃ d k, drop_while isspace raw = d :: k ∧ isspace d = false).
  { induction raw as [|a raw IH]; simpl; [by left|].
    destruct (isspace a) eqn:E; [done|]. right. by exists a, raw. }
  destruct Hd as [->|(d & k & -> & Hd)]; [done|].
  rewrite reverse_cons.
  destruct (drop_while_snoc_stop isspace (reverse k) d Hd) as [k' ->].
  rewrite reverse_snoc. by intros [= <- _].
Qed.

Lemma split_go_nonempty l : ∀ cur, cur ≠ [] → split_go cur l ≠ [].
Proof.
  induction l as [|c l IH]; intros cur Hc; simpl.
  - by destruct cur.
  - destruct (isspace c); [by destruct cur|]. by apply IH.
Qed.

Lemma split_go_word w : ∀ cur rest,
  Forall (λ c, isspace c = false) w →
  split_go cur (w ++ rest) = split_go (reverse w ++ cur) rest.
Proof.
  induction w as [|c w IH]; intros cur rest Hw; [done|].
  apply Forall_cons in Hw as [Hc Hw]. cbn [app split_go].
  rewrite Hc, IH by done. by rewrite reverse_cons, <- app_assoc.
Qed.

(** A word: a str that is not empty and has no whitespace. *)
Lemma split_words ws :
  Forall (λ w, w ≠ EmptyString ∧ Forall (λ c, isspace c = false) (chars w)) ws →
  split (chars (join " " ws)) = ws.
Proof.
  unfold split. induction 1 as [|w ws [Hne Hw] Hws IH]; [done|].
  assert (Hcur : reverse (chars w) ++ [] ≠ []).
  { rewrite app_nil_r. destruct w as [|c w]; [done|].
    intros E. apply (f_equal reverse) in E. by rewrite reverse_involutive in E. }
  assert (Hstr : str (reverse (reverse (chars w) ++ [])) = w).
  { by rewrite app_nil_r, reverse_involutive, str_chars. }
  destruct ws as [|v ws].
  - change (join " " [w]) with w. rewrite <- (app_nil_r (chars w)).
    rewrite split_go_word by done. cbn [split_go].
    destruct (reverse (chars w) ++ []) eqn:E; [done|]. by rewrite Hstr.
  - rewrite join_cons, !chars_app. change (chars " ") with [" "%char].
    cbn [app]. rewrite split_go_word by done. cbn [split_go].
    change (isspace " ") with true. cbn iota.
    destruct (reverse (chars w) ++ []) eqn:E; [done|]. rewrite Hstr.
    by rewrite IH.
Qed.

Lemma prefix_PUSHSTR s :
  String.prefix "PUSHSTR " s = true → ∃ r, s = "PUSHSTR " +:+ r.
Proof.
  intros H.
  do 8 (destruct s as [|? s]; [discriminate H|];
        cbn [String.prefix] in H;
        match type of H with
        | (if ?d then _ else _) = _ => destruct d as [<-|]; [|discriminate H]
        end).
  by exists s.
Qed.

Lemma join_words_chars w ws :
  chars (join " " (w :: ws))
  = chars w ++ match ws with [] => [] | _ :: _ => " "%char :: chars (join " " ws) end.
Proof.
  destruct ws as [|v ws].
  - change (join " " [w]) with w. by rewrite app_nil_r.
  - by rewrite join_cons, !chars_app.
Qed.

Lemma word_not_space_last w :
  w ≠ EmptyString → Forall (λ c, isspace c = false) (chars w) →
  last (isspace <$> chars w) ≠ Some true.
Proof.
  intros _ Hw. rewrite fmap_last.
  destruct (last (chars w)) as [c|] eqn:E; [|done].
  apply last_Some_elem_of in E. rewrite Forall_forall in Hw. simpl.
  by rewrite (Hw c E).
Qed.

Lemma join_words_last op operands :
  Forall (λ w, w ≠ EmptyString ∧ Forall (λ c, isspace c = false) (chars w))
         (op :: operands) →
  last (isspace <$> chars (join " " (op :: operands))) ≠ Some true.
Proof.
  revert op. induction operands as [|v ws IH]; intros op Hws.
  - apply Forall_cons in Hws as [[Hne Hw] _].
    change (join " " [op]) with op. by apply word_not_space_last.
  - apply Forall_cons in Hws as [_ Hws].
    rewrite join_cons, !chars_app, !fmap_app, !last_app.
    specialize (IH v Hws).
    destruct (last (isspace <$> chars (join " " (v :: ws)))) as [b|] eqn:E; [done|].
    exfalso. rewrite fmap_last in E. apply fmap_None in E.
    apply last_None in E. apply Forall_cons in Hws as [[Hv _] _].
    rewrite join_words_chars in E. apply app_nil in E as [E _].
    apply Hv. by rewrite <- (str_chars v), E.
Qed.

(** The line of an instruction written as words with single spaces
    between them. *)
Lemma decode_line_words op operands :
  Forall (λ w, w ≠ EmptyString ∧ Forall (λ c, isspace c = false) (chars w))
         (op :: operands) →
  head (chars op) ≠ Some "#"%char → op ≠ "PUSHSTR" →
  decode_line (chars (join " " (op :: operands))) = Some (op :: operands).
Proof.
  intros Hws Hhash Hop. pose proof Hws as Hws'.
  apply Forall_cons in Hws' as [[Hne Hw] Hrest].
  unfold decode_line.
  pose proof (join_words_last op operands Hws) as Hlast.
  rewrite strip_chars_id; [|rewrite join_words_chars|done].
  2:{ destruct op as [|c op]; [done|]. apply Forall_cons in Hw as [Hc _].
      cbn. by rewrite Hc. }
  rewrite str_chars.
  destruct (chars (join " " (op :: operands))) as [|c l] eqn:E.
  { rewrite join_words_chars in E. apply app_nil in E as [E _].
    destruct Hne. by rewrite <- (str_chars op), E. }
  rewrite bool_decide_eq_false_2.
  2:{ intros ->. rewrite join_words_chars in E. destruct op as [|d op]; [done|].
      injection E as -> _. by destruct Hhash. }
  destruct (String.prefix "PUSHSTR " (join " " (op :: operands))) eqn:Ep.
  - exfalso. apply prefix_PUSHSTR in Ep as [r Hr].
    apply (f_equal chars) in Hr. rewrite join_words_chars, chars_app in Hr.
    change (chars "PUSHSTR ") with (chars "PUSHSTR" ++ " "%char :: []) in Hr.
    rewrite <- app_assoc in Hr. cbn [app] in Hr.
    assert (Hsp : ∀ l1 l2 r1 r2,
              Forall (λ c, isspace c = false) l1 → Forall (λ c, isspace c = false) l2 →
              l1 ++ r1 = l2 ++ " "%char :: r2 →
              (r1 = [] ∨ ∃ r1', r1 = " "%char :: r1') → l1 = l2).
    { clear. induction l1 as [|a l1 IH]; intros [|b l2] r1 r2 H1 H2 E Hr1.
      - done.
      - exfalso. destruct Hr1 as [->|[r1' ->]]; [done|]. simpl in E.
        injection E as <- _. by apply Forall_cons in H2 as [? _].
      - exfalso. simpl in E. injection E as -> _. by apply Forall_cons in H1 as [? _].
      - simpl in E. injection E as -> E. apply Forall_cons in H1 as [_ H1].
        apply Forall_cons in H2 as [_ H2]. f_equal. by eapply IH. }
    assert (chars op = chars "PUSHSTR") as Heq.
    { eapply Hsp; [exact Hw| |exact Hr|].
      - by repeat constructor.
      - destruct operands; [by left|right; by eexists]. }
    apply Hop. by rewrite <- (str_chars op), Heq.
  - rewrite <- E, split_words; done.
Qed.

Lemma is_linebreak_isspace c : isspace c = false → is_linebreak c = false.
Proof. destruct c as [[] [] [] [] [] [] [] []]; intros H; try discriminate H; done. Qed.


Lemma load_prog_line line :
  Forall (λ c, is_linebreak c = false) (chars line) →
  load_prog line = match decode_line (chars line) with Some i => [i] | None => [] end.
Proof.
  intros H. change line with (join nl [line]) at 1.
  rewrite load_prog_join by by constructor. cbn. by destruct (decode_line _).
Qed.




Lemma json_char_no_linebreak c :
  forallb (λ d, negb (is_linebreak d)) (json_char c) = true.
Proof. destruct c as [[] [] [] [] [] [] [] []]; reflexivity. Qed.

Lemma json_dumps_no_linebreak s :
  Forall (λ d, is_linebreak d = false) (chars (json_dumps_str s)).
Proof.
  rewrite json_dumps_chars. constructor; [done|]. apply Forall_app. split; [|by constructor].
  induction (chars s) as [|c l IH]; [constructor|].
  rewrite fmap_cons, mjoin_cons. apply Forall_app. split; [|done].
  pose proof (json_char_no_linebreak c) as H. rewrite forallb_forall in H.
  apply Forall_forall. intros d Hd. apply list_elem_of_In in Hd.
  specialize (H d Hd). by destruct (is_linebreak d).
Qed.

Lemma decode_line_pushstr body :
  last (isspace <$> body) = Some false →
  decode_line (chars "PUSHSTR " ++ body) = Some ["PUSHSTR"; str body].
Proof.
  intros Hl. unfold decode_line. rewrite strip_chars_id.
  - cbn. rewrite bool_decide_eq_false_2 by done.
    assert (String.prefix EmptyString (string_of_list_ascii body) = true) as ->
      by by destruct (string_of_list_ascii body).
    reflexivity.
  - done.
  - rewrite fmap_app, last_app, Hl. done.
Qed.

(** X22: a string literal survives the compiler and the machine.  The
    one line that [compile_form] emits for the str [s], the text of
    [json.dumps] after [PUSHSTR], is loaded as one instruction whatever
    characters [s] holds (line breaks and quotes are escaped), and
    executing it pushes [s]. *)
Theorem str_literal_round_trip (s : string) (c : TinyLisp.C) (P : program) (st : state) :
  ∃ line inst,
    TinyLisp.compile_form (TinyLisp.FStr s) c = Ok (TinyLisp.emit line c) ∧
    load_prog line = [inst] ∧
    exec P inst st = Ok (advance (push (VStr s) st)).
Proof.
  exists ("PUSHSTR " +:+ json_dumps_str s), ["PUSHSTR"; json_dumps_str s].
  split_and!; [done| |].
  - pose proof (json_dumps_no_linebreak s) as Hj.
    assert (Hd : decode_line (chars ("PUSHSTR " +:+ json_dumps_str s))
                 = Some ["PUSHSTR"; json_dumps_str s]).
    { rewrite chars_app, decode_line_pushstr; [by rewrite str_chars|].
      rewrite json_dumps_chars, fmap_cons, fmap_app, last_cons.
      change (isspace <$> [dquote]) with [false]. by rewrite last_snoc. }
    rewrite load_prog_line, Hd; [done|].
    rewrite chars_app. apply Forall_app. split; [by repeat constructor|].
    done.
  - unfold exec. cbn -[json_loads json_dumps_str]. by rewrite json_loads_dumps.
Qed.

(** X23: an instruction written as words with one space between them
    is loaded as those words.  The words must not be empty nor hold
    whitespace, the first must not start with the comment sign, and it
    must not be [PUSHSTR], whose operand is the rest of the line.  This
    is how the [DEFUN] line of [compile_define] gives the function name
    and the parameter names back. *)
Theorem instruction_words_round_trip op operands :
  Forall (λ w, w ≠ EmptyString ∧ Forall (λ c, isspace c = false) (chars w))
         (op :: operands) →
  head (chars op) ≠ Some "#"%char → op ≠ "PUSHSTR" →
  decode_line (chars (join " " (op :: operands))) = Some (op :: operands) ∧
  load_prog (join " " (op :: operands)) = [op :: operands].
Proof.
  intros Hws Hh Hop. pose proof (decode_line_words op operands Hws Hh Hop) as Hd.
  split; [done|]. rewrite load_prog_line, Hd; [done|].
  clear Hh Hop Hd. revert op Hws. induction operands as [|v ws IH]; intros op Hws.
  - apply Forall_cons in Hws as [[_ Hw] _]. change (join " " [op]) with op.
    eapply Forall_impl; [done|]. apply is_linebreak_isspace.
  - apply Forall_cons in Hws as [[_ Hw] Hws].
    rewrite join_cons, !chars_app. apply Forall_app. split.
    + eapply Forall_impl; [done|]. apply is_linebreak_isspace.
    + apply Forall_app. split; [by repeat constructor|]. by apply IH.
Qed.

Lemma defun_words :
  Forall (λ w, w ≠ EmptyString ∧ Forall (λ c, isspace c = false) (chars w))
         ["DEFUN"; "f"; "x"; "y"].
Proof. repeat constructor; done. Qed.

Lemma instruction_words_round_trip_witness :
  decode_line (chars (join " " ["DEFUN"; "f"; "x"; "y"])) = Some ["DEFUN"; "f"; "x"; "y"] ∧
  load_prog (join " " ["DEFUN"; "f"; "x"; "y"]) = [["DEFUN"; "f"; "x"; "y"]].
Proof.
  apply (instruction_words_round_trip "DEFUN" ["f"; "x"; "y"]).
  - apply defun_words.
  - discriminate.
  - discriminate.
Defined.

(** *** When the load phase fails *)

Lemma decode_line_nonempty raw inst : decode_line raw = Some inst → inst ≠ [].
Proof.
  unfold decode_line. destruct (strip_chars raw) as [|c l] eqn:E; [done|].
  apply strip_chars_head in E.
  destruct (bool_decide (c = "#"%char)); [done|].
  destruct (String.prefix _ _); intros [= <-]; [done|].
  unfold split. cbn [split_go]. rewrite E. by apply split_go_nonempty.
Qed.

Lemma load_prog_nonempty text : Forall (λ inst, inst ≠ []) (load_prog text).
Proof.
  apply Forall_forall. intros inst Hin. unfold load_prog in Hin.
  apply list_elem_of_omap in Hin as (raw & _ & Hd). by eapply decode_line_nonempty.
Qed.

Lemma load_labels_cases prog :
  Forall (λ inst, inst ≠ []) prog → ∀ i m,
  match load_labels i prog m with
  | Ok _ => ["LABEL"] ∉ prog
  | Raise e => e = IndexError ∧ ["LABEL"] ∈ prog
  end.
Proof.
  induction 1 as [|inst prog Hne _ IH]; intros i m; simpl; [set_solver|].
  destruct inst as [|op rest]; [done|]. cbn.
  destruct (String.eqb op "LABEL") eqn:Eop.
  - apply String.eqb_eq in Eop as ->. destruct rest as [|name rest]; cbn.
    + split; [done|]. set_solver.
    + specialize (IH (S i) (<[name := i]> m)).
      destruct (load_labels _ prog _); [|destruct IH]; set_solver.
  - apply String.eqb_neq in Eop. specialize (IH (S i) m).
    destruct (load_labels _ prog _); [|destruct IH].
    + apply not_elem_of_cons. split; [congruence|done].
    + split; [done|]. set_solver.
Qed.

Lemma load_functions_cases prog :
  Forall (λ inst, inst ≠ []) prog → ∀ i e p,
  match load_functions i prog e p with
  | Ok _ => ["DEFUN"] ∉ prog
  | Raise e => e = IndexError ∧ ["DEFUN"] ∈ prog
  end.
Proof.
  induction 1 as [|inst prog Hne _ IH]; intros i e p; simpl; [set_solver|].
  destruct inst as [|op rest]; [done|]. cbn.
  destruct (String.eqb op "DEFUN") eqn:Eop.
  - apply String.eqb_eq in Eop as ->. destruct rest as [|name rest]; cbn.
    + split; [done|]. set_solver.
    + specialize (IH (S i) (<[name := S i]> e) (<[name := rest]> p)).
      destruct (load_functions _ prog _ _); [|destruct IH]; set_solver.
  - apply String.eqb_neq in Eop. specialize (IH (S i) e p).
    destruct (load_functions _ prog _ _); [|destruct IH].
    + apply not_elem_of_cons. split; [congruence|done].
    + split; [done|]. set_solver.
Qed.

(** X24: the load phase fails exactly on a [LABEL] or [DEFUN] line
    without a name, with [IndexError], before any instruction is
    executed.  No other text makes it fail: an unknown operation, or an
    instruction without the operands it needs, is found when it is
    executed. *)
Theorem load_fails_on_nameless_LABEL_or_DEFUN bytecode_text stdin :
  match load bytecode_text stdin with
  | Ok P =>
      (prog P = load_prog bytecode_text) ∧
      (["LABEL"] ∉ load_prog bytecode_text) ∧ (["DEFUN"] ∉ load_prog bytecode_text)
  | Raise e =>
      (e = IndexError) ∧
      (["LABEL"] ∈ load_prog bytecode_text ∨ ["DEFUN"] ∈ load_prog bytecode_text)
  end.
Proof.
  unfold load.
  pose proof (load_labels_cases _ (load_prog_nonempty bytecode_text) 0%nat ∅) as Hl.
  pose proof (load_functions_cases _ (load_prog_nonempty bytecode_text) 0%nat ∅ ∅) as Hf.
  destruct (load_labels 0 _ ∅) as [l|e]; simpl.
  - destruct (load_functions 0 _ ∅ ∅) as [[fe fp]|e]; simpl; [done|].
    destruct Hf. auto.
  - destruct Hl. auto.
Qed.

End loader_facts.


(** ** The errors of the compiler *)

Section compiler_errors.
Import TinyLisp.

Lemma for_each_raises (f : form → C → result C) l :
  Forall (λ x, ∀ c e, f x c = Raise e → ∃ msg, e = SyntaxError msg) l →
  ∀ c e, for_each f l c = Raise e → ∃ msg, e = SyntaxError msg.
Proof.
  induction 1 as [|x l Hx _ IH]; intros c e H; simpl in H; [done|].
  destruct (f x c) as [c1|e1] eqn:E; simpl in H; [by eapply IH|].
  injection H as <-. by eapply Hx.
Qed.

Ltac raise_cases :=
  repeat match goal with
  | H : Forall _ (_ :: _) |- _ => apply Forall_cons in H as [? ?]
  | H : Raise _ = Raise _ |- _ => injection H as <-
  | H : Ok _ = Raise _ |- _ => discriminate H
  | H : (let '(_, _) := gensym ?p ?c in _) = Raise _ |- _ =>
      unfold gensym in H; cbn zeta beta iota in H
  | H : mbind _ (compile_form ?a ?c) = Raise _ |- _ =>
      let E := fresh "E" in
      destruct (compile_form a c) eqn:E; cbn [mbind result_bind] in H
  | H : mbind _ (for_each compile_form ?a ?c) = Raise _ |- _ =>
      let E := fresh "E" in
      destruct (for_each compile_form a c) eqn:E; cbn [mbind result_bind] in H
  | H : (if ?b then _ else _) = Raise _ |- _ => destruct b
  | H : ∀ c e, compile_form ?a c = Raise e → _, E : compile_form ?a _ = Raise _ |- _ =>
      exact (H _ _ E)
  | |- ∃ msg, SyntaxError _ = SyntaxError msg => by eexists
  end.

Lemma compile_form_raises x :
  ∀ c e, compile_form x c = Raise e → ∃ msg, e = SyntaxError msg.
Proof.
  induction x as [n|s|name|items IH] using form_ind'; intros c e H; try done.
  destruct items as [|op args]; [done|].
  apply Forall_cons in IH as [_ IH].
  assert (Hfor : ∀ l c e, Forall (λ x, ∀ c e, compile_form x c = Raise e →
                                       ∃ msg, e = SyntaxError msg) l →
                   for_each compile_form l c = Raise e → ∃ msg, e = SyntaxError msg).
  { intros l c0 e0 Hl. by apply for_each_raises. }
  destruct op as [?|?|opname|?]; try (injection H as <-; by eexists).
  cbn [compile_form] in H.
  destruct (String.eqb opname "begin"); [by eapply Hfor|].
  destruct (String.eqb opname "if").
  { destruct args as [|a [|b [|d [|]]]]; raise_cases. }
  destruct (String.eqb opname "let" || String.eqb opname "set").
  { destruct args as [|[?|?|?|?] [|b [|]]]; raise_cases. }
  destruct (String.eqb opname "while").
  { destruct args as [|a [|b body]]; raise_cases.
    eapply Hfor; [|done]. by constructor. }
  destruct (arith_op opname).
  { destruct args as [|a [|b [|]]]; raise_cases. }
  destruct (String.eqb opname "print").
  { destruct args as [|a [|]]; raise_cases. }
  raise_cases. by eapply Hfor.
Qed.

Lemma symnames_raises l e : symnames l = Raise e → ∃ msg, e = SyntaxError msg.
Proof.
  induction l as [|p l IH]; simpl; [done|].
  destruct p; simpl; try (intros [= <-]; by eexists).
  destruct (symnames l); simpl; [done|]. intros [= <-]. by apply IH.
Qed.

Lemma compile_define_raises d c e :
  compile_define d c = Raise e → ∃ msg, e = SyntaxError msg.
Proof.
  unfold compile_define. intros H.
  destruct d as [?|?|?|[|d0 [|sig [|body [|]]]]]; try (injection H as <-; by eexists).
  destruct sig as [?|?|?|[|[?|?|fname|?] ps]]; try (injection H as <-; by eexists).
  destruct (symnames ps) as [params|e1] eqn:Es; simpl in H.
  - destruct (compile_form body _) as [c1|e1] eqn:E; simpl in H; [done|].
    injection H as <-. by eapply compile_form_raises.
  - injection H as <-. by eapply symnames_raises.
Qed.

Lemma compile_program_raises forms c e :
  compile_program forms c = Raise e → ∃ msg, e = SyntaxError msg.
Proof.
  unfold compile_program. intros H.
  destruct (for_each compile_define _ _) as [c1|e1] eqn:E1; simpl in H.
  - destruct (for_each compile_form _ _) as [c2|e2] eqn:E2; simpl in H; [done|].
    injection H as <-. eapply for_each_raises; [|done].
    apply Forall_forall. intros x _. apply compile_form_raises.
  - injection H as <-. eapply for_each_raises; [|done].
    apply Forall_forall. intros x _. apply compile_define_raises.
Qed.

(** X25: the compiler rejects a program with [SyntaxError] and with
    nothing else.  Whatever the forms, [compile_program] returns the
    bytecode or raises [SyntaxError], and [main] raises what [tokenize]
    raises or [SyntaxError]: no form makes the compiler fail on an index,
    a type or a key. *)
Theorem compiler_raises_only_SyntaxError :
  (∀ forms c e, compile_program forms c = Raise e → ∃ msg, e = SyntaxError msg) ∧
  (∀ src e, main src = Raise e → tokenize src = Raise e ∨ ∃ msg, e = SyntaxError msg).
Proof.
  split; [apply compile_program_raises|].
  intros src e H. unfold main in H.
  destruct (parse_sexprs src) as [forms|e1] eqn:Ep; simpl in H.
  - destruct (compile_program forms C_init) as [[text c]|e1] eqn:Ec; simpl in H; [done|].
    injection H as <-. right. by eapply compile_program_raises.
  - injection H as <-. unfold parse_sexprs in Ep.
    pose proof (tokenize_cases src) as Hc.
    destruct (tokenize src) as [toks|e']; simpl in Ep; [|left; congruence].
    destruct Hc as (body & -> & _). right.
    eapply parse_forms_raises; [| |exact Ep]; [done|set_solver].
Qed.

End compiler_errors.


(** ** From source text to output: a built-in operator on two integers *)

Section binop_pipeline.
Import TinyLisp.









End binop_pipeline.

Section binop_run.
Import VM.









End binop_run.
